(** * nucleus: speculative disassembly engine (disasm.cc)

    A shallow embedding of [src/disasm.cc]: the [AddressMap] bookkeeping
    structure, the capstone instruction classifiers, the basic-block
    decoder [nucleus_disasm_bb_x86] and the per-section worklist
    [nucleus_disasm_section], followed by the properties of the
    specification that concern them. *)

From Stdlib Require Import ZArith Lia Strings.Byte.
From stdpp Require Import base numbers option list gmap strings.

Local Open Scope Z_scope.

(** ** Machine integers

    [uint64_t] and [unsigned] values are integers in [Z]; arithmetic on them
    wraps modulo the width. *)

Definition wrap64 (z : Z) : Z := z mod 2 ^ 64.
Definition wrap32 (z : Z) : Z := z mod 2 ^ 32.

(** [assert(c)]: aborts the program when [c] is false, unless the unit was
    compiled with [NDEBUG], which removes the check. [None] is the abort. *)
Definition assert (ndebug c : bool) : option unit :=
  if ndebug || c then Some () else None.

(** ** AddressMap *)

Module AddressMap.

(** Modelled from the spec: the [DisasmRegion] flag values of [disasm.h],
    which is not among the sources. [DISASM_REGION_UNMAPPED] is the empty
    mask, the others are distinct bits that can be or-ed together. *)
Definition DISASM_REGION_UNMAPPED : Z := 0.
Definition DISASM_REGION_CODE : Z := 1.
Definition DISASM_REGION_INS_START : Z := 256.
Definition DISASM_REGION_BB_START : Z := 512.

(** The three containers of the class: [std::map<uint64_t, unsigned>],
    [std::vector<uint64_t>] and [std::map<uint64_t, size_t>]. *)
Record t := mk {
  addrmap : gmap Z Z;
  unmapped : list Z;
  unmapped_lookup : gmap Z nat
}.

Definition empty : t := mk ∅ [] ∅.

(** [std::map::count] on a map without duplicate keys. *)
Definition count {V} (m : gmap Z V) (k : Z) : bool :=
  match m !! k with Some _ => true | None => false end.

Definition contains (m : t) (addr : Z) : bool :=
  count (addrmap m) addr || count (unmapped_lookup m) addr.

Definition insert (m : t) (addr : Z) : t :=
  if contains m addr then m
  else
    let u := unmapped m ++ [addr] in
    mk (addrmap m) u (<[addr := (length u - 1)%nat]> (unmapped_lookup m)).

Definition unmapped_count (m : t) : nat := length (unmapped m).

(** [unmapped[i]]; reading past the end of the vector is undefined in the
    source, [None] here. *)
Definition get_unmapped (m : t) (i : nat) : option Z := unmapped m !! i.

(** Swap with the last element and shrink. [unmapped.back()] is only
    evaluated when the vector holds more than one element; the other
    vector accesses are in range whenever [unmapped] and
    [unmapped_lookup] agree (see [unmapped_ok] below). *)
Definition erase_unmapped (m : t) (addr : Z) : t :=
  match unmapped_lookup m !! addr with
  | None => m
  | Some i =>
      let '(u, lk) :=
        if bool_decide (1 < unmapped_count m)%nat then
          match last (unmapped m) with
          | Some back => (<[i := back]> (unmapped m), <[back := i]> (unmapped_lookup m))
          | None => (unmapped m, unmapped_lookup m)
          end
        else (unmapped m, unmapped_lookup m) in
      mk (addrmap m) (take (length u - 1) u) (delete addr lk)
  end.

(** [addrmap[addr]] of [std::map]: the entry is created with value 0 when
    the key is absent. *)
Definition deref (am : gmap Z Z) (addr : Z) : Z := default 0 (am !! addr).

Definition get_addr_type (ndebug : bool) (m : t) (addr : Z) : option (Z * t) :=
  _ ← assert ndebug (contains m addr);
  if negb (contains m addr) then Some (DISASM_REGION_UNMAPPED, m)
  else Some (deref (addrmap m) addr,
             mk (<[addr := deref (addrmap m) addr]> (addrmap m)) (unmapped m) (unmapped_lookup m)).

Definition addr_type := get_addr_type.

Definition set_addr_type (ndebug : bool) (m : t) (addr type : Z) : option t :=
  _ ← assert ndebug (contains m addr);
  if contains m addr then
    let m1 := if bool_decide (type ≠ DISASM_REGION_UNMAPPED) then erase_unmapped m addr else m in
    Some (mk (<[addr := type]> (addrmap m1)) (unmapped m1) (unmapped_lookup m1))
  else Some m.

Definition add_addr_flag (ndebug : bool) (m : t) (addr flag : Z) : option t :=
  _ ← assert ndebug (contains m addr);
  if contains m addr then
    let m1 := if bool_decide (flag ≠ DISASM_REGION_UNMAPPED) then erase_unmapped m addr else m in
    Some (mk (<[addr := Z.lor (deref (addrmap m1) addr) flag]> (addrmap m1))
             (unmapped m1) (unmapped_lookup m1))
  else Some m.

Definition erase (m : t) (addr : Z) : t :=
  let m1 := if count (addrmap m) addr
            then mk (delete addr (addrmap m)) (unmapped m) (unmapped_lookup m)
            else m in
  erase_unmapped m1 addr.

(** The vector and its index describe the same set: [unmapped_lookup]
    sends an address to the position that holds it. *)
Definition unmapped_ok (m : t) : Prop :=
  ∀ (a : Z) (i : nat), unmapped_lookup m !! a = Some i ↔ unmapped m !! i = Some a.

(** An address is tracked as unmapped, or carries flags in [addrmap]. *)
Definition is_unmapped (m : t) (a : Z) : Prop :=
  is_Some (unmapped_lookup m !! a) ∧ a ∈ unmapped m.
Definition is_mapped (m : t) (a : Z) : Prop := is_Some (addrmap m !! a).

Definition has_flag (m : t) (a flag : Z) : Prop :=
  ∃ ty, addrmap m !! a = Some ty ∧ Z.land ty flag = flag.

End AddressMap.

(** ** The capstone interface

    [capstone.h] belongs to a third-party library. The enumerations below
    list the identifiers that [disasm.cc] names and keep one more
    constructor for every identifier it does not name. *)

Inductive x86_insn : Set :=
  | X86_INS_INVALID
  | X86_INS_NOP | X86_INS_FNOP
  | X86_INS_MOV | X86_INS_XCHG | X86_INS_LEA
  | X86_INS_INT3 | X86_INS_UD2
  | X86_INS_CALL | X86_INS_LCALL
  | X86_INS_RET | X86_INS_RETF
  | X86_INS_JMP
  | X86_INS_JAE | X86_INS_JA | X86_INS_JBE | X86_INS_JB | X86_INS_JCXZ
  | X86_INS_JECXZ | X86_INS_JE | X86_INS_JGE | X86_INS_JG | X86_INS_JLE
  | X86_INS_JL | X86_INS_JNE | X86_INS_JNO | X86_INS_JNP | X86_INS_JNS
  | X86_INS_JO | X86_INS_JP | X86_INS_JRCXZ | X86_INS_JS
  | X86_INS_HLT | X86_INS_IN | X86_INS_INSB | X86_INS_INSW | X86_INS_INSD
  | X86_INS_OUT | X86_INS_OUTSB | X86_INS_OUTSW | X86_INS_OUTSD
  | X86_INS_RDMSR | X86_INS_WRMSR | X86_INS_RDPMC | X86_INS_RDTSC
  | X86_INS_LGDT | X86_INS_LLDT | X86_INS_LTR | X86_INS_LMSW | X86_INS_CLTS
  | X86_INS_INVD | X86_INS_INVLPG | X86_INS_WBINVD
  | X86_INS_other (k : N).

Inductive x86_reg : Set :=
  | X86_REG_INVALID
  | X86_REG_EAX | X86_REG_EBX | X86_REG_ECX | X86_REG_EDX
  | X86_REG_ESI | X86_REG_EDI | X86_REG_EBP | X86_REG_ESP
  | X86_REG_EIZ
  | X86_REG_other (k : N).

#[global] Instance x86_insn_eq_dec : EqDecision x86_insn.
Proof. solve_decision. Defined.

#[global] Instance x86_reg_eq_dec : EqDecision x86_reg.
Proof. solve_decision. Defined.

Inductive x86_op_type : Set :=
  | X86_OP_INVALID | X86_OP_REG | X86_OP_IMM | X86_OP_MEM | X86_OP_FP.

Inductive cs_group_type : Set :=
  | CS_GRP_INVALID | CS_GRP_JUMP | CS_GRP_CALL | CS_GRP_RET | CS_GRP_INT
  | CS_GRP_IRET | CS_GRP_other (k : N).

Inductive cs_mode : Set := CS_MODE_16 | CS_MODE_32 | CS_MODE_64.

Record x86_op_mem := mk_x86_op_mem {
  mem_segment : x86_reg;
  mem_base : x86_reg;
  mem_index : x86_reg;
  mem_scale : Z;
  mem_disp : Z
}.

(** The payload of an operand is a C union selected by the operand type;
    here the type tag and the payload are one value. A [double] is carried
    as its 64-bit pattern. *)
Inductive cs_x86_op_val :=
  | CS_OP_INVALID
  | CS_OP_REG (reg : x86_reg)
  | CS_OP_IMM (imm : Z)
  | CS_OP_MEM (mem : x86_op_mem)
  | CS_OP_FP (fp : Z).

Record cs_x86_op := mk_cs_x86_op {
  cs_op_val : cs_x86_op_val;
  cs_op_size : Z
}.

Definition cs_op_type (o : cs_x86_op) : x86_op_type :=
  match cs_op_val o with
  | CS_OP_INVALID => X86_OP_INVALID
  | CS_OP_REG _ => X86_OP_REG
  | CS_OP_IMM _ => X86_OP_IMM
  | CS_OP_MEM _ => X86_OP_MEM
  | CS_OP_FP _ => X86_OP_FP
  end.

(** [cs_insn] with its [detail]: [groups] with [groups_count] its length,
    [x86.operands] with [x86.op_count] its length. *)
Record cs_insn := mk_cs_insn {
  cs_id : x86_insn;
  cs_address : Z;
  cs_size : Z;
  cs_mnemonic : string;
  cs_op_str : string;
  cs_groups : list cs_group_type;
  cs_addr_size : Z;
  cs_operands : list cs_x86_op
}.

(** What the engine asks of the library. [cs_open] and [cs_malloc] tell
    whether the handle and the instruction buffer could be set up;
    [cs_decode mode code addr] is the decoding step inside
    [cs_disasm_iter], on the bytes that remain. *)
Record Capstone := mk_Capstone {
  cs_open : cs_mode → bool;
  cs_malloc : cs_mode → bool;
  cs_decode : cs_mode → list byte → Z → option cs_insn
}.

(** [cs_disasm_iter(handle, &pc, &n, &pc_addr, insn)]: on success the
    cursor moves past the instruction. The remaining bytes are the list
    [pc], whose length is [n]; the library takes the size of the instruction
    from [n], which stays within [size_t] for a decoder that keeps to
    [cs_decode_ok] below. *)
Definition cs_disasm_iter (cs : Capstone) (mode : cs_mode) (pc : list byte) (pc_addr : Z)
  : option (cs_insn * list byte * Z) :=
  match cs_decode cs mode pc pc_addr with
  | Some ins => Some (ins, drop (Z.to_nat (cs_size ins)) pc, wrap64 (pc_addr + cs_size ins))
  | None => None
  end.

(** The library never reports an instruction longer than the bytes it was
    given. *)
Definition cs_decode_ok (cs : Capstone) : Prop :=
  ∀ mode pc addr ins,
    cs_decode cs mode pc addr = Some ins → 0 ≤ cs_size ins ≤ Z.of_nat (length pc).

(** ** Loader, instructions and basic blocks *)

(** Modelled from the spec: the enumerations and the records of [loader.h],
    [insn.h], [bb.h] and [disasm.h], which are not among the sources, with
    the members that [disasm.cc] reads and writes. *)
Inductive BinaryType : Set := BIN_TYPE_PE | BIN_TYPE_other (k : N).
Inductive BinaryArch : Set := ARCH_X86 | ARCH_other (k : N).
Inductive SectionType : Set := SEC_TYPE_CODE | SEC_TYPE_DATA | SEC_TYPE_other (k : N).

Record Section := mk_Section {
  sec_name : string;
  sec_type : SectionType;
  sec_vma : Z;
  sec_size : Z;
  sec_bytes : list byte
}.

Record Binary := mk_Binary {
  bin_type : BinaryType;
  bin_arch : BinaryArch;
  bin_bits : Z;
  bin_arch_str : string;
  bin_sections : list Section
}.

Inductive OperandType : Set :=
  | OP_TYPE_NONE | OP_TYPE_REG | OP_TYPE_IMM | OP_TYPE_MEM | OP_TYPE_FP.

Inductive X86Value :=
  | X86_VALUE_NONE
  | X86_VALUE_REG (reg : x86_reg)
  | X86_VALUE_IMM (imm : Z)
  | X86_VALUE_FP (fp : Z)
  | X86_VALUE_MEM (mem : x86_op_mem).

Record Operand := mk_Operand {
  op_type : OperandType;
  op_size : Z;
  x86_value : X86Value
}.

(** Modelled from the spec: the [InstructionFlags] values of [insn.h], one
    bit each. *)
Definition INS_FLAG_CFLOW : Z := 1.
Definition INS_FLAG_COND : Z := 2.
Definition INS_FLAG_INDIRECT : Z := 4.
Definition INS_FLAG_JMP : Z := 8.
Definition INS_FLAG_CALL : Z := 16.
Definition INS_FLAG_RET : Z := 32.
Definition INS_FLAG_NOP : Z := 64.

Record Instruction := mk_Instruction {
  ins_start : Z;
  ins_size : Z;
  ins_addr_size : Z;
  ins_mnem : string;
  ins_op_str : string;
  ins_privileged : bool;
  ins_trap : bool;
  ins_flags : Z;
  ins_operands : list Operand;
  ins_target : Z
}.

Definition has_ins_flag (i : Instruction) (flag : Z) : bool :=
  negb (Z.land (ins_flags i) flag =? 0).

Record BB := mk_BB {
  bb_start : Z;
  bb_end : Z;
  bb_section : option Section;
  bb_insns : list Instruction;
  bb_invalid : bool;
  bb_privileged : bool;
  bb_padding : bool;
  bb_trap : bool;
  bb_alive : bool
}.

Record DisasmSection := mk_DisasmSection {
  dis_section : Section;
  dis_addrmap : AddressMap.t;
  dis_BBs : list BB
}.

(** [options.only_code_sections]. *)
Record Options := mk_Options { only_code_sections : bool }.

(** ** Instruction classification *)

Definition is_cs_nop_ins (ins : cs_insn) : bool :=
  match cs_id ins with
  | X86_INS_NOP | X86_INS_FNOP => true
  | _ => false
  end.

Definition is_cs_semantic_nop_ins (ins : cs_insn) : bool :=
  match cs_id ins with
  | X86_INS_MOV | X86_INS_XCHG =>
      match cs_operands ins with
      | [o0; o1] =>
          match cs_op_val o0, cs_op_val o1 with
          | CS_OP_REG r0, CS_OP_REG r1 => bool_decide (r0 = r1)
          | _, _ => false
          end
      | _ => false
      end
  | X86_INS_LEA =>
      match cs_operands ins with
      | [o0; o1] =>
          match cs_op_val o0, cs_op_val o1 with
          | CS_OP_REG r0, CS_OP_MEM mem =>
              (bool_decide (mem_segment mem = X86_REG_INVALID)
               && bool_decide (mem_base mem = r0)
               && bool_decide (mem_index mem = X86_REG_INVALID)
               && (mem_disp mem =? 0))
              || (bool_decide (mem_segment mem = X86_REG_INVALID)
                  && bool_decide (mem_base mem = r0)
                  && bool_decide (mem_index mem = X86_REG_EIZ)
                  && (mem_disp mem =? 0))
          | _, _ => false
          end
      | _ => false
      end
  | _ => false
  end.

Definition is_cs_trap_ins (ins : cs_insn) : bool :=
  match cs_id ins with
  | X86_INS_INT3 | X86_INS_UD2 => true
  | _ => false
  end.

Definition is_cs_cflow_group (g : cs_group_type) : bool :=
  match g with
  | CS_GRP_JUMP | CS_GRP_CALL | CS_GRP_RET | CS_GRP_IRET => true
  | _ => false
  end.

Definition is_cs_cflow_ins (ins : cs_insn) : bool :=
  existsb is_cs_cflow_group (cs_groups ins).

Definition is_cs_call_ins (ins : cs_insn) : bool :=
  match cs_id ins with
  | X86_INS_CALL | X86_INS_LCALL => true
  | _ => false
  end.

Definition is_cs_ret_ins (ins : cs_insn) : bool :=
  match cs_id ins with
  | X86_INS_RET | X86_INS_RETF => true
  | _ => false
  end.

Definition is_cs_unconditional_jmp_ins (ins : cs_insn) : bool :=
  match cs_id ins with
  | X86_INS_JMP => true
  | _ => false
  end.

Definition is_cs_conditional_cflow_ins (ins : cs_insn) : bool :=
  match cs_id ins with
  | X86_INS_JAE | X86_INS_JA | X86_INS_JBE | X86_INS_JB | X86_INS_JCXZ
  | X86_INS_JECXZ | X86_INS_JE | X86_INS_JGE | X86_INS_JG | X86_INS_JLE
  | X86_INS_JL | X86_INS_JNE | X86_INS_JNO | X86_INS_JNP | X86_INS_JNS
  | X86_INS_JO | X86_INS_JP | X86_INS_JRCXZ | X86_INS_JS => true
  | _ => false
  end.

Definition is_cs_privileged_ins (ins : cs_insn) : bool :=
  match cs_id ins with
  | X86_INS_HLT | X86_INS_IN | X86_INS_INSB | X86_INS_INSW | X86_INS_INSD
  | X86_INS_OUT | X86_INS_OUTSB | X86_INS_OUTSW | X86_INS_OUTSD
  | X86_INS_RDMSR | X86_INS_WRMSR | X86_INS_RDPMC | X86_INS_RDTSC
  | X86_INS_LGDT | X86_INS_LLDT | X86_INS_LTR | X86_INS_LMSW | X86_INS_CLTS
  | X86_INS_INVD | X86_INS_INVLPG | X86_INS_WBINVD => true
  | _ => false
  end.

Definition cs_to_nucleus_op_type (op : x86_op_type) : OperandType :=
  match op with
  | X86_OP_REG => OP_TYPE_REG
  | X86_OP_IMM => OP_TYPE_IMM
  | X86_OP_MEM => OP_TYPE_MEM
  | X86_OP_FP => OP_TYPE_FP
  | X86_OP_INVALID => OP_TYPE_NONE
  end.

Definition is_PE (bin : Binary) : bool :=
  match bin_type bin with BIN_TYPE_PE => true | _ => false end.

(** The value of [nop] in the decoding loop: an architectural no-op, a
    semantic no-op unless the binary is PE, or a trap when it is PE. *)
Definition is_nop (bin : Binary) (ins : cs_insn) : bool :=
  is_cs_nop_ins ins
  || (is_cs_semantic_nop_ins ins && negb (is_PE bin))
  || (is_cs_trap_ins ins && is_PE bin).

(** ** The basic-block decoder *)

(** [if(c) flags |= flag]. *)
Definition or_flag (c : bool) (flag flags : Z) : Z :=
  if c then Z.lor flags flag else flags.

Definition nucleus_operand (cs_op : cs_x86_op) : Operand :=
  mk_Operand (cs_to_nucleus_op_type (cs_op_type cs_op)) (cs_op_size cs_op)
    (match cs_op_val cs_op with
     | CS_OP_IMM imm => X86_VALUE_IMM imm
     | CS_OP_REG reg => X86_VALUE_REG reg
     | CS_OP_FP fp => X86_VALUE_FP fp
     | CS_OP_MEM mem => X86_VALUE_MEM mem
     | CS_OP_INVALID => X86_VALUE_NONE
     end).

(** The operand loop marks a control-flow instruction [INDIRECT] at every
    register or memory operand. *)
Definition operand_flags (cflow : bool) (flags : Z) (ops : list cs_x86_op) : Z :=
  foldl (λ fl o,
           match cs_op_type o with
           | X86_OP_REG | X86_OP_MEM => or_flag cflow INS_FLAG_INDIRECT fl
           | _ => fl
           end) flags ops.

(** The target loop: for every control-flow group of the instruction, every
    immediate operand overwrites [target]. *)
Definition operand_target (ins : cs_insn) (target : Z) : Z :=
  foldl (λ t g,
           if is_cs_cflow_group g then
             foldl (λ t' o,
                      match cs_op_val o with
                      | CS_OP_IMM imm => wrap64 imm
                      | _ => t'
                      end) t (cs_operands ins)
           else t) target (cs_groups ins).

(** The [Instruction] that one iteration appends; a fresh [Instruction()]
    has no flags and target 0. *)
Definition nucleus_instruction (bin : Binary) (ins : cs_insn) : Instruction :=
  let trap := is_cs_trap_ins ins in
  let nop := is_nop bin ins in
  let ret := is_cs_ret_ins ins in
  let jmp := is_cs_unconditional_jmp_ins ins || is_cs_conditional_cflow_ins ins in
  let cond := is_cs_conditional_cflow_ins ins in
  let cflow := is_cs_cflow_ins ins in
  let call := is_cs_call_ins ins in
  let priv := is_cs_privileged_ins ins in
  let flags :=
    or_flag call INS_FLAG_CALL
      (or_flag cflow INS_FLAG_CFLOW
         (or_flag cond INS_FLAG_COND
            (or_flag jmp INS_FLAG_JMP
               (or_flag ret INS_FLAG_RET
                  (or_flag nop INS_FLAG_NOP 0))))) in
  mk_Instruction (cs_address ins) (cs_size ins) (cs_addr_size ins)
    (cs_mnemonic ins) (cs_op_str ins) priv trap
    (operand_flags cflow flags (cs_operands ins))
    (map nucleus_operand (cs_operands ins))
    (operand_target ins 0).

(** The block after one more instruction: [end] grows by its size and the
    block flags accumulate. *)
Definition bb_append (bin : Binary) (bb : BB) (ins : cs_insn) : BB :=
  mk_BB (bb_start bb) (wrap64 (bb_end bb + cs_size ins)) (bb_section bb)
    (bb_insns bb ++ [nucleus_instruction bin ins])
    (bb_invalid bb)
    (bb_privileged bb || is_cs_privileged_ins ins)
    (bb_padding bb || is_nop bin ins)
    (bb_trap bb || is_cs_trap_ins ins)
    (bb_alive bb).

(** [bb->invalid = 1; bb->end += 1]. *)
Definition bb_mark_invalid (bb : BB) : BB :=
  mk_BB (bb_start bb) (wrap64 (bb_end bb + 1)) (bb_section bb) (bb_insns bb)
    true (bb_privileged bb) (bb_padding bb) (bb_trap bb) (bb_alive bb).

(** The [while(cs_disasm_iter(...))] loop. Its state is the cursor
    ([pc], [pc_addr]), the block, [ndisassembled] and [only_nop]; the
    result is the block and [ndisassembled] at the exit of the loop. Every
    iteration that continues consumes at least one byte; [None] is an
    exhausted [fuel]. [ndisassembled] is an [int] that counts the
    instructions of one block; it is not bounded here. *)
Fixpoint disasm_loop (cs : Capstone) (bin : Binary) (mode : cs_mode) (fuel : nat)
    (pc : list byte) (pc_addr : Z) (bb : BB) (ndisassembled : Z) (only_nop : bool)
  : option (BB * Z) :=
  match fuel with
  | O => None
  | S fuel' =>
      match cs_disasm_iter cs mode pc pc_addr with
      | None => Some (bb, ndisassembled)
      | Some (ins, pc', pc_addr') =>
          if bool_decide (cs_id ins = X86_INS_INVALID)
          then Some (bb_mark_invalid bb, ndisassembled)
          else if cs_size ins =? 0 then Some (bb, ndisassembled)
          else
            let nop := is_nop bin ins in
            let only_nop := if (ndisassembled =? 0) && nop then true else only_nop in
            if negb only_nop && nop then Some (bb, ndisassembled)
            else if only_nop && negb nop then Some (bb, ndisassembled)
            else
              let bb' := bb_append bin bb ins in
              if is_cs_cflow_ins ins then Some (bb', ndisassembled + 1)
              else disasm_loop cs bin mode fuel' pc' pc_addr' bb' (ndisassembled + 1) only_nop
      end
  end.

Definition bits_mode (bits : Z) : option cs_mode :=
  if bits =? 64 then Some CS_MODE_64
  else if bits =? 32 then Some CS_MODE_32
  else if bits =? 16 then Some CS_MODE_16
  else None.

(** The bytes from [offset] to the end of the section: [pc] with [n]. *)
Definition section_slice (sec : Section) (offset : Z) : list byte :=
  take (Z.to_nat (sec_size sec - offset)) (drop (Z.to_nat offset) (sec_bytes sec)).

(** [bb->end = bb->start; bb->section = dis->section]. *)
Definition bb_enter (sec : Section) (bb : BB) : BB :=
  mk_BB (bb_start bb) (bb_start bb) (Some sec) (bb_insns bb)
    (bb_invalid bb) (bb_privileged bb) (bb_padding bb) (bb_trap bb) (bb_alive bb).

(** [nucleus_disasm_bb_x86]: the returned integer with the block as the call
    leaves it. The hard errors return -1 before the block is touched. The
    loop gets one unit of fuel per remaining byte and one more. *)
Definition nucleus_disasm_bb_x86 (cs : Capstone) (bin : Binary) (dis : DisasmSection) (bb : BB)
  : option (Z * BB) :=
  match bits_mode (bin_bits bin) with
  | None => Some (-1, bb)
  | Some mode =>
      if negb (cs_open cs mode) then Some (-1, bb)
      else if negb (cs_malloc cs mode) then Some (-1, bb)
      else
        let sec := dis_section dis in
        let offset := wrap64 (bb_start bb - sec_vma sec) in
        if (bb_start bb <? sec_vma sec) || (sec_size sec <=? offset) then Some (-1, bb)
        else
          let pc := section_slice sec offset in
          match disasm_loop cs bin mode (S (length pc)) pc (bb_start bb)
                  (bb_enter sec bb) 0 false with
          | None => None
          | Some (bb1, ndisassembled) =>
              Some (ndisassembled,
                    if ndisassembled =? 0 then bb_mark_invalid bb1 else bb1)
          end
  end.

Definition nucleus_disasm_bb (cs : Capstone) (bin : Binary) (dis : DisasmSection) (bb : BB)
  : option (Z * BB) :=
  match bin_arch bin with
  | ARCH_X86 => nucleus_disasm_bb_x86 cs bin dis bb
  | _ => Some (-1, bb)
  end.

(** The library can be set up for this binary: the bit width is one of
    16, 32 and 64, [cs_open] succeeds and [cs_malloc] does not return NULL. *)
Definition cs_ready (cs : Capstone) (bin : Binary) : bool :=
  match bits_mode (bin_bits bin) with
  | Some mode => cs_open cs mode && cs_malloc cs mode
  | None => false
  end.

(** Values of [uint64_t], and the addresses of a section. *)
Definition uint64 (z : Z) : Prop := 0 ≤ z < 2 ^ 64.
Definition in_section (sec : Section) (a : Z) : Prop :=
  sec_vma sec ≤ a < sec_vma sec + sec_size sec.

(** ** The exploration engine *)

(** How a call can end: it returns, an [assert] aborts the program, it reads
    past the end of the mutants array (undefined in the source), or the
    model runs out of fuel. *)
Inductive outcome (A : Type) : Type :=
  | Returns (a : A)
  | Aborted
  | Undefined
  | OutOfFuel.
Arguments Returns {A} a.
Arguments Aborted {A}.
Arguments Undefined {A}.
Arguments OutOfFuel {A}.

(** Modelled from the spec: the policy layer of [strategy.h], which is not
    among the sources. [bb_mutate] gets the section and the parent (a
    pointer into [dis->BBs], here its position, or NULL) and yields the
    array of mutants, whose length is the count it returns. [bb_score]
    yields the score, a [double] carried as its 64-bit pattern, and the
    mutant as it leaves it. [bb_select] gets the array and its length and
    yields its integer result and the array as it leaves it. The policies
    read the [DisasmSection] and only write to the mutants. *)
Record Strategy := mk_Strategy {
  bb_mutate : DisasmSection → option nat → list BB;
  bb_score : DisasmSection → BB → Z * BB;
  bb_select : DisasmSection → list BB → Z → Z * list BB
}.

(** [s < 0] on the 64-bit pattern of a [double]: the sign bit is set and
    the magnitude is neither zero nor a NaN. *)
Definition double_ltz (bits : Z) : bool :=
  Z.testbit bits 63
  && (0 <? bits mod 2 ^ 63) && (bits mod 2 ^ 63 <=? 9218868437227405312).

(** The first loop over the mutants: decode and score each one;
    [Returns None] is [goto fail]. *)
Fixpoint disasm_mutants (cs : Capstone) (st : Strategy) (bin : Binary)
    (dis : DisasmSection) (mutants : list BB) : outcome (option (list BB)) :=
  match mutants with
  | [] => Returns (Some [])
  | m :: rest =>
      match nucleus_disasm_bb cs bin dis m with
      | None => OutOfFuel
      | Some (ret, m1) =>
          if ret <? 0 then Returns None
          else
            let '(s, m2) := bb_score st dis m1 in
            if double_ltz s then Returns None
            else
              match disasm_mutants cs st bin dis rest with
              | Returns (Some rest') => Returns (Some (m2 :: rest'))
              | o => o
              end
      end
  end.

Fixpoint add_addr_flags (ndebug : bool) (m : AddressMap.t) (addrs : list Z) (flag : Z)
  : option AddressMap.t :=
  match addrs with
  | [] => Some m
  | a :: rest =>
      m' ← AddressMap.add_addr_flag ndebug m a flag;
      add_addr_flags ndebug m' rest flag
  end.

(** The addresses [vma] of [for(vma = bb.start; vma < bb.end; vma++)]. *)
Definition bb_addresses (bb : BB) : list Z :=
  seqZ (bb_start bb) (bb_end bb - bb_start bb).

(** The body of [if(mutants[i].alive)]: the three kinds of flags, the copy
    appended to [dis->BBs] and the pointer to that copy pushed on the queue. *)
Definition accept_bb (ndebug : bool) (dis : DisasmSection) (Q : list (option nat)) (bb : BB)
  : option (DisasmSection * list (option nat)) :=
  m1 ← AddressMap.add_addr_flag ndebug (dis_addrmap dis) (bb_start bb)
         AddressMap.DISASM_REGION_BB_START;
  m2 ← add_addr_flags ndebug m1 (map ins_start (bb_insns bb))
         AddressMap.DISASM_REGION_INS_START;
  m3 ← add_addr_flags ndebug m2 (bb_addresses bb) AddressMap.DISASM_REGION_CODE;
  Some (mk_DisasmSection (dis_section dis) m3 (dis_BBs dis ++ [bb]),
        Q ++ [Some (length (dis_BBs dis))]).

(** The second loop, [for(i = 0; i < n; i++)], on the mutants from index
    [i] on, with [n - i] iterations to go. *)
Fixpoint accept_mutants (ndebug : bool) (dis : DisasmSection) (Q : list (option nat))
    (mutants : list BB) (n : Z) : outcome (DisasmSection * list (option nat)) :=
  if n <=? 0 then Returns (dis, Q)
  else
    match mutants with
    | [] => Undefined
    | m :: rest =>
        if bb_alive m then
          match accept_bb ndebug dis Q m with
          | None => Aborted
          | Some (dis', Q') => accept_mutants ndebug dis' Q' rest (n - 1)
          end
        else accept_mutants ndebug dis Q rest (n - 1)
    end.

(** [n = bb_select(...)] with [unsigned n]: the result is converted to
    32 bits without sign. *)
Definition select_count (r : Z) : Z := wrap32 r.

(** The [while(!Q.empty())] loop: the returned integer and the section as
    the call leaves it. One unit of fuel per iteration. *)
Fixpoint disasm_worklist (cs : Capstone) (st : Strategy) (ndebug : bool) (bin : Binary)
    (fuel : nat) (dis : DisasmSection) (Q : list (option nat))
  : outcome (Z * DisasmSection) :=
  match Q with
  | [] => Returns (0, dis)
  | parent :: Q1 =>
      match fuel with
      | O => OutOfFuel
      | S fuel' =>
          let mutants := bb_mutate st dis parent in
          match disasm_mutants cs st bin dis mutants with
          | Returns None => Returns (-1, dis)
          | Returns (Some mutants1) =>
              let '(r, mutants2) := bb_select st dis mutants1 (Z.of_nat (length mutants)) in
              let n := select_count r in
              if n <? 0 then Returns (-1, dis)
              else
                match accept_mutants ndebug dis Q1 mutants2 n with
                | Returns (dis', Q') => disasm_worklist cs st ndebug bin fuel' dis' Q'
                | Aborted => Aborted
                | Undefined => Undefined
                | OutOfFuel => OutOfFuel
                end
          | Aborted => Aborted
          | Undefined => Undefined
          | OutOfFuel => OutOfFuel
          end
      end
  end.

Definition is_code (sec : Section) : bool :=
  match sec_type sec with SEC_TYPE_CODE => true | _ => false end.
Definition is_data (sec : Section) : bool :=
  match sec_type sec with SEC_TYPE_DATA => true | _ => false end.

Definition nucleus_disasm_section (cs : Capstone) (st : Strategy) (opts : Options)
    (ndebug : bool) (bin : Binary) (fuel : nat) (dis : DisasmSection)
  : outcome (Z * DisasmSection) :=
  if negb (is_code (dis_section dis)) && only_code_sections opts then Returns (0, dis)
  else disasm_worklist cs st ndebug bin fuel dis [None].

(** The addresses of [for(vma = sec->vma; vma < sec->vma + sec->size; vma++)];
    the bound is computed in 64 bits. *)
Definition section_addresses (sec : Section) : list Z :=
  seqZ (sec_vma sec) (wrap64 (sec_vma sec + sec_size sec) - sec_vma sec).

Definition init_addrmap (sec : Section) : AddressMap.t :=
  foldl AddressMap.insert AddressMap.empty (section_addresses sec).

Definition init_disasm (opts : Options) (bin : Binary) : list DisasmSection :=
  map (λ sec, mk_DisasmSection sec (init_addrmap sec) [])
      (filter (λ sec, is_code sec || (negb (only_code_sections opts) && is_data sec) = true)
              (bin_sections bin)).

(** The address maps that a run of the engine goes through: the map of
    [init_disasm], then one [add_addr_flag] after the other, each with one
    of the three flags of the accept path. *)
Inductive engine_run (ndebug : bool) (sec : Section) : AddressMap.t → Prop :=
  | run_init : engine_run ndebug sec (init_addrmap sec)
  | run_flag m addr flag m' :
      engine_run ndebug sec m →
      flag ∈ [AddressMap.DISASM_REGION_BB_START;
              AddressMap.DISASM_REGION_INS_START;
              AddressMap.DISASM_REGION_CODE] →
      AddressMap.add_addr_flag ndebug m addr flag = Some m' →
      engine_run ndebug sec m'.

(** ** The decoding loop as a relation

    [loop_exit cs bin mode pc pc_addr nd on decoded stop pcf af]: started
    with the cursor at ([pc], [pc_addr]), [ndisassembled = nd] and
    [only_nop = on], the loop appends the instructions [decoded] and leaves
    for the reason [stop], its last decoding attempt made at the cursor
    ([pcf], [af]). *)

Inductive stop : Set :=
  | StopDecode      (* cs_disasm_iter returned false *)
  | StopInvalid     (* the instruction has the id X86_INS_INVALID *)
  | StopZeroSize    (* the instruction has size 0 *)
  | StopBoundary    (* no-op after code, or code after no-ops *)
  | StopCflow.      (* a control-flow instruction was appended *)

(** [only_nop] after the line that groups no-ops. *)
Definition next_only_nop (bin : Binary) (nd : Z) (on : bool) (ins : cs_insn) : bool :=
  if (nd =? 0) && is_nop bin ins then true else on.

Inductive loop_exit (cs : Capstone) (bin : Binary) (mode : cs_mode)
  : list byte → Z → Z → bool → list cs_insn → stop → list byte → Z → Prop :=
  | exit_decode pc a nd on :
      cs_decode cs mode pc a = None →
      loop_exit cs bin mode pc a nd on [] StopDecode pc a
  | exit_invalid pc a nd on ins :
      cs_decode cs mode pc a = Some ins →
      cs_id ins = X86_INS_INVALID →
      loop_exit cs bin mode pc a nd on [] StopInvalid pc a
  | exit_zero_size pc a nd on ins :
      cs_decode cs mode pc a = Some ins →
      cs_id ins ≠ X86_INS_INVALID →
      cs_size ins = 0 →
      loop_exit cs bin mode pc a nd on [] StopZeroSize pc a
  | exit_boundary pc a nd on ins :
      cs_decode cs mode pc a = Some ins →
      cs_id ins ≠ X86_INS_INVALID →
      cs_size ins ≠ 0 →
      is_nop bin ins ≠ next_only_nop bin nd on ins →
      loop_exit cs bin mode pc a nd on [] StopBoundary pc a
  | exit_cflow pc a nd on ins :
      cs_decode cs mode pc a = Some ins →
      cs_id ins ≠ X86_INS_INVALID →
      cs_size ins ≠ 0 →
      is_nop bin ins = next_only_nop bin nd on ins →
      is_cs_cflow_ins ins = true →
      loop_exit cs bin mode pc a nd on [ins] StopCflow
        (drop (Z.to_nat (cs_size ins)) pc) (wrap64 (a + cs_size ins))
  | exit_step pc a nd on ins decoded st pcf af :
      cs_decode cs mode pc a = Some ins →
      cs_id ins ≠ X86_INS_INVALID →
      cs_size ins ≠ 0 →
      is_nop bin ins = next_only_nop bin nd on ins →
      is_cs_cflow_ins ins = false →
      loop_exit cs bin mode (drop (Z.to_nat (cs_size ins)) pc) (wrap64 (a + cs_size ins))
        (nd + 1) (next_only_nop bin nd on ins) decoded st pcf af →
      loop_exit cs bin mode pc a nd on (ins :: decoded) st pcf af.

(** The block when the loop is left. *)
Definition bb_finish (st : stop) (bb : BB) : BB :=
  match st with
  | StopInvalid => bb_mark_invalid bb
  | _ => bb
  end.

(** The bytes that a run of instructions covers. *)
Definition block_bytes (decoded : list cs_insn) : Z :=
  foldr (λ ins acc, cs_size ins + acc) 0 decoded.

(** ** A small decoder and small policies

    Concrete instances on which the definitions can be run. The decoder
    knows a handful of one-byte instructions and one [lea]; on [0xd6] it
    answers with an instruction whose id is [X86_INS_INVALID], on every
    other byte it fails. *)

Definition reg_op (r : x86_reg) : cs_x86_op := mk_cs_x86_op (CS_OP_REG r) 4.
Definition mem_op (base index : x86_reg) (scale disp : Z) : cs_x86_op :=
  mk_cs_x86_op (CS_OP_MEM (mk_x86_op_mem X86_REG_INVALID base index scale disp)) 4.

(** [lea eax,[eax+0]]. *)
Definition lea_eax_eax_0 (addr : Z) : cs_insn :=
  mk_cs_insn X86_INS_LEA addr 3 "lea" "eax, [eax]" [] 4
    [reg_op X86_REG_EAX; mem_op X86_REG_EAX X86_REG_INVALID 1 0].

Definition toy_insn (id : x86_insn) (addr : Z) (mnem : string) (groups : list cs_group_type)
    (ops : list cs_x86_op) : cs_insn :=
  mk_cs_insn id addr 1 mnem "" groups 4 ops.

Definition toy_decode (mode : cs_mode) (pc : list byte) (addr : Z) : option cs_insn :=
  match pc with
  | x90 :: _ => Some (toy_insn X86_INS_NOP addr "nop" [] [])
  | xc3 :: _ => Some (toy_insn X86_INS_RET addr "ret" [CS_GRP_RET] [])
  | xcc :: _ => Some (toy_insn X86_INS_INT3 addr "int3" [CS_GRP_INT] [])
  | x55 :: _ => Some (toy_insn (X86_INS_other 588) addr "push" [] [reg_op X86_REG_EBP])
  | x8d :: x40 :: x00 :: _ => Some (lea_eax_eax_0 addr)
  | xd6 :: _ => Some (toy_insn X86_INS_INVALID addr "" [] [])
  | _ => None
  end.

Definition toy_cs : Capstone := mk_Capstone (λ _, true) (λ _, true) toy_decode.

Definition toy_section (bytes : list byte) : Section :=
  mk_Section ".text" SEC_TYPE_CODE 4096 (Z.of_nat (length bytes)) bytes.

Definition toy_bin (type : BinaryType) (bytes : list byte) : Binary :=
  mk_Binary type ARCH_X86 32 "x86" [toy_section bytes].

Definition toy_dis (bytes : list byte) : DisasmSection :=
  mk_DisasmSection (toy_section bytes) (init_addrmap (toy_section bytes)) [].

(** A mutant as [bb_mutate] hands it over. *)
Definition new_bb (start : Z) : BB :=
  mk_BB start 0 None [] false false false false false.

(** Policies that propose the start of the section once, give every block
    the score 0 and keep every block; [toy_select r] answers [r]. *)
Definition toy_mutate (dis : DisasmSection) (parent : option nat) : list BB :=
  match parent with
  | None => [new_bb (sec_vma (dis_section dis))]
  | Some _ => []
  end.

Definition set_alive (bb : BB) : BB :=
  mk_BB (bb_start bb) (bb_end bb) (bb_section bb) (bb_insns bb) (bb_invalid bb)
    (bb_privileged bb) (bb_padding bb) (bb_trap bb) true.

Definition toy_strategy (r : option Z) : Strategy :=
  mk_Strategy toy_mutate (λ _ bb, (0, bb))
    (λ _ mutants n, (default n r, map set_alive mutants)).

(** ** Why a block ends

    [block_stops no_insn cs bin dis bb bb']: the block [bb'] that the
    decoder made of [bb] ends on a control-flow instruction, or is invalid,
    or the decoder had no instruction to give at its end ([no_insn], at the
    bytes [rest] and the address [addr] that follow the appended
    instructions), or the instruction there is on the other side of the
    no-op boundary; and a control-flow instruction is the last one. *)

Definition insns_bytes (l : list Instruction) : Z :=
  foldr (λ i acc, ins_size i + acc) 0 l.

Definition block_stops (no_insn : cs_mode → list byte → Z → Prop)
    (cs : Capstone) (bin : Binary) (dis : DisasmSection) (bb bb' : BB) : Prop :=
  let sec := dis_section dis in
  let appended := drop (length (bb_insns bb)) (bb_insns bb') in
  let n := insns_bytes appended in
  let rest := drop (Z.to_nat n) (section_slice sec (wrap64 (bb_start bb - sec_vma sec))) in
  let addr := wrap64 (bb_start bb + n) in
  ∃ mode, bits_mode (bin_bits bin) = Some mode ∧
    ((∃ l, last appended = Some l ∧ has_ins_flag l INS_FLAG_CFLOW = true)
     ∨ bb_invalid bb' = true
     ∨ no_insn mode rest addr
     ∨ (∃ ins first, cs_decode cs mode rest addr = Some ins ∧
                     head appended = Some first ∧
                     is_nop bin ins ≠ has_ins_flag first INS_FLAG_NOP))
    ∧ (∀ i x, appended !! i = Some x → has_ins_flag x INS_FLAG_CFLOW = true →
              S i = length appended).

(** The section's bytes ran out: nothing is left after the block. *)
Definition bytes_ran_out : cs_mode → list byte → Z → Prop :=
  λ _ rest _, rest = [].

(** The decoder gave no instruction, or one of size 0. *)
Definition decoder_stopped (cs : Capstone) : cs_mode → list byte → Z → Prop :=
  λ mode rest addr,
    cs_decode cs mode rest addr = None ∨
    ∃ ins, cs_decode cs mode rest addr = Some ins ∧ cs_size ins = 0.

(** The property of the specification on the end of a block, with its
    words on the bytes of the section running out read literally. *)
Definition block_stop_claim : Prop :=
  ∀ cs bin dis bb ret bb',
    cs_decode_ok cs →
    0 ≤ bb_start bb < 2 ^ 64 →
    nucleus_disasm_bb_x86 cs bin dis bb = Some (ret, bb') →
    0 < ret →
    block_stops bytes_ran_out cs bin dis bb bb'.

(** The decoder run on the small instances. *)
Definition toy_block (type : BinaryType) (bytes : list byte) (start : Z) : option (Z * BB) :=
  nucleus_disasm_bb_x86 toy_cs (toy_bin type bytes) (toy_dis bytes) (new_bb start).

(** The block decoded from the bytes [55 06]: one [push], then a byte the
    decoder rejects. *)
Definition push_block : BB :=
  mk_BB 4096 4097 (Some (toy_section [x55; x06]))
    [mk_Instruction 4096 1 4 "push" "" false false 0
       [mk_Operand OP_TYPE_REG 4 (X86_VALUE_REG X86_REG_EBP)] 0]
    false false false false false.

(** A policy that proposes address 0, outside the small section. *)
Definition stray_strategy : Strategy :=
  mk_Strategy (λ _ _, [new_bb 0]) (λ _ bb, (0, bb)) (λ _ mutants n, (n, mutants)).

(** ** The partition of the addresses

    The state of an [AddressMap] between two calls: vector and index agree,
    no address is in [addrmap] and in the index at once, and no entry of
    [addrmap] is the empty mask. *)
Definition addrmap_inv (m : AddressMap.t) : Prop :=
  AddressMap.unmapped_ok m ∧
  (∀ a, is_Some (AddressMap.addrmap m !! a) → AddressMap.unmapped_lookup m !! a = None) ∧
  (∀ a ty, AddressMap.addrmap m !! a = Some ty → ty ≠ AddressMap.DISASM_REGION_UNMAPPED).

(** Mapped with flags. *)
Definition is_flagged (m : AddressMap.t) (a : Z) : Prop :=
  ∃ ty, AddressMap.addrmap m !! a = Some ty ∧ ty ≠ AddressMap.DISASM_REGION_UNMAPPED.


(** A block is recorded. *)
Definition recorded (m : AddressMap.t) (bb : BB) : Prop :=
  AddressMap.has_flag m (bb_start bb) AddressMap.DISASM_REGION_BB_START ∧
  (∀ ins, ins ∈ bb_insns bb →
          AddressMap.has_flag m (ins_start ins) AddressMap.DISASM_REGION_INS_START) ∧
  (∀ a, bb_start bb ≤ a < bb_end bb →
        AddressMap.has_flag m a AddressMap.DISASM_REGION_CODE).



(** The states that the member functions of the class build from the empty
    map. *)
Inductive built (ndebug : bool) : AddressMap.t → Prop :=
  | built_empty : built ndebug AddressMap.empty
  | built_insert m a :
      built ndebug m → built ndebug (AddressMap.insert m a)
  | built_get m a ty m' :
      built ndebug m →
      AddressMap.get_addr_type ndebug m a = Some (ty, m') → built ndebug m'
  | built_set m a ty m' :
      built ndebug m →
      AddressMap.set_addr_type ndebug m a ty = Some m' → built ndebug m'
  | built_add m a flag m' :
      built ndebug m →
      AddressMap.add_addr_flag ndebug m a flag = Some m' → built ndebug m'
  | built_erase m a :
      built ndebug m → built ndebug (AddressMap.erase m a)
  | built_erase_unmapped m a :
      built ndebug m → built ndebug (AddressMap.erase_unmapped m a).

(** The scenarios of the specification on the small decoder: the bytes
    [90 90 c3] at 0x1000 give a padding block of two no-ops from 0x1000 and
    a block of one return, flagged [CFLOW] and [RET], from 0x1002; a single
    byte that does not decode gives an invalid block of no instruction that
    ends one past its start. *)
Definition block_summary (r : option (Z * BB)) : option (Z * Z * Z * bool * bool * list Z) :=
  match r with
  | Some (ret, b) =>
      Some (ret, bb_start b, bb_end b, bb_invalid b, bb_padding b, map ins_flags (bb_insns b))
  | None => None
  end.

(** ** More on the decoder *)


(** A register or memory operand. *)
Definition is_indirect_operand (o : cs_x86_op) : bool :=
  match cs_op_type o with
  | X86_OP_REG | X86_OP_MEM => true
  | _ => false
  end.

(** The last immediate operand. *)
Definition last_imm (ops : list cs_x86_op) : option Z :=
  last (omap (λ o, match cs_op_val o with CS_OP_IMM imm => Some imm | _ => None end) ops).

(** The instructions that a call appended to a block. *)
Definition appended_insns (bb bb' : BB) : list Instruction :=
  drop (length (bb_insns bb)) (bb_insns bb').

(** ** The driver *)

(** The loop of [nucleus_disasm] over the sections: the first section that
    returns a negative value ends the run with -1 and the sections after it
    are not visited. Every section gets the same fuel. *)
Fixpoint disasm_sections (cs : Capstone) (st : Strategy) (opts : Options) (ndebug : bool)
    (bin : Binary) (fuel : nat) (ds : list DisasmSection)
  : outcome (Z * list DisasmSection) :=
  match ds with
  | [] => Returns (0, [])
  | dis :: rest =>
      match nucleus_disasm_section cs st opts ndebug bin fuel dis with
      | Returns (ret, dis') =>
          if ret <? 0 then Returns (-1, dis' :: rest)
          else
            match disasm_sections cs st opts ndebug bin fuel rest with
            | Returns (r, rest') => Returns (r, dis' :: rest')
            | Aborted => Aborted
            | Undefined => Undefined
            | OutOfFuel => OutOfFuel
            end
      | Aborted => Aborted
      | Undefined => Undefined
      | OutOfFuel => OutOfFuel
      end
  end.

(** [nucleus_disasm]: [init_disasm] and [fini_disasm] always return 0, so
    the result is that of the loop over the sections of [init_disasm]. *)
Definition nucleus_disasm (cs : Capstone) (st : Strategy) (opts : Options) (ndebug : bool)
    (bin : Binary) (fuel : nat) : outcome (Z * list DisasmSection) :=
  disasm_sections cs st opts ndebug bin fuel (init_disasm opts bin).

(** A policy that gives every block the score -1.0. *)
Definition negative_strategy : Strategy :=
  mk_Strategy toy_mutate (λ _ bb, (13830554455654793216, bb))
    (λ _ mutants n, (n, map set_alive mutants)).

(** The blocks that a call added to the list of a section. *)
Definition added_BBs (dis dis' : DisasmSection) : list BB :=
  drop (length (dis_BBs dis)) (dis_BBs dis').

(** ** The properties of the specification without their bounds

    The specification states forward progress and the partition of the
    addresses for every section, and the recording for every mutant that is
    alive. The definitions below are these readings; the section below is
    the one on which the first two fail. *)

(** A section of one byte, a [nop], at the last address of the 64-bit
    address space: [vma + size] is [2^64]. *)
Definition top_section : Section :=
  mk_Section ".text" SEC_TYPE_CODE (2 ^ 64 - 1) 1 [x90].

Definition top_bin : Binary :=
  mk_Binary (BIN_TYPE_other 0) ARCH_X86 64 "x86" [top_section].

Definition top_dis : DisasmSection :=
  mk_DisasmSection top_section (init_addrmap top_section) [].

(** Forward progress for every section and every start address in its
    range. *)
Definition forward_progress_claim : Prop :=
  ∀ cs bin dis bb ret bb',
    cs_decode_ok cs →
    uint64 (sec_vma (dis_section dis)) →
    uint64 (sec_size (dis_section dis)) →
    in_section (dis_section dis) (bb_start bb) →
    nucleus_disasm_bb_x86 cs bin dis bb = Some (ret, bb') →
    0 ≤ ret →
    bb_start bb' < bb_end bb'.

(** The partition of the addresses for every section. *)
Definition address_map_partition_claim : Prop :=
  ∀ ndebug sec m a,
    uint64 (sec_vma sec) →
    uint64 (sec_size sec) →
    engine_run ndebug sec m →
    in_section sec a →
    AddressMap.contains m a = true ∧
    ((AddressMap.is_unmapped m a ∧ ¬ AddressMap.is_mapped m a) ∨
     (is_flagged m a ∧ ¬ is_Some (AddressMap.unmapped_lookup m !! a) ∧
      (a ∉ AddressMap.unmapped m))).

(** The small section after one block start was flagged. *)
Definition flagged_map : option AddressMap.t :=
  AddressMap.add_addr_flag false (init_addrmap (toy_section [x90; xc3])) 4096
    AddressMap.DISASM_REGION_BB_START.




(** The block that the decoder makes of the one-byte section [d6], taken as
    a survivor: it has no instruction and ends two past its start, one past
    the section. *)
Definition overlong_block : BB :=
  mk_BB 4096 4098 (Some (toy_section [xd6])) [] true false false false true.

(** ** Consecutive answers of the decoder *)

(** [decoded] lists what [cs_disasm_iter] gives from the cursor [pc], [a]
    on: each instruction is the answer at the cursor that the one before it
    left. *)
Fixpoint decoded_from (cs : Capstone) (mode : cs_mode) (pc : list byte) (a : Z)
    (decoded : list cs_insn) : Prop :=
  match decoded with
  | [] => True
  | ins :: rest =>
      cs_decode cs mode pc a = Some ins ∧
      decoded_from cs mode (drop (Z.to_nat (cs_size ins)) pc) (wrap64 (a + cs_size ins)) rest
  end.

(** An instruction that the loop appends and goes on from. *)
Definition continues (ins : cs_insn) : Prop :=
  cs_id ins ≠ X86_INS_INVALID ∧ cs_size ins ≠ 0 ∧ is_cs_cflow_ins ins = false.


(** * Properties *)

(** ** Properties of AddressMap *)

Lemma unmapped_ok_empty : AddressMap.unmapped_ok AddressMap.empty.
Proof.
  intros a i. cbn. rewrite lookup_empty, lookup_nil. split; discriminate.
Qed.

Lemma unmapped_ok_elem (m : AddressMap.t) (a : Z) :
  AddressMap.unmapped_ok m →
  a ∈ AddressMap.unmapped m ↔ is_Some (AddressMap.unmapped_lookup m !! a).
Proof.
  intros Hok. split.
  - intros [i Hi]%list_elem_of_lookup. exists i. by apply Hok.
  - intros [i Hi]. apply list_elem_of_lookup. exists i. by apply Hok.
Qed.

Lemma count_true {V} (m : gmap Z V) k : AddressMap.count m k = true ↔ is_Some (m !! k).
Proof.
  unfold AddressMap.count. destruct (m !! k) eqn:E.
  - split; [by eexists|done].
  - split; [done|]. by intros [? ?].
Qed.

Lemma contains_true m a :
  AddressMap.contains m a = true ↔
  is_Some (AddressMap.addrmap m !! a) ∨ is_Some (AddressMap.unmapped_lookup m !! a).
Proof. unfold AddressMap.contains. by rewrite orb_true_iff, !count_true. Qed.

(** [insert] keeps vector and index in agreement. *)
Lemma insert_unmapped_ok m a :
  AddressMap.unmapped_ok m → AddressMap.unmapped_ok (AddressMap.insert m a).
Proof.
  intros Hok. unfold AddressMap.insert.
  destruct (AddressMap.contains m a) eqn:Hc; [done|].
  assert (AddressMap.unmapped_lookup m !! a = None) as Hlk.
  { apply not_true_iff_false in Hc. rewrite contains_true in Hc.
    apply eq_None_not_Some. tauto. }
  intros b i. cbn. rewrite length_app. cbn.
  replace (length (AddressMap.unmapped m) + 1 - 1)%nat
    with (length (AddressMap.unmapped m)) by lia.
  destruct (decide (b = a)) as [->|Hne].
  - rewrite lookup_insert_eq. split.
    + intros ?; simplify_eq. by rewrite list_lookup_middle.
    + intros Hi. apply lookup_snoc_Some in Hi as [[Hlt Hi]|[-> _]]; [|done].
      apply Hok in Hi. congruence.
  - rewrite lookup_insert_ne by done. rewrite (Hok b i). split.
    + intros Hi. by apply lookup_app_l_Some.
    + intros Hi. apply lookup_snoc_Some in Hi as [[Hlt Hi]|[_ ?]]; [done|congruence].
Qed.

(** [erase_unmapped] keeps vector and index in agreement. *)
Lemma erase_unmapped_ok (m : AddressMap.t) (addr : Z) :
  AddressMap.unmapped_ok m →
  AddressMap.unmapped_ok (AddressMap.erase_unmapped m addr).
Proof.
  intros Hok. unfold AddressMap.erase_unmapped.
  destruct (AddressMap.unmapped_lookup m !! addr) as [i0|] eqn:Hl; [|done].
  pose proof (proj1 (Hok _ _) Hl) as Hu.
  pose proof (lookup_lt_Some _ _ _ Hu) as Hlt.
  unfold AddressMap.unmapped_count. case_bool_decide as Hn.
  - rewrite last_lookup.
    destruct (AddressMap.unmapped m !! pred (length (AddressMap.unmapped m)))
      as [back|] eqn:Hb; [|apply lookup_ge_None in Hb; lia].
    intros a i. cbn. rewrite length_insert.
    destruct (decide (a = addr)) as [->|Ha].
    + rewrite lookup_delete_eq. split; [done|].
      intros [Hx Hi]%lookup_take_Some.
      destruct (decide (i0 = i)) as [->|Hne].
      * rewrite list_lookup_insert_eq in Hx by lia. simplify_eq.
        apply Hok in Hb. rewrite Hl in Hb. simplify_eq. lia.
      * rewrite list_lookup_insert_ne in Hx by done.
        apply Hok in Hx. rewrite Hl in Hx. by simplify_eq.
    + rewrite lookup_delete_ne by done.
      rewrite lookup_take_Some.
      destruct (decide (a = back)) as [->|Hab].
      * rewrite lookup_insert_eq. split.
        -- intros ?; simplify_eq. split.
           ++ by rewrite list_lookup_insert_eq by lia.
           ++ destruct (decide (i = pred (length (AddressMap.unmapped m)))) as [->|]; [|lia].
              rewrite Hu in Hb. by simplify_eq.
        -- intros [Hx Hi]. destruct (decide (i0 = i)) as [->|Hne]; [done|].
           rewrite list_lookup_insert_ne in Hx by done.
           apply Hok in Hx. apply Hok in Hb. rewrite Hb in Hx. simplify_eq. lia.
      * rewrite lookup_insert_ne by done. split.
        -- intros Hx. pose proof (proj1 (Hok _ _) Hx) as Hx'.
           assert (i ≠ i0) by (intros ->; rewrite Hu in Hx'; by simplify_eq).
           rewrite list_lookup_insert_ne by done. split; [done|].
           pose proof (lookup_lt_Some _ _ _ Hx').
           destruct (decide (i = pred (length (AddressMap.unmapped m)))) as [->|]; [|lia].
           rewrite Hb in Hx'. by simplify_eq.
        -- intros [Hx Hi]. destruct (decide (i0 = i)) as [->|Hne].
           ++ rewrite list_lookup_insert_eq in Hx by lia. by simplify_eq.
           ++ rewrite list_lookup_insert_ne in Hx by done. by apply Hok.
  - intros a i. cbn.
    assert (length (AddressMap.unmapped m) = 1%nat) as Hlen by lia.
    rewrite Hlen. replace (1 - 1)%nat with 0%nat by done. rewrite take_0, lookup_nil. split; [|done].
    intros [Ha Hx]%lookup_delete_Some. apply Hok in Hx.
    pose proof (lookup_lt_Some _ _ _ Hx).
    assert (i = i0) as -> by lia. rewrite Hu in Hx. by simplify_eq.
Qed.

Lemma erase_unmapped_lookup_eq (m : AddressMap.t) (addr : Z) :
  AddressMap.unmapped_lookup (AddressMap.erase_unmapped m addr) !! addr = None.
Proof.
  unfold AddressMap.erase_unmapped.
  destruct (AddressMap.unmapped_lookup m !! addr) as [i0|] eqn:Hl; [|done].
  destruct (if bool_decide _ then _ else _) as [u lk]. cbn. apply lookup_delete_eq.
Qed.

Lemma erase_unmapped_lookup_ne (m : AddressMap.t) (addr a : Z) :
  a ≠ addr →
  is_Some (AddressMap.unmapped_lookup m !! a) →
  is_Some (AddressMap.unmapped_lookup (AddressMap.erase_unmapped m addr) !! a).
Proof.
  intros Hne Ha. unfold AddressMap.erase_unmapped.
  destruct (AddressMap.unmapped_lookup m !! addr) as [i0|] eqn:Hl; [|done].
  case_bool_decide; [destruct (last _) as [back|]|]; cbn;
    rewrite lookup_delete_ne by done; [|done..].
  rewrite lookup_insert_is_Some. destruct (decide (back = a)); auto.
Qed.

Lemma erase_unmapped_lookup_sub (m : AddressMap.t) (addr a : Z) :
  is_Some (AddressMap.unmapped_lookup (AddressMap.erase_unmapped m addr) !! a) →
  AddressMap.unmapped_ok m →
  is_Some (AddressMap.unmapped_lookup m !! a).
Proof.
  intros Ha Hok. revert Ha. unfold AddressMap.erase_unmapped.
  destruct (AddressMap.unmapped_lookup m !! addr) as [i0|] eqn:Hl; [|done].
  case_bool_decide; [rewrite last_lookup;
    destruct (_ !! pred _) as [back|] eqn:Hb|]; cbn;
    intros [? Hx]%lookup_delete_is_Some; [|done..].
  apply lookup_insert_is_Some in Hx as [->|[_ Hx]]; [|done].
  apply Hok in Hb. by eexists.
Qed.

Lemma erase_unmapped_addrmap (m : AddressMap.t) (addr : Z) :
  AddressMap.addrmap (AddressMap.erase_unmapped m addr) = AddressMap.addrmap m.
Proof.
  unfold AddressMap.erase_unmapped.
  destruct (AddressMap.unmapped_lookup m !! addr); [|done].
  by destruct (if bool_decide _ then _ else _).
Qed.

(** C9. Erase consistency: once [erase_unmapped addr] has run on a map whose
    vector and index agree, [addr] is in neither of them, every other address
    that was tracked as unmapped still has an index in [unmapped_lookup] and
    [get_unmapped] returns the address at that index; vector and index still
    agree and [addrmap] is untouched. *)
Theorem erase_unmapped_consistent (m : AddressMap.t) (addr : Z) :
  AddressMap.unmapped_ok m →
  let m' := AddressMap.erase_unmapped m addr in
  AddressMap.unmapped_lookup m' !! addr = None ∧
  (addr ∉ AddressMap.unmapped m') ∧
  (∀ a, a ≠ addr →
        a ∈ AddressMap.unmapped m ∨ is_Some (AddressMap.unmapped_lookup m !! a) →
        ∃ i, AddressMap.unmapped_lookup m' !! a = Some i ∧
             AddressMap.get_unmapped m' i = Some a) ∧
  AddressMap.unmapped_ok m' ∧
  AddressMap.addrmap m' = AddressMap.addrmap m.
Proof.
  intros Hok m'. pose proof (erase_unmapped_ok m addr Hok) as Hok'.
  pose proof (erase_unmapped_lookup_eq m addr) as Heq.
  split; [done|]. split; [|split; [|split; [done|apply erase_unmapped_addrmap]]].
  - rewrite (unmapped_ok_elem m' addr Hok'). unfold m'. rewrite Heq.
    by intros [? ?].
  - intros a Hne Hin.
    assert (is_Some (AddressMap.unmapped_lookup m !! a)) as Ha.
    { destruct Hin as [Hin|]; [|done]. by apply unmapped_ok_elem. }
    destruct (erase_unmapped_lookup_ne m addr a Hne Ha) as [i Hi].
    exists i. split; [done|]. by apply Hok'.
Qed.

(** ** The decoding loop *)

Lemma disasm_loop_exit cs bin mode fuel :
  ∀ pc a bb nd on bb' nd',
    disasm_loop cs bin mode fuel pc a bb nd on = Some (bb', nd') →
    ∃ decoded st pcf af,
      loop_exit cs bin mode pc a nd on decoded st pcf af ∧
      bb' = bb_finish st (foldl (bb_append bin) bb decoded) ∧
      nd' = nd + Z.of_nat (length decoded).
Proof.
  induction fuel as [|fuel IH]; intros pc a bb nd on bb' nd' H; [done|].
  cbn [disasm_loop] in H. unfold cs_disasm_iter in H.
  destruct (cs_decode cs mode pc a) as [ins|] eqn:Hd.
  2:{ simplify_eq. exists [], StopDecode, pc, a. split; [by constructor|].
      split; [done|]. cbn. lia. }
  case_bool_decide as Hid.
  { simplify_eq. exists [], StopInvalid, pc, a.
    split; [by econstructor|]. split; [done|]. cbn. lia. }
  rename H into H'.
  destruct (Z.eqb_spec (cs_size ins) 0) as [Hs|Hs].
  { simplify_eq. exists [], StopZeroSize, pc, a.
    split; [by econstructor|]. split; [done|]. cbn. lia. }
  cbv zeta in H'. fold (next_only_nop bin nd on ins) in H'.
  destruct (decide (is_nop bin ins = next_only_nop bin nd on ins)) as [Hn|Hn].
  2:{ exists [], StopBoundary, pc, a.
      assert (bb' = bb ∧ nd' = nd) as [-> ->].
      { destruct (is_nop bin ins), (next_only_nop bin nd on ins); cbn in H'; by simplify_eq. }
      split; [by econstructor|]. split; [done|]. cbn. lia. }
  assert (negb (next_only_nop bin nd on ins) && is_nop bin ins = false) as E1
    by (rewrite <- Hn; by destruct (is_nop bin ins)).
  assert (next_only_nop bin nd on ins && negb (is_nop bin ins) = false) as E2
    by (rewrite <- Hn; by destruct (is_nop bin ins)).
  rewrite E1, E2 in H'.
  destruct (is_cs_cflow_ins ins) eqn:Hc.
  - simplify_eq. exists [ins], StopCflow. do 2 eexists.
    split; [by econstructor|]. split; [done|]. cbn. lia.
  - apply IH in H' as (decoded & st & pcf & af & Hrun & -> & ->).
    exists (ins :: decoded), st, pcf, af.
    split; [by econstructor|]. split; [done|]. cbn [length]. lia.
Qed.

Lemma wrap64_add_l x y : wrap64 (wrap64 x + y) = wrap64 (x + y).
Proof. unfold wrap64. by rewrite Zplus_mod_idemp_l. Qed.

Lemma wrap64_small z : 0 ≤ z < 2 ^ 64 → wrap64 z = z.
Proof. intros. unfold wrap64. by rewrite Z.mod_small. Qed.

Lemma wrap64_range z : 0 ≤ wrap64 z < 2 ^ 64.
Proof. unfold wrap64. apply Z.mod_pos_bound. lia. Qed.

(** With a decoder that respects its bound the loop ends before the fuel
    does: every iteration that continues shortens the remaining bytes. *)
Lemma disasm_loop_total cs bin mode fuel :
  cs_decode_ok cs →
  ∀ pc a bb nd on,
    (length pc < fuel)%nat →
    is_Some (disasm_loop cs bin mode fuel pc a bb nd on).
Proof.
  intros Hok. induction fuel as [|fuel IH]; intros pc a bb nd on Hlen; [lia|].
  cbn [disasm_loop]. unfold cs_disasm_iter.
  destruct (cs_decode cs mode pc a) as [ins|] eqn:Hd; [|by eexists].
  apply Hok in Hd.
  destruct (bool_decide _); [by eexists|].
  destruct (Z.eqb_spec (cs_size ins) 0) as [|Hs]; [by eexists|]. cbv zeta.
  destruct (negb _ && _); [by eexists|].
  destruct (_ && negb _); [by eexists|].
  destruct (is_cs_cflow_ins ins); [by eexists|].
  apply IH. rewrite length_drop. lia.
Qed.

Lemma loop_exit_bytes cs bin mode pc a nd on decoded st pcf af :
  cs_decode_ok cs →
  loop_exit cs bin mode pc a nd on decoded st pcf af →
  0 ≤ a < 2 ^ 64 →
  Forall (λ ins, 0 < cs_size ins) decoded ∧
  0 ≤ block_bytes decoded ≤ Z.of_nat (length pc) ∧
  pcf = drop (Z.to_nat (block_bytes decoded)) pc ∧
  af = wrap64 (a + block_bytes decoded).
Proof.
  intros Hok Hrun. induction Hrun as
    [pc a nd on Hd|pc a nd on ins Hd Hid|pc a nd on ins Hd Hid Hs
    |pc a nd on ins Hd Hid Hs Hn|pc a nd on ins Hd Hid Hs Hn Hc
    |pc a nd on ins decoded st pcf af Hd Hid Hs Hn Hc Hrun IH]; intros Ha;
    try (cbn; rewrite Z.add_0_r, wrap64_small by done;
         split; [constructor|]; split; [lia|done]).
  - apply Hok in Hd. cbn. rewrite Z.add_0_r.
    split; [constructor; [lia|constructor]|]. split; [lia|done].
  - apply Hok in Hd.
    destruct (IH (wrap64_range _)) as (Hpos & Hlen & -> & ->).
    rewrite length_drop in Hlen. cbn [block_bytes foldr].
    fold (block_bytes decoded).
    split; [constructor; [lia|done]|]. split; [lia|]. split.
    + rewrite drop_drop. f_equal. lia.
    + rewrite wrap64_add_l. f_equal. lia.
Qed.

(** The instructions that one run appends are all no-ops or all not. *)
Lemma loop_exit_nop cs bin mode pc a nd on decoded st pcf af :
  loop_exit cs bin mode pc a nd on decoded st pcf af →
  0 ≤ nd →
  ∃ b : bool,
    Forall (λ ins, is_nop bin ins = b) decoded ∧
    (nd ≠ 0 → b = on) ∧
    (st = StopBoundary → decoded ≠ [] ∨ nd ≠ 0 →
     ∃ ins, cs_decode cs mode pcf af = Some ins ∧ cs_id ins ≠ X86_INS_INVALID ∧
            cs_size ins ≠ 0 ∧ is_nop bin ins ≠ b).
Proof.
  intros Hrun. induction Hrun as
    [pc a nd on Hd|pc a nd on ins Hd Hid|pc a nd on ins Hd Hid Hs
    |pc a nd on ins Hd Hid Hs Hn|pc a nd on ins Hd Hid Hs Hn Hc
    |pc a nd on ins decoded st pcf af Hd Hid Hs Hn Hc Hrun IH]; intros Hnd;
    try (exists on; split; [constructor|]; split; done).
  - exists on. split; [constructor|]. split; [done|].
    intros _ [?|Hnz]; [done|]. exists ins. split_and!; try done.
    unfold next_only_nop in Hn. apply Z.eqb_neq in Hnz. by rewrite Hnz in Hn.
  - exists (is_nop bin ins). split; [by repeat constructor|]. split; [|done].
    intros Hnz. rewrite Hn. unfold next_only_nop.
    apply Z.eqb_neq in Hnz. by rewrite Hnz.
  - destruct IH as (b & Hall & Hb & Hbd); [lia|].
    assert (b = is_nop bin ins) as -> by (rewrite Hn; apply Hb; lia).
    exists (is_nop bin ins). split; [by constructor|]. split.
    + intros Hnz. rewrite Hn. unfold next_only_nop.
      apply Z.eqb_neq in Hnz. by rewrite Hnz.
    + intros Hst _. apply Hbd; [done|]. right. lia.
Qed.

(** What the decoder said at the cursor where the loop was left. *)
Lemma loop_exit_stop cs bin mode pc a nd on decoded st pcf af :
  loop_exit cs bin mode pc a nd on decoded st pcf af →
  match st with
  | StopDecode => cs_decode cs mode pcf af = None
  | StopInvalid => ∃ ins, cs_decode cs mode pcf af = Some ins ∧ cs_id ins = X86_INS_INVALID
  | StopZeroSize => ∃ ins, cs_decode cs mode pcf af = Some ins ∧
                           cs_id ins ≠ X86_INS_INVALID ∧ cs_size ins = 0
  | StopBoundary => ∃ ins, cs_decode cs mode pcf af = Some ins ∧
                           cs_id ins ≠ X86_INS_INVALID ∧ cs_size ins ≠ 0
  | StopCflow => ∃ ins, last decoded = Some ins ∧ is_cs_cflow_ins ins = true
  end.
Proof.
  induction 1; try done; try (by eexists).
  destruct st; try done.
  destruct IHloop_exit as (l & Hl & ?). exists l. split; [|done].
  destruct decoded; [done|]. done.
Qed.

(** A control-flow instruction ends the run that appends it. *)
Lemma loop_exit_cflow cs bin mode pc a nd on decoded st pcf af :
  loop_exit cs bin mode pc a nd on decoded st pcf af →
  ∀ i ins, decoded !! i = Some ins → is_cs_cflow_ins ins = true →
           S i = length decoded ∧ st = StopCflow.
Proof.
  induction 1 as
    [pc a nd on Hd|pc a nd on ins Hd Hid|pc a nd on ins Hd Hid Hs
    |pc a nd on ins Hd Hid Hs Hn|pc a nd on ins Hd Hid Hs Hn Hc
    |pc a nd on ins decoded st pcf af Hd Hid Hs Hn Hc Hrun IH];
    intros i x Hi Hx; try done.
  - destruct i; [done|]. by destruct i.
  - destruct i as [|i]; cbn in Hi.
    + simplify_eq. congruence.
    + destruct (IH i x Hi Hx) as [? ->]. cbn. split; [lia|done].
Qed.

(** ** The block that a run builds *)

Lemma foldl_bb_append_start bin decoded : ∀ bb,
  bb_start (foldl (bb_append bin) bb decoded) = bb_start bb.
Proof. induction decoded as [|i d IH]; intros bb; [done|]. cbn. by rewrite IH. Qed.

Lemma foldl_bb_append_insns bin decoded : ∀ bb,
  bb_insns (foldl (bb_append bin) bb decoded)
  = bb_insns bb ++ map (nucleus_instruction bin) decoded.
Proof.
  induction decoded as [|i d IH]; intros bb; cbn.
  - by rewrite app_nil_r.
  - rewrite IH. cbn. by rewrite <- app_assoc.
Qed.

Lemma foldl_bb_append_end bin decoded : ∀ bb,
  0 ≤ bb_end bb < 2 ^ 64 →
  bb_end (foldl (bb_append bin) bb decoded) = wrap64 (bb_end bb + block_bytes decoded).
Proof.
  induction decoded as [|i d IH]; intros bb Hr; cbn.
  - by rewrite Z.add_0_r, wrap64_small.
  - rewrite IH by apply wrap64_range. cbn. rewrite wrap64_add_l. f_equal.
    fold (block_bytes d). lia.
Qed.

Lemma block_bytes_pos decoded :
  Forall (λ ins, 0 < cs_size ins) decoded → decoded ≠ [] → 0 < block_bytes decoded.
Proof.
  intros Hall Hne. destruct decoded as [|i d]; [done|].
  apply Forall_cons in Hall as [Hi Hd]. cbn. fold (block_bytes d).
  assert (0 ≤ block_bytes d); [|lia].
  clear -Hd. induction Hd; cbn; [lia|]. fold (block_bytes l). lia.
Qed.

(** ** Instruction flags *)

Lemma land_pow2 x k :
  0 ≤ k → (Z.land x (2 ^ k) =? 0) = negb (Z.testbit x k).
Proof.
  intros Hk. destruct (Z.testbit x k) eqn:Hb; cbn.
  - apply Z.eqb_neq. intros H0.
    assert (Z.testbit (Z.land x (2 ^ k)) k = true) as Hbit.
    { by rewrite Z.land_spec, Hb, Z.pow2_bits_true. }
    rewrite H0, Z.bits_0 in Hbit. done.
  - apply Z.eqb_eq. apply Z.bits_inj'. intros n Hn.
    rewrite Z.land_spec, Z.bits_0.
    destruct (decide (n = k)) as [->|Hne].
    + by rewrite Hb.
    + rewrite Z.pow2_bits_false by done. apply andb_false_r.
Qed.

Lemma operand_flags_testbit cflow ops k : ∀ flags,
  k ≠ 2 → 0 ≤ k →
  Z.testbit (operand_flags cflow flags ops) k = Z.testbit flags k.
Proof.
  unfold operand_flags.
  induction ops as [|o ops IH]; intros flags Hk Hk0; [done|].
  cbn [foldl]. rewrite IH by done.
  destruct (cs_op_type o), cflow; cbn [or_flag]; try done;
    rewrite Z.lor_spec; change INS_FLAG_INDIRECT with (2 ^ 2);
    rewrite Z.pow2_bits_false by lia; apply orb_false_r.
Qed.

Lemma nucleus_instruction_nop bin ins :
  has_ins_flag (nucleus_instruction bin ins) INS_FLAG_NOP = is_nop bin ins.
Proof.
  unfold has_ins_flag, nucleus_instruction. cbn [ins_flags].
  change INS_FLAG_NOP with (2 ^ 6). rewrite land_pow2 by lia.
  rewrite operand_flags_testbit by lia. rewrite negb_involutive.
  destruct (is_cs_call_ins ins), (is_cs_cflow_ins ins),
    (is_cs_conditional_cflow_ins ins), (is_cs_unconditional_jmp_ins ins),
    (is_cs_ret_ins ins), (is_nop bin ins); reflexivity.
Qed.

Lemma nucleus_instruction_cflow bin ins :
  has_ins_flag (nucleus_instruction bin ins) INS_FLAG_CFLOW = is_cs_cflow_ins ins.
Proof.
  unfold has_ins_flag, nucleus_instruction. cbn [ins_flags].
  change INS_FLAG_CFLOW with (2 ^ 0). rewrite land_pow2 by lia.
  rewrite operand_flags_testbit by lia. rewrite negb_involutive.
  destruct (is_cs_call_ins ins), (is_cs_cflow_ins ins),
    (is_cs_conditional_cflow_ins ins), (is_cs_unconditional_jmp_ins ins),
    (is_cs_ret_ins ins), (is_nop bin ins); reflexivity.
Qed.

(** ** nucleus_disasm_bb_x86 *)

(** A call that does not end in a hard error went through the loop: the
    mode is supported, the start lies in the section, and the block is the
    one that the run of the loop builds. *)
Lemma nucleus_disasm_bb_x86_run cs bin dis bb ret bb' :
  nucleus_disasm_bb_x86 cs bin dis bb = Some (ret, bb') →
  ret ≠ -1 →
  let sec := dis_section dis in
  let offset := wrap64 (bb_start bb - sec_vma sec) in
  ∃ mode decoded st pcf af,
    bits_mode (bin_bits bin) = Some mode ∧
    cs_open cs mode = true ∧ cs_malloc cs mode = true ∧
    sec_vma sec ≤ bb_start bb ∧ offset < sec_size sec ∧
    loop_exit cs bin mode (section_slice sec offset) (bb_start bb) 0 false
      decoded st pcf af ∧
    ret = Z.of_nat (length decoded) ∧
    bb' = (if ret =? 0 then bb_mark_invalid else id)
            (bb_finish st (foldl (bb_append bin) (bb_enter sec bb) decoded)).
Proof.
  intros H Hret sec offset. unfold nucleus_disasm_bb_x86 in H.
  destruct (bits_mode (bin_bits bin)) as [mode|]; [|by simplify_eq].
  destruct (cs_open cs mode) eqn:Hopen; cbn [negb] in H; [|by simplify_eq].
  destruct (cs_malloc cs mode) eqn:Hmalloc; cbn [negb] in H; [|by simplify_eq].
  fold sec offset in H.
  destruct (Z.ltb_spec (bb_start bb) (sec_vma sec)); cbn [orb] in H; [by simplify_eq|].
  destruct (Z.leb_spec (sec_size sec) offset); [by simplify_eq|].
  destruct (disasm_loop _ _ _ _ _ _ _ _ _) as [[bb1 nd]|] eqn:Hloop; [|done].
  apply disasm_loop_exit in Hloop as (decoded & st & pcf & af & Hrun & -> & ->).
  simplify_eq. exists mode, decoded, st, pcf, af.
  split_and!; try done. by destruct (0 + _ =? 0).
Qed.

(** Under the decoder's bound the call always returns. *)
Lemma nucleus_disasm_bb_x86_total cs bin dis bb :
  cs_decode_ok cs → is_Some (nucleus_disasm_bb_x86 cs bin dis bb).
Proof.
  intros Hok. unfold nucleus_disasm_bb_x86.
  destruct (bits_mode (bin_bits bin)) as [mode|]; [|by eexists].
  destruct (negb (cs_open cs mode)); [by eexists|].
  destruct (negb (cs_malloc cs mode)); [by eexists|].
  destruct (_ || _); [by eexists|].
  match goal with
  | |- context [disasm_loop ?c ?b ?m (S (length ?pc)) ?pc ?a ?bb0 ?nd ?on] =>
      destruct (disasm_loop_total c b m (S (length pc)) Hok pc a bb0 nd on) as [[bb1 n1] ->];
        [lia|by eexists]
  end.
Qed.

Example scenario_padding_block :
  block_summary (toy_block (BIN_TYPE_other 0) [x90; x90; xc3] 4096)
  = Some (2, 4096, 4098, false, true, [INS_FLAG_NOP; INS_FLAG_NOP]).
Proof. vm_compute. reflexivity. Qed.

Example scenario_return_block :
  block_summary (toy_block (BIN_TYPE_other 0) [x90; x90; xc3] 4098)
  = Some (1, 4098, 4099, false, false, [Z.lor INS_FLAG_CFLOW INS_FLAG_RET]).
Proof. vm_compute. reflexivity. Qed.

Example scenario_undecodable_byte :
  block_summary (toy_block (BIN_TYPE_other 0) [xff] 4096)
  = Some (0, 4096, 4097, true, false, []).
Proof. vm_compute. reflexivity. Qed.

Lemma section_slice_length sec offset :
  0 ≤ offset →
  Z.of_nat (length (section_slice sec offset)) ≤ Z.max 0 (sec_size sec - offset).
Proof. intros. unfold section_slice. rewrite length_take. lia. Qed.

Lemma bb_finish_end st bb :
  bb_end (bb_finish st bb) = bb_end bb ∨
  (st = StopInvalid ∧ bb_end (bb_finish st bb) = wrap64 (bb_end bb + 1)).
Proof. destruct st; cbn; auto. Qed.

(** C1. Forward progress: for a section that ends below the top of the
    64-bit address space and a start address inside it, the call returns;
    when the library could be set up it reports no hard error, keeps the
    start and leaves [end] strictly above it, whatever the decoder answers
    at the first byte; otherwise it returns -1. *)
Theorem forward_progress (cs : Capstone) (bin : Binary) (dis : DisasmSection) (bb : BB) :
  let sec := dis_section dis in
  cs_decode_ok cs →
  0 ≤ sec_vma sec →
  sec_vma sec + sec_size sec + 1 < 2 ^ 64 →
  sec_vma sec ≤ bb_start bb < sec_vma sec + sec_size sec →
  ∃ ret bb',
    nucleus_disasm_bb_x86 cs bin dis bb = Some (ret, bb') ∧
    if cs_ready cs bin
    then 0 ≤ ret ∧ bb_start bb' = bb_start bb ∧ bb_start bb' < bb_end bb'
    else ret = -1.
Proof.
  intros sec Hok Hvma Hfit Hin.
  destruct (nucleus_disasm_bb_x86_total cs bin dis bb Hok) as [[ret bb'] H].
  exists ret, bb'. split; [done|].
  unfold cs_ready. unfold nucleus_disasm_bb_x86 in H.
  destruct (bits_mode (bin_bits bin)) as [mode|]; [|by simplify_eq].
  destruct (cs_open cs mode); cbn [negb andb] in *; [|by simplify_eq].
  destruct (cs_malloc cs mode); cbn [negb] in *; [|by simplify_eq].
  fold sec in H.
  assert (wrap64 (bb_start bb - sec_vma sec) = bb_start bb - sec_vma sec) as Hoff
    by (apply wrap64_small; lia).
  rewrite Hoff in H.
  destruct (Z.ltb_spec (bb_start bb) (sec_vma sec)); [lia|].
  destruct (Z.leb_spec (sec_size sec) (bb_start bb - sec_vma sec)); [lia|].
  cbn [orb] in H.
  destruct (disasm_loop _ _ _ _ _ _ _ _ _) as [[bb1 nd]|] eqn:Hloop; [|done].
  apply disasm_loop_exit in Hloop as (decoded & st & pcf & af & Hrun & -> & ->).
  simplify_eq.
  apply (loop_exit_bytes _ _ _ _ _ _ _ _ _ _ _ Hok) in Hrun as (Hpos & Hlen & _ & _); [|lia].
  pose proof (section_slice_length sec (bb_start bb - sec_vma sec)) as Hsl.
  set (bbf := foldl (bb_append bin) (bb_enter sec bb) decoded).
  assert (bb_end bbf = bb_start bb + block_bytes decoded) as Hend.
  { unfold bbf. rewrite foldl_bb_append_end by (cbn; lia). cbn.
    apply wrap64_small. lia. }
  assert (bb_start bbf = bb_start bb) as Hstart
    by (unfold bbf; by rewrite foldl_bb_append_start).
  split; [lia|].
  assert (bb_start (bb_finish st bbf) = bb_start bb) as Hstart'
    by (destruct st; cbn; apply Hstart).
  destruct (bb_finish_end st bbf) as [Hfin|[-> Hfin]]; rewrite Hend in Hfin.
  - destruct decoded as [|i d].
    + cbn [length]. change (0 + Z.of_nat 0 =? 0) with true.
      cbn [bb_mark_invalid bb_start bb_end]. rewrite Hfin, Hstart'. cbn [block_bytes foldr].
      split; [reflexivity|]. rewrite wrap64_small; lia.
    + assert (0 < block_bytes (i :: d)) by by apply block_bytes_pos.
      replace (0 + Z.of_nat (length (i :: d)) =? 0) with false
        by (symmetry; apply Z.eqb_neq; cbn [length]; lia).
      rewrite Hfin, Hstart'. split; [reflexivity|lia].
  - rewrite wrap64_small in Hfin by lia.
    destruct decoded as [|i d].
    + cbn [length]. change (0 + Z.of_nat 0 =? 0) with true.
      cbn [bb_mark_invalid bb_start bb_end]. rewrite Hfin, Hstart'. cbn [block_bytes foldr].
      split; [reflexivity|]. rewrite wrap64_small; lia.
    + assert (0 < block_bytes (i :: d)) by by apply block_bytes_pos.
      replace (0 + Z.of_nat (length (i :: d)) =? 0) with false
        by (symmetry; apply Z.eqb_neq; cbn [length]; lia).
      rewrite Hfin, Hstart'. split; [reflexivity|lia].
Qed.

Lemma toy_decode_ok : cs_decode_ok toy_cs.
Proof.
  intros mode pc addr ins Hd. cbn in Hd. unfold toy_decode in Hd.
  destruct pc as [|b0 pc]; [done|].
  destruct b0; try discriminate Hd; try (injection Hd as <-; cbn; lia).
  destruct pc as [|b1 pc]; [done|].
  destruct b1; try discriminate Hd.
  destruct pc as [|b2 pc]; [done|].
  destruct b2; try discriminate Hd. injection Hd as <-. cbn. lia.
Qed.

(** A section of two bytes whose first byte the decoder answers with an
    instruction of id [X86_INS_INVALID]. *)
Lemma forward_progress_witness :
  ∃ ret bb',
    nucleus_disasm_bb_x86 toy_cs (toy_bin (BIN_TYPE_other 0) [xd6; x90])
      (toy_dis [xd6; x90]) (new_bb 4096) = Some (ret, bb') ∧
    if cs_ready toy_cs (toy_bin (BIN_TYPE_other 0) [xd6; x90])
    then 0 ≤ ret ∧ bb_start bb' = bb_start (new_bb 4096) ∧ bb_start bb' < bb_end bb'
    else ret = -1.
Proof.
  apply (forward_progress toy_cs (toy_bin (BIN_TYPE_other 0) [xd6; x90])
           (toy_dis [xd6; x90]) (new_bb 4096)).
  - apply toy_decode_ok.
  - cbn. lia.
  - cbn. lia.
  - cbn. lia.
Defined.

(** Without the bound on the section the property fails: on a section of
    one [nop] at the last address of the address space the block holds the
    [nop], and its [end], computed in 64 bits, is 0. *)
Lemma forward_progress_claim_fails : ¬ forward_progress_claim.
Proof.
  intros Hclaim.
  assert (∃ bb', nucleus_disasm_bb_x86 toy_cs top_bin top_dis (new_bb (2 ^ 64 - 1))
                   = Some (1, bb') ∧
                 bb_start bb' = 2 ^ 64 - 1 ∧ bb_end bb' = 0) as (bb' & Hrun & Hstart & Hend).
  { eexists. split; [vm_compute; reflexivity|]. split; reflexivity. }
  pose proof (Hclaim toy_cs top_bin top_dis (new_bb (2 ^ 64 - 1)) 1 bb' toy_decode_ok) as H.
  rewrite Hstart, Hend in H. cbn [top_dis dis_section top_section sec_vma sec_size] in H.
  unfold uint64, in_section in H. cbn [new_bb bb_start top_section sec_vma sec_size] in H.
  specialize (H ltac:(lia) ltac:(lia) ltac:(lia) Hrun ltac:(lia)). lia.
Qed.

(** The bound cannot be relaxed by one: on a section whose last byte is at
    [2^64 - 2] and is answered with an instruction of id [X86_INS_INVALID],
    the two increments of [end] reach [2^64], and [end] is 0. *)
Example forward_progress_bound_tight :
  ∃ bb',
    nucleus_disasm_bb_x86 toy_cs
      (mk_Binary (BIN_TYPE_other 0) ARCH_X86 64 "x86"
         [mk_Section ".text" SEC_TYPE_CODE (2 ^ 64 - 2) 1 [xd6]])
      (mk_DisasmSection (mk_Section ".text" SEC_TYPE_CODE (2 ^ 64 - 2) 1 [xd6])
         (init_addrmap (mk_Section ".text" SEC_TYPE_CODE (2 ^ 64 - 2) 1 [xd6])) [])
      (new_bb (2 ^ 64 - 2)) = Some (0, bb') ∧
    bb_start bb' = 2 ^ 64 - 2 ∧ bb_end bb' = 0.
Proof. eexists. split; [vm_compute; reflexivity|]. split; reflexivity. Qed.

(** A block without instructions: it is invalid, and its [end] is one past
    the start, or two past it when the decoder answered the first attempt
    with an instruction whose id is [X86_INS_INVALID], since both the branch
    inside the loop and the one after it add 1. *)
Lemma zero_insns_block cs bin dis bb bb' :
  nucleus_disasm_bb_x86 cs bin dis bb = Some (0, bb') →
  0 ≤ bb_start bb < 2 ^ 64 →
  let sec := dis_section dis in
  bb_invalid bb' = true ∧ bb_insns bb' = bb_insns bb ∧
  ∃ mode, bits_mode (bin_bits bin) = Some mode ∧
    bb_end bb' =
      match cs_decode cs mode (section_slice sec (wrap64 (bb_start bb - sec_vma sec)))
              (bb_start bb) with
      | Some ins => if bool_decide (cs_id ins = X86_INS_INVALID)
                    then wrap64 (bb_start bb + 2) else wrap64 (bb_start bb + 1)
      | None => wrap64 (bb_start bb + 1)
      end.
Proof.
  intros H Hstart sec.
  apply nucleus_disasm_bb_x86_run in H as
    (mode & decoded & st & pcf & af & Hmode & _ & _ & _ & _ & Hrun & Hlen & ->); [|done].
  destruct decoded; [|done]. cbn [foldl].
  change (0 =? 0) with true. cbn [bb_mark_invalid bb_invalid bb_insns bb_end].
  split; [done|]. split; [by destruct st|]. exists mode. split; [done|].
  fold sec in Hrun. inversion Hrun as
    [? ? ? ? Hd|? ? ? ? ins Hd Hid|? ? ? ? ins Hd Hid Hs|? ? ? ? ins Hd Hid Hs Hn| |];
    subst; rewrite Hd; cbn [bb_finish bb_enter bb_mark_invalid bb_end];
    try rewrite (bool_decide_eq_false_2 _ Hid); try done.
  rewrite (bool_decide_eq_true_2 _ Hid). rewrite wrap64_add_l. f_equal. lia.
Qed.

(** C5. The decoder answers the first attempt with an instruction whose id
    is [X86_INS_INVALID]: no instruction is appended, the block is invalid
    and its [end] is two past its start, not one. *)
Theorem zero_insns_invalid_id_end :
  ∃ bb', toy_block (BIN_TYPE_other 0) [xd6; x90] 4096 = Some (0, bb') ∧
         bb_insns bb' = [] ∧ bb_invalid bb' = true ∧
         bb_start bb' = 4096 ∧ bb_end bb' = 4096 + 2.
Proof. eexists. split; [vm_compute; reflexivity|]. by cbn. Qed.

(** The no-op status of the instructions that a finished call appended. *)
Lemma nop_grouping_of_result (cs : Capstone) (bin : Binary) (dis : DisasmSection)
    (bb : BB) (ret : Z) (bb' : BB) :
  nucleus_disasm_bb_x86 cs bin dis bb = Some (ret, bb') →
  0 ≤ ret →
  ∃ decoded : list cs_insn,
    bb_insns bb' = bb_insns bb ++ map (nucleus_instruction bin) decoded ∧
    ret = Z.of_nat (length decoded) ∧
    ∀ first, head decoded = Some first →
      Forall (λ ins, is_nop bin ins = is_nop bin first) decoded ∧
      Forall (λ i, has_ins_flag i INS_FLAG_NOP = is_nop bin first)
             (map (nucleus_instruction bin) decoded).
Proof.
  intros H Hret.
  apply nucleus_disasm_bb_x86_run in H as
    (mode & decoded & st & pcf & af & _ & _ & _ & _ & _ & Hrun & Hlen & ->); [|lia].
  exists decoded. split.
  { assert (∀ b : BB, bb_insns (bb_finish st b) = bb_insns b) as Hf by by destruct st.
    destruct (ret =? 0); cbn [id bb_mark_invalid bb_insns];
      by rewrite Hf, foldl_bb_append_insns. }
  split; [done|]. intros first Hfirst.
  apply loop_exit_nop in Hrun as (b & Hall & _ & _); [|lia].
  assert (is_nop bin first = b) as Hb.
  { destruct decoded as [|i d]; [done|]. cbn in Hfirst. simplify_eq.
    by apply Forall_cons in Hall as [? _]. }
  rewrite Hb. split; [done|].
  apply Forall_forall. intros i Hi. apply list_elem_of_In, in_map_iff in Hi as (x & <- & Hx).
  rewrite nucleus_instruction_nop. rewrite Forall_forall in Hall.
  apply Hall. by apply list_elem_of_In.
Qed.

(** The instructions of a run are consecutive answers of the decoder. *)
Lemma loop_exit_decoded_from cs bin mode pc a nd on decoded st pcf af :
  loop_exit cs bin mode pc a nd on decoded st pcf af →
  decoded_from cs mode pc a decoded.
Proof. induction 1; cbn; auto. Qed.

(** The first answer on the other side of the no-op boundary ends the run:
    when the decoder gives the instructions [p], which the loop appends and
    goes on from and which all have the no-op status [b], and then an
    instruction of the other status, the run appends [p] and nothing else. *)
Lemma loop_exit_first_mismatch cs bin mode b ins p : ∀ pc a nd on decoded st pcf af,
  loop_exit cs bin mode pc a nd on decoded st pcf af →
  decoded_from cs mode pc a (p ++ [ins]) →
  Forall (λ i, continues i ∧ is_nop bin i = b) p →
  cs_id ins ≠ X86_INS_INVALID → cs_size ins ≠ 0 → is_nop bin ins ≠ b →
  0 ≤ nd →
  (if nd =? 0 then on = false ∧ p ≠ [] else on = b) →
  decoded = p ∧ st = StopBoundary.
Proof.
  induction p as [|i p IH];
    intros pc a nd on decoded st pcf af Hrun Hfrom Hall Hid Hs Hn Hnd Hon.
  - destruct Hfrom as [Hd _].
    destruct (nd =? 0) eqn:Hz; [by destruct Hon|]. subst on.
    inversion Hrun as
      [? ? ? ? Hd'|? ? ? ? x Hd' Hid'|? ? ? ? x Hd' Hid' Hs'|? ? ? ? x Hd' Hid' Hs' Hn'
      |? ? ? ? x Hd' Hid' Hs' Hn' Hc'
      |? ? ? ? x decoded' st' pcf' af' Hd' Hid' Hs' Hn' Hc' Hrun'];
      subst; rewrite Hd in Hd'; simplify_eq; try done;
      unfold next_only_nop in Hn'; rewrite Hz in Hn'; cbn in Hn'; done.
  - destruct Hfrom as [Hd Hfrom].
    apply Forall_cons in Hall as [[(Hidi & Hsi & Hci) Hbi] Hall].
    inversion Hrun as
      [? ? ? ? Hd'|? ? ? ? x Hd' Hid'|? ? ? ? x Hd' Hid' Hs'|? ? ? ? x Hd' Hid' Hs' Hn'
      |? ? ? ? x Hd' Hid' Hs' Hn' Hc'
      |? ? ? ? x decoded' st' pcf' af' Hd' Hid' Hs' Hn' Hc' Hrun'];
      subst; rewrite Hd in Hd'; simplify_eq; try done.
    + exfalso. apply Hn'. unfold next_only_nop.
      destruct (nd =? 0); [destruct Hon as [-> _]; by destruct (is_nop bin x)|].
      subst on. by destruct (is_nop bin x).
    + congruence.
    + destruct (IH _ _ _ _ _ _ _ _ Hrun' Hfrom Hall Hid Hs Hn) as [-> ->]; [lia| |done].
      assert (next_only_nop bin nd on x = is_nop bin x) as -> by done.
      destruct (Z.eqb_spec (nd + 1) 0); [lia|done].
Qed.

Lemma foldl_bb_append_invalid bin decoded : ∀ bb,
  bb_invalid (foldl (bb_append bin) bb decoded) = bb_invalid bb.
Proof. induction decoded as [|i d IH]; intros bb; [done|]. cbn. by rewrite IH. Qed.

(** C3. No-op grouping: the call returns, and the instructions that it
    appends are consecutive answers of the decoder from the start of the
    block that all have the no-op status of the first of them, under the
    rules of the binary format, and their [INS_FLAG_NOP] flags say so: a
    block that starts on a no-op holds no-ops only, a block that starts on
    another instruction holds no no-op. The first instruction of the other
    status ends the decoding before it is appended: when the decoder gives
    the instructions [p], none of which ends a block, all with the status of
    the first, and then an instruction [ins] of the other status, the block
    gets [p] and nothing else, ends where [ins] starts and is not marked
    invalid. *)
Theorem nop_grouping (cs : Capstone) (bin : Binary) (dis : DisasmSection) (bb : BB) :
  cs_decode_ok cs →
  ∃ ret bb',
    nucleus_disasm_bb_x86 cs bin dis bb = Some (ret, bb') ∧
    (0 ≤ ret →
     let sec := dis_section dis in
     let pc := section_slice sec (wrap64 (bb_start bb - sec_vma sec)) in
     ∃ (mode : cs_mode) (decoded : list cs_insn),
       bits_mode (bin_bits bin) = Some mode ∧
       bb_insns bb' = bb_insns bb ++ map (nucleus_instruction bin) decoded ∧
       ret = Z.of_nat (length decoded) ∧
       decoded_from cs mode pc (bb_start bb) decoded ∧
       (∀ first, head decoded = Some first →
          Forall (λ ins, is_nop bin ins = is_nop bin first) decoded ∧
          Forall (λ i, has_ins_flag i INS_FLAG_NOP = is_nop bin first)
                 (map (nucleus_instruction bin) decoded)) ∧
       (∀ first p ins,
          head p = Some first →
          decoded_from cs mode pc (bb_start bb) (p ++ [ins]) →
          Forall (λ i, continues i ∧ is_nop bin i = is_nop bin first) p →
          cs_id ins ≠ X86_INS_INVALID → cs_size ins ≠ 0 →
          is_nop bin ins ≠ is_nop bin first →
          decoded = p ∧
          bb_end bb' = wrap64 (bb_start bb + block_bytes p) ∧
          bb_invalid bb' = bb_invalid bb)).
Proof.
  intros Hok.
  destruct (nucleus_disasm_bb_x86_total cs bin dis bb Hok) as [[ret bb'] H].
  exists ret, bb'. split; [done|]. intros Hret sec pc.
  destruct (nop_grouping_of_result cs bin dis bb ret bb' H Hret)
    as (decoded0 & Hins0 & _ & Hall0).
  apply nucleus_disasm_bb_x86_run in H as
    (mode & decoded & st & pcf & af & Hmode & _ & _ & _ & _ & Hrun & Hlen & Hbb'); [|lia].
  fold sec in Hrun, Hbb'. fold pc in Hrun.
  assert (bb_insns bb' = bb_insns bb ++ map (nucleus_instruction bin) decoded) as Hins.
  { rewrite Hbb'.
    assert (∀ b : BB, bb_insns (bb_finish st b) = bb_insns b) as Hf by by destruct st.
    destruct (ret =? 0); cbn [id bb_mark_invalid bb_insns];
      by rewrite Hf, foldl_bb_append_insns. }
  exists mode, decoded. split; [done|]. split; [done|]. split; [done|].
  split; [by eapply loop_exit_decoded_from|]. split.
  - rewrite Hins in Hins0. apply app_inv_head in Hins0. rewrite <- Hins0 in Hall0.
    intros first Hfirst.
    destruct (loop_exit_nop _ _ _ _ _ _ _ _ _ _ _ Hrun) as (b & Hall & _ & _); [lia|].
    assert (is_nop bin first = b) as Hb.
    { destruct decoded as [|i d]; [done|]. cbn in Hfirst. simplify_eq.
      by apply Forall_cons in Hall as [? _]. }
    rewrite Hb. split; [done|].
    apply Forall_forall. intros i Hi.
    apply list_elem_of_In, in_map_iff in Hi as (x & <- & Hx).
    rewrite nucleus_instruction_nop. rewrite Forall_forall in Hall.
    apply Hall. by apply list_elem_of_In.
  - intros first p ins Hfirst Hfrom Hall Hid Hs Hn.
    destruct (loop_exit_first_mismatch cs bin mode (is_nop bin first) ins p
                _ _ _ _ _ _ _ _ Hrun Hfrom Hall Hid Hs Hn) as [-> ->]; [lia| |].
    { cbn. split; [done|]. by intros ->. }
    split; [done|].
    assert ((ret =? 0) = false) as Hz.
    { apply Z.eqb_neq. destruct p; [done|]. cbn [length] in Hlen. lia. }
    rewrite Hbb', Hz. cbn [id bb_finish]. split.
    + destruct p as [|i p]; [done|]. cbn [foldl].
      rewrite foldl_bb_append_end by (cbn; apply wrap64_range).
      cbn [bb_append bb_enter bb_end]. rewrite wrap64_add_l. f_equal.
      cbn [block_bytes foldr]. fold (block_bytes p). lia.
    + by rewrite foldl_bb_append_invalid.
Qed.

(** On the bytes [55 90 55 c3] the block from the [push] holds the [push]
    alone: the [nop] that follows ends it, and the second [push] and the
    return are not reached. *)
Lemma nop_grouping_witness :
  ∃ ret bb',
    toy_block (BIN_TYPE_other 0) [x55; x90; x55; xc3] 4096 = Some (ret, bb') ∧
    ret = 1 ∧ bb_end bb' = 4097 ∧ bb_invalid bb' = false ∧
    map ins_start (bb_insns bb') = [4096].
Proof.
  destruct (nop_grouping toy_cs (toy_bin (BIN_TYPE_other 0) [x55; x90; x55; xc3])
              (toy_dis [x55; x90; x55; xc3]) (new_bb 4096) toy_decode_ok)
    as (ret & bb' & H & Hgroup).
  exists ret, bb'. split; [exact H|].
  assert (0 ≤ ret) as Hret.
  { vm_compute in H. injection H as <- _. discriminate. }
  destruct (Hgroup Hret) as (mode & decoded & Hmode & Hins & Hlen & _ & _ & Hfirst).
  injection Hmode as <-.
  destruct (Hfirst (toy_insn (X86_INS_other 588) 4096 "push" [] [reg_op X86_REG_EBP])
              [toy_insn (X86_INS_other 588) 4096 "push" [] [reg_op X86_REG_EBP]]
              (toy_insn X86_INS_NOP 4097 "nop" [] []))
    as (-> & Hend & Hinv).
  - reflexivity.
  - vm_compute. auto.
  - constructor; [|constructor]. vm_compute. repeat split; discriminate.
  - discriminate.
  - discriminate.
  - vm_compute. discriminate.
  - split; [exact Hlen|]. split; [exact Hend|]. split; [exact Hinv|].
    rewrite Hins. reflexivity.
Defined.

Lemma map_fmap {A B} (f : A → B) (l : list A) : map f l = f <$> l.
Proof. reflexivity. Qed.

Lemma insns_bytes_map bin decoded :
  insns_bytes (map (nucleus_instruction bin) decoded) = block_bytes decoded.
Proof.
  induction decoded as [|i d IH]; [done|].
  cbn [map insns_bytes block_bytes foldr]. fold (block_bytes d).
  fold (insns_bytes (map (nucleus_instruction bin) d)). by rewrite IH.
Qed.

(** Why the block of a finished call ended. *)
Lemma block_stop_of_result (cs : Capstone) (bin : Binary) (dis : DisasmSection)
    (bb : BB) (ret : Z) (bb' : BB) :
  cs_decode_ok cs →
  0 ≤ bb_start bb < 2 ^ 64 →
  nucleus_disasm_bb_x86 cs bin dis bb = Some (ret, bb') →
  0 < ret →
  block_stops (decoder_stopped cs) cs bin dis bb bb'.
Proof.
  intros Hok Hstart H Hret.
  apply nucleus_disasm_bb_x86_run in H as
    (mode & decoded & st & pcf & af & Hmode & _ & _ & _ & _ & Hrun & Hlen & ->); [|lia].
  replace (ret =? 0) with false by (symmetry; apply Z.eqb_neq; lia). cbn [id].
  assert (decoded ≠ []) as Hne by (intros ->; cbn in Hlen; lia).
  unfold block_stops.
  assert (∀ b : BB, bb_insns (bb_finish st b) = bb_insns b) as Hf by by destruct st.
  rewrite Hf, foldl_bb_append_insns. cbn [bb_enter bb_insns].
  rewrite drop_app_length, insns_bytes_map.
  pose proof (loop_exit_bytes _ _ _ _ _ _ _ _ _ _ _ Hok Hrun Hstart) as (_ & _ & Hpcf & Haf).
  rewrite <- Hpcf, <- Haf.
  exists mode. split; [done|]. split.
  - pose proof (loop_exit_stop _ _ _ _ _ _ _ _ _ _ _ Hrun) as Hst.
    destruct st.
    + right; right; left. by left.
    + right; left. cbn. done.
    + right; right; left. right. destruct Hst as (ins & ? & ? & ?). by exists ins.
    + right; right; right.
      destruct (loop_exit_nop _ _ _ _ _ _ _ _ _ _ _ Hrun) as (b & Hall & _ & Hbd); [lia|].
      destruct Hbd as (ins & Hd & _ & _ & Hnop); [done|by left|].
      destruct decoded as [|first d]; [done|].
      exists ins, (nucleus_instruction bin first). split; [done|]. split; [done|].
      rewrite nucleus_instruction_nop.
      apply Forall_cons in Hall as [-> _]. done.
    + left. destruct Hst as (ins & Hl & Hc).
      exists (nucleus_instruction bin ins). rewrite map_fmap, fmap_last, Hl.
      split; [done|]. by rewrite nucleus_instruction_cflow.
  - intros i x Hi Hx. rewrite map_fmap in Hi |- *.
    rewrite list_lookup_fmap in Hi.
    destruct (decoded !! i) as [ins|] eqn:Hins; [|done]. cbn in Hi. simplify_eq.
    rewrite nucleus_instruction_cflow in Hx.
    rewrite length_fmap.
    by destruct (loop_exit_cflow _ _ _ _ _ _ _ _ _ _ _ Hrun i ins Hins Hx).
Qed.

(** C4. Why a block ends: the call returns, and a block with at least one
    appended instruction ends on a control-flow instruction, or is invalid,
    or the decoder gave no instruction or one of size 0 at its end, as it
    does when the bytes of the section ran out and also when the bytes that
    follow do not decode, or the instruction at its end is on the other
    side of the no-op boundary; and a control-flow instruction is the last
    of its block. *)
Theorem block_stop_reason (cs : Capstone) (bin : Binary) (dis : DisasmSection) (bb : BB) :
  cs_decode_ok cs →
  0 ≤ bb_start bb < 2 ^ 64 →
  ∃ ret bb',
    nucleus_disasm_bb_x86 cs bin dis bb = Some (ret, bb') ∧
    (0 < ret → block_stops (decoder_stopped cs) cs bin dis bb bb').
Proof.
  intros Hok Hstart.
  destruct (nucleus_disasm_bb_x86_total cs bin dis bb Hok) as [[ret bb'] H].
  exists ret, bb'. split; [done|]. intros Hret.
  by apply (block_stop_of_result cs bin dis bb ret bb').
Qed.

Lemma block_stop_reason_witness :
  ∃ ret bb',
    toy_block (BIN_TYPE_other 0) [x55; x06] 4096 = Some (ret, bb') ∧
    (0 < ret →
     block_stops (decoder_stopped toy_cs) toy_cs (toy_bin (BIN_TYPE_other 0) [x55; x06])
       (toy_dis [x55; x06]) (new_bb 4096) bb').
Proof.
  apply (block_stop_reason toy_cs (toy_bin (BIN_TYPE_other 0) [x55; x06])
           (toy_dis [x55; x06]) (new_bb 4096)).
  - apply toy_decode_ok.
  - cbn. lia.
Defined.

(** The literal reading fails on the bytes [55 06]: the block holds the
    [push], is not invalid, one byte of the section is left, and the
    decoder gives no instruction there. *)
Lemma block_stop_claim_fails : ¬ block_stop_claim.
Proof.
  intros Hclaim.
  destruct (Hclaim toy_cs (toy_bin (BIN_TYPE_other 0) [x55; x06])
              (toy_dis [x55; x06]) (new_bb 4096) 1 push_block)
    as (mode & Hmode & Hstop & _).
  - apply toy_decode_ok.
  - cbn. lia.
  - vm_compute. reflexivity.
  - lia.
  - cbn in Hmode. simplify_eq.
    destruct Hstop as [(l & Hl & Hc)|[Hinv|[Hout|(ins & first & Hd & _)]]].
    + cbn in Hl. by simplify_eq.
    + done.
    + unfold bytes_ran_out in Hout. vm_compute in Hout. done.
    + vm_compute in Hd. done.
Qed.

(** ** Instruction classification *)

(** C8. No-ops by binary format: a semantic no-op is a no-op exactly when
    the binary is not PE and a trap ([int3], [ud2]) exactly when it is PE;
    [mov reg,reg], [xchg reg,reg], [lea reg,[reg+0]] and
    [lea reg,[reg+eiz*scale+0]] are semantic no-ops. *)
Theorem nop_by_binary_format (bin : Binary) (ins : cs_insn) :
  (is_cs_semantic_nop_ins ins = true → is_nop bin ins = negb (is_PE bin)) ∧
  (cs_id ins = X86_INS_INT3 ∨ cs_id ins = X86_INS_UD2 → is_nop bin ins = is_PE bin) ∧
  (∀ r s0 s1,
     cs_id ins = X86_INS_MOV ∨ cs_id ins = X86_INS_XCHG →
     cs_operands ins = [mk_cs_x86_op (CS_OP_REG r) s0; mk_cs_x86_op (CS_OP_REG r) s1] →
     is_cs_semantic_nop_ins ins = true) ∧
  (∀ r index scale s0 s1,
     cs_id ins = X86_INS_LEA →
     index = X86_REG_INVALID ∨ index = X86_REG_EIZ →
     cs_operands ins =
       [mk_cs_x86_op (CS_OP_REG r) s0;
        mk_cs_x86_op (CS_OP_MEM (mk_x86_op_mem X86_REG_INVALID r index scale 0)) s1] →
     is_cs_semantic_nop_ins ins = true).
Proof.
  split_and!.
  - intros Hsem. unfold is_nop. rewrite Hsem.
    unfold is_cs_semantic_nop_ins in Hsem. unfold is_cs_nop_ins, is_cs_trap_ins.
    destruct (cs_id ins); try done; by destruct (is_PE bin).
  - unfold is_nop, is_cs_nop_ins, is_cs_semantic_nop_ins, is_cs_trap_ins.
    by intros [-> | ->]; destruct (is_PE bin).
  - intros r s0 s1 Hid Hops. unfold is_cs_semantic_nop_ins. rewrite Hops. cbn.
    destruct Hid as [-> | ->]; by rewrite bool_decide_eq_true_2.
  - intros r index scale s0 s1 Hid Hidx Hops.
    unfold is_cs_semantic_nop_ins. rewrite Hid, Hops. cbn.
    rewrite (bool_decide_eq_true_2 (r = r)) by done.
    by destruct Hidx as [-> | ->].
Qed.

Lemma nop_by_binary_format_witness :
  is_nop (toy_bin (BIN_TYPE_other 0) []) (lea_eax_eax_0 4096) = true ∧
  is_nop (toy_bin BIN_TYPE_PE []) (lea_eax_eax_0 4096) = false ∧
  is_nop (toy_bin BIN_TYPE_PE []) (toy_insn X86_INS_INT3 4096 "int3" [CS_GRP_INT] []) = true ∧
  is_nop (toy_bin (BIN_TYPE_other 0) []) (toy_insn X86_INS_INT3 4096 "int3" [CS_GRP_INT] []) = false.
Proof.
  split_and!.
  - apply (nop_by_binary_format (toy_bin (BIN_TYPE_other 0) []) (lea_eax_eax_0 4096)).
    reflexivity.
  - apply (nop_by_binary_format (toy_bin BIN_TYPE_PE []) (lea_eax_eax_0 4096)).
    reflexivity.
  - apply (nop_by_binary_format (toy_bin BIN_TYPE_PE [])
             (toy_insn X86_INS_INT3 4096 "int3" [CS_GRP_INT] [])).
    by left.
  - apply (nop_by_binary_format (toy_bin (BIN_TYPE_other 0) [])
             (toy_insn X86_INS_INT3 4096 "int3" [CS_GRP_INT] [])).
    by left.
Defined.

(** ** The worklist *)

Lemma select_count_nonneg r : 0 ≤ select_count r < 2 ^ 32.
Proof. unfold select_count, wrap32. apply Z.mod_pos_bound. lia. Qed.

(** C10. The check on the result of [bb_select] is vacuous: [n], being
    unsigned, is never below 0; a negative result becomes a count of at
    least 2^31; and once the mutants are decoded and scored, an iteration
    of the worklist ends as its accept loop ends, never in the failure
    branch of the selection. *)
Theorem select_check_vacuous :
  (∀ r, (select_count r <? 0) = false) ∧
  (∀ r, - 2 ^ 31 ≤ r < 0 → select_count r = 2 ^ 32 + r ∧ 2 ^ 31 ≤ select_count r) ∧
  (∀ cs st ndebug bin fuel dis parent Q1 mutants1,
     disasm_mutants cs st bin dis (bb_mutate st dis parent) = Returns (Some mutants1) →
     let sel := bb_select st dis mutants1 (Z.of_nat (length (bb_mutate st dis parent))) in
     disasm_worklist cs st ndebug bin (S fuel) dis (parent :: Q1) =
       match accept_mutants ndebug dis Q1 sel.2 (select_count sel.1) with
       | Returns (dis', Q') => disasm_worklist cs st ndebug bin fuel dis' Q'
       | Aborted => Aborted
       | Undefined => Undefined
       | OutOfFuel => OutOfFuel
       end).
Proof.
  split_and!.
  - intros r. apply Z.ltb_ge. apply select_count_nonneg.
  - intros r Hr. unfold select_count, wrap32.
    assert (r mod 2 ^ 32 = 2 ^ 32 + r) as ->; [|lia].
    symmetry. apply (Z.mod_unique_pos _ _ (-1)); lia.
  - intros cs st ndebug bin fuel dis parent Q1 mutants1 Hm sel.
    cbn [disasm_worklist]. rewrite Hm. fold sel.
    destruct sel as [r mutants2]. cbn [fst snd].
    replace (select_count r <? 0) with false; [done|].
    symmetry. apply Z.ltb_ge. apply select_count_nonneg.
Qed.

(** With a selection policy that answers -1 the section does not fail: the
    accept loop runs past the end of the mutants array. *)
Lemma select_check_vacuous_witness :
  select_count (-1) = 4294967295 ∧
  nucleus_disasm_section toy_cs (toy_strategy (Some (-1))) (mk_Options false) true
    (toy_bin (BIN_TYPE_other 0) [x90; xc3]) 1 (toy_dis [x90; xc3]) = Undefined.
Proof.
  destruct select_check_vacuous as (_ & Hneg & Hiter). split.
  - apply (Hneg (-1)). lia.
  - unfold nucleus_disasm_section. cbn [negb andb is_code toy_dis dis_section toy_section sec_type].
    rewrite (Hiter toy_cs (toy_strategy (Some (-1))) true
               (toy_bin (BIN_TYPE_other 0) [x90; xc3]) 0%nat (toy_dis [x90; xc3]) None []
               [mk_BB 4096 4097 (Some (toy_section [x90; xc3]))
                  [nucleus_instruction (toy_bin (BIN_TYPE_other 0) [x90; xc3])
                     (toy_insn X86_INS_NOP 4096 "nop" [] [])]
                  false false true false false]).
    + vm_compute. reflexivity.
    + vm_compute. reflexivity.
Defined.

(** A start address outside the section is a hard error, whatever the state
    of the library. *)
Lemma nucleus_disasm_bb_x86_out_of_range cs bin dis bb :
  uint64 (sec_vma (dis_section dis)) →
  uint64 (bb_start bb) →
  ¬ in_section (dis_section dis) (bb_start bb) →
  nucleus_disasm_bb_x86 cs bin dis bb = Some (-1, bb).
Proof.
  unfold uint64, in_section. intros Hvma Hstart Hout. unfold nucleus_disasm_bb_x86.
  destruct (bits_mode (bin_bits bin)) as [mode|]; [|done].
  destruct (negb (cs_open cs mode)); [done|].
  destruct (negb (cs_malloc cs mode)); [done|].
  destruct (Z.ltb_spec (bb_start bb) (sec_vma (dis_section dis))); [done|].
  rewrite wrap64_small by lia.
  destruct (Z.leb_spec (sec_size (dis_section dis))
              (bb_start bb - sec_vma (dis_section dis))); [done|lia].
Qed.

Lemma nucleus_disasm_bb_out_of_range cs bin dis bb :
  uint64 (sec_vma (dis_section dis)) →
  uint64 (bb_start bb) →
  ¬ in_section (dis_section dis) (bb_start bb) →
  nucleus_disasm_bb cs bin dis bb = Some (-1, bb).
Proof.
  intros. unfold nucleus_disasm_bb.
  destruct (bin_arch bin); [|done]. by apply nucleus_disasm_bb_x86_out_of_range.
Qed.

Lemma nucleus_disasm_bb_total cs bin dis bb :
  cs_decode_ok cs → is_Some (nucleus_disasm_bb cs bin dis bb).
Proof.
  intros Hok. unfold nucleus_disasm_bb.
  destruct (bin_arch bin); [|by eexists]. by apply nucleus_disasm_bb_x86_total.
Qed.

(** The first loop over the mutants fails when one of them starts outside
    the section: at that mutant, or at an earlier one. *)
Lemma disasm_mutants_out_of_range cs st bin dis mutants m :
  cs_decode_ok cs →
  uint64 (sec_vma (dis_section dis)) →
  m ∈ mutants →
  uint64 (bb_start m) →
  ¬ in_section (dis_section dis) (bb_start m) →
  disasm_mutants cs st bin dis mutants = Returns None.
Proof.
  intros Hok Hvma Hin Hstart Hout.
  induction mutants as [|m0 rest IH]; [by apply elem_of_nil in Hin|].
  cbn [disasm_mutants].
  destruct (nucleus_disasm_bb_total cs bin dis m0 Hok) as [[ret m1] Hm0].
  rewrite Hm0. destruct (Z.ltb_spec ret 0); [done|].
  destruct (bb_score st dis m1) as [s m2].
  destruct (double_ltz s); [done|].
  apply elem_of_cons in Hin as [->|Hin].
  - rewrite nucleus_disasm_bb_out_of_range in Hm0 by done. simplify_eq. lia.
  - by rewrite IH.
Qed.

(** C7. Out-of-range candidate: for a mutant that starts outside its
    section the decoder returns -1 and leaves the mutant as it was; the
    worklist iteration that got this mutant from [bb_mutate] ends the
    disassembly of the section with -1, and so does
    [nucleus_disasm_section] when the seed iteration gets it. *)
Theorem out_of_range_candidate_fails (cs : Capstone) (st : Strategy) (opts : Options)
    (ndebug : bool) (bin : Binary) (fuel : nat) (dis : DisasmSection)
    (parent : option nat) (Q1 : list (option nat)) (m : BB) :
  cs_decode_ok cs →
  uint64 (sec_vma (dis_section dis)) →
  m ∈ bb_mutate st dis parent →
  uint64 (bb_start m) →
  ¬ in_section (dis_section dis) (bb_start m) →
  nucleus_disasm_bb_x86 cs bin dis m = Some (-1, m) ∧
  disasm_worklist cs st ndebug bin (S fuel) dis (parent :: Q1) = Returns (-1, dis) ∧
  (parent = None →
   negb (is_code (dis_section dis)) && only_code_sections opts = false →
   nucleus_disasm_section cs st opts ndebug bin (S fuel) dis = Returns (-1, dis)).
Proof.
  intros Hok Hvma Hin Hstart Hout.
  split; [by apply nucleus_disasm_bb_x86_out_of_range|].
  assert (∀ Q, disasm_worklist cs st ndebug bin (S fuel) dis (parent :: Q)
               = Returns (-1, dis)) as Hwl.
  { intros Q. cbn [disasm_worklist].
    by rewrite (disasm_mutants_out_of_range cs st bin dis _ m). }
  split; [apply Hwl|].
  intros -> Hskip. unfold nucleus_disasm_section. rewrite Hskip. apply Hwl.
Qed.

Lemma out_of_range_candidate_fails_witness :
  nucleus_disasm_bb_x86 toy_cs (toy_bin (BIN_TYPE_other 0) [x90; xc3])
    (toy_dis [x90; xc3]) (new_bb 0) = Some (-1, new_bb 0) ∧
  disasm_worklist toy_cs stray_strategy true (toy_bin (BIN_TYPE_other 0) [x90; xc3])
    1 (toy_dis [x90; xc3]) [None] = Returns (-1, toy_dis [x90; xc3]) ∧
  (@None nat = None →
   negb (is_code (dis_section (toy_dis [x90; xc3]))) && only_code_sections (mk_Options true) = false →
   nucleus_disasm_section toy_cs stray_strategy (mk_Options true) true
     (toy_bin (BIN_TYPE_other 0) [x90; xc3]) 1 (toy_dis [x90; xc3])
   = Returns (-1, toy_dis [x90; xc3])).
Proof.
  apply (out_of_range_candidate_fails toy_cs stray_strategy (mk_Options true) true
           (toy_bin (BIN_TYPE_other 0) [x90; xc3]) 0 (toy_dis [x90; xc3]) None []
           (new_bb 0)).
  - apply toy_decode_ok.
  - unfold uint64. cbn. lia.
  - cbn. apply list_elem_of_singleton. reflexivity.
  - unfold uint64. cbn. lia.
  - unfold in_section. cbn. lia.
Defined.

(** ** The partition of the addresses *)

Lemma addrmap_inv_empty : addrmap_inv AddressMap.empty.
Proof.
  split; [apply unmapped_ok_empty|]. split.
  - intros a [ty Hty]. cbn in Hty. by rewrite lookup_empty in Hty.
  - intros a ty Hty. cbn in Hty. by rewrite lookup_empty in Hty.
Qed.

Lemma insert_inv m a :
  addrmap_inv m → addrmap_inv (AddressMap.insert m a).
Proof.
  intros (Hok & Hdisj & Hnz).
  split; [by apply insert_unmapped_ok|].
  unfold AddressMap.insert.
  destruct (AddressMap.contains m a) eqn:Hc; [done|].
  assert (AddressMap.addrmap m !! a = None) as Ham.
  { apply not_true_iff_false in Hc. rewrite contains_true in Hc.
    apply eq_None_not_Some. tauto. }
  split; cbn; [|done].
  intros b Hb. destruct (decide (b = a)) as [->|Hne].
  - rewrite Ham in Hb. by destruct Hb.
  - rewrite lookup_insert_ne by done. by apply Hdisj.
Qed.

Lemma insert_contains m a b :
  b = a ∨ AddressMap.contains m b = true →
  AddressMap.contains (AddressMap.insert m a) b = true.
Proof.
  unfold AddressMap.insert. intros Hb.
  destruct (AddressMap.contains m a) eqn:Hc.
  - by destruct Hb as [->|].
  - rewrite contains_true. cbn. destruct Hb as [->|Hb].
    + right. rewrite lookup_insert_eq. by eexists.
    + apply contains_true in Hb as [Hb|Hb]; [by left|right].
      rewrite lookup_insert_is_Some. destruct (decide (a = b)); auto.
Qed.

Lemma foldl_insert_inv l : ∀ m,
  addrmap_inv m →
  addrmap_inv (foldl AddressMap.insert m l) ∧
  ∀ a, a ∈ l ∨ AddressMap.contains m a = true →
       AddressMap.contains (foldl AddressMap.insert m l) a = true.
Proof.
  induction l as [|x l IH]; intros m Hinv; cbn [foldl].
  - split; [done|]. intros a [Ha|Ha]; [by apply elem_of_nil in Ha|done].
  - destruct (IH (AddressMap.insert m x) (insert_inv m x Hinv)) as [Hinv' Hc].
    split; [done|]. intros a Ha. apply Hc.
    destruct Ha as [Ha|Ha].
    + apply elem_of_cons in Ha as [->|Ha]; [|by left].
      right. apply insert_contains. by left.
    + right. apply insert_contains. by right.
Qed.

Lemma add_addr_flag_inv ndebug m a flag m' :
  addrmap_inv m →
  flag ≠ AddressMap.DISASM_REGION_UNMAPPED →
  AddressMap.add_addr_flag ndebug m a flag = Some m' →
  addrmap_inv m'.
Proof.
  intros (Hok & Hdisj & Hnz) Hflag H. unfold AddressMap.add_addr_flag in H.
  destruct (assert ndebug (AddressMap.contains m a)); [|done]. cbn in H.
  destruct (AddressMap.contains m a) eqn:Hc; [|by simplify_eq].
  rewrite bool_decide_eq_true_2 in H by done. simplify_eq.
  pose proof (erase_unmapped_ok m a Hok) as Hok'.
  split; [done|]. split; cbn.
  - intros b Hb. destruct (decide (b = a)) as [->|Hne].
    + apply erase_unmapped_lookup_eq.
    + rewrite lookup_insert_ne, erase_unmapped_addrmap in Hb by done.
      apply eq_None_not_Some. intros Hs.
      apply erase_unmapped_lookup_sub in Hs; [|done].
      rewrite (Hdisj b Hb) in Hs. by destruct Hs.
  - intros b ty. rewrite erase_unmapped_addrmap.
    destruct (decide (b = a)) as [->|Hne].
    + rewrite lookup_insert_eq. intros ?; simplify_eq.
      unfold AddressMap.DISASM_REGION_UNMAPPED in *.
      rewrite Z.lor_eq_0_iff. tauto.
    + rewrite lookup_insert_ne by done. apply Hnz.
Qed.

Lemma add_addr_flag_contains ndebug m a flag m' b :
  AddressMap.add_addr_flag ndebug m a flag = Some m' →
  AddressMap.contains m b = true →
  AddressMap.contains m' b = true.
Proof.
  intros H Hb. unfold AddressMap.add_addr_flag in H.
  destruct (assert ndebug (AddressMap.contains m a)); [|done]. cbn in H.
  destruct (AddressMap.contains m a) eqn:Hc; [|by simplify_eq].
  simplify_eq. rewrite contains_true. cbn.
  destruct (decide (b = a)) as [->|Hne].
  { left. rewrite lookup_insert_eq. by eexists. }
  rewrite lookup_insert_ne by done.
  apply contains_true in Hb. case_bool_decide; [|done].
  rewrite erase_unmapped_addrmap. destruct Hb as [Hb|Hb]; [by left|right].
  by apply erase_unmapped_lookup_ne.
Qed.

Lemma engine_run_inv ndebug sec m :
  engine_run ndebug sec m →
  addrmap_inv m ∧
  ∀ a, a ∈ section_addresses sec → AddressMap.contains m a = true.
Proof.
  induction 1 as [|m a flag m' Hrun [Hinv Hc] Hflag Hadd].
  - destruct (foldl_insert_inv (section_addresses sec) _ addrmap_inv_empty) as [Hinv Hc].
    split; [done|]. intros a Ha. apply Hc. by left.
  - split.
    + eapply add_addr_flag_inv; [done| |done].
      intros ->.
      repeat (apply elem_of_cons in Hflag as [Hflag|Hflag]; [done|]).
      by apply elem_of_nil in Hflag.
    + intros b Hb. eapply add_addr_flag_contains; [done|]. by apply Hc.
Qed.

(** C2. Address-map partition: at every point of a run, on a section that
    lies within the 64-bit address space, every address of the section is
    known to [contains] and is in exactly one of two states: tracked as
    unmapped (in the index and in the vector, not in [addrmap]), or mapped
    with flags (in [addrmap] with a mask that is not the empty one, in
    neither the index nor the vector). *)
Theorem address_map_partition (ndebug : bool) (sec : Section) (m : AddressMap.t) (a : Z) :
  0 ≤ sec_vma sec →
  sec_vma sec + sec_size sec < 2 ^ 64 →
  engine_run ndebug sec m →
  in_section sec a →
  AddressMap.contains m a = true ∧
  ((AddressMap.is_unmapped m a ∧ ¬ AddressMap.is_mapped m a) ∨
   (is_flagged m a ∧ ¬ is_Some (AddressMap.unmapped_lookup m !! a) ∧
    (a ∉ AddressMap.unmapped m))).
Proof.
  intros Hvma Hfit Hrun Ha.
  destruct (engine_run_inv ndebug sec m Hrun) as [(Hok & Hdisj & Hnz) Hc].
  assert (AddressMap.contains m a = true) as Hca.
  { apply Hc. unfold section_addresses, in_section in *.
    rewrite wrap64_small by lia. apply elem_of_seqZ. lia. }
  split; [done|].
  apply contains_true in Hca.
  destruct (AddressMap.addrmap m !! a) as [ty|] eqn:Hty.
  - right. assert (AddressMap.unmapped_lookup m !! a = None) as Hl
      by (apply Hdisj; by eexists).
    split; [exists ty; split; [done|by eapply Hnz]|].
    split; [rewrite Hl; by intros [? ?]|].
    rewrite (unmapped_ok_elem m a Hok), Hl. by intros [? ?].
  - left. destruct Hca as [[? ?]|Hl]; [done|].
    split; [|unfold AddressMap.is_mapped; rewrite Hty; by intros [? ?]].
    split; [done|]. by apply unmapped_ok_elem.
Qed.

Lemma address_map_partition_witness :
  ∃ m, flagged_map = Some m ∧
    (AddressMap.contains m 4096 = true ∧
     ((AddressMap.is_unmapped m 4096 ∧ ¬ AddressMap.is_mapped m 4096) ∨
      (is_flagged m 4096 ∧ ¬ is_Some (AddressMap.unmapped_lookup m !! 4096) ∧
       (4096 ∉ AddressMap.unmapped m)))) ∧
    (AddressMap.contains m 4097 = true ∧
     ((AddressMap.is_unmapped m 4097 ∧ ¬ AddressMap.is_mapped m 4097) ∨
      (is_flagged m 4097 ∧ ¬ is_Some (AddressMap.unmapped_lookup m !! 4097) ∧
       (4097 ∉ AddressMap.unmapped m)))) ∧
    AddressMap.addrmap m !! 4096 = Some AddressMap.DISASM_REGION_BB_START ∧
    AddressMap.unmapped m = [4097].
Proof.
  destruct flagged_map as [m|] eqn:Hm; [|discriminate Hm].
  assert (engine_run false (toy_section [x90; xc3]) m) as Hrun.
  { apply (run_flag false _ (init_addrmap (toy_section [x90; xc3])) 4096
             AddressMap.DISASM_REGION_BB_START m);
      [apply run_init|apply elem_of_cons; by left|exact Hm]. }
  exists m. split; [reflexivity|]. split; [|split].
  - apply (address_map_partition false (toy_section [x90; xc3]) m 4096);
      [cbn; lia|cbn; lia|exact Hrun|unfold in_section; cbn; lia].
  - apply (address_map_partition false (toy_section [x90; xc3]) m 4097);
      [cbn; lia|cbn; lia|exact Hrun|unfold in_section; cbn; lia].
  - vm_compute in Hm. injection Hm as <-. split; reflexivity.
Defined.

(** Without the bound on the section the property fails: for a section
    that ends at [2^64] the loop of [init_disasm] inserts nothing, and the
    map does not contain the address of the section. *)
Lemma address_map_partition_claim_fails : ¬ address_map_partition_claim.
Proof.
  intros Hclaim.
  destruct (Hclaim false top_section (init_addrmap top_section) (2 ^ 64 - 1)) as [Hc _].
  - unfold uint64. cbn. lia.
  - unfold uint64. cbn. lia.
  - apply run_init.
  - unfold in_section. cbn. lia.
  - vm_compute in Hc. discriminate Hc.
Qed.

(** ** Recording the survivors *)

Lemma has_flag_lor ty flag g :
  Z.land ty g = g → Z.land (Z.lor ty flag) g = g.
Proof.
  intros H. apply Z.bits_inj'. intros n Hn.
  assert (Z.testbit ty n && Z.testbit g n = Z.testbit g n) as Hb
    by (by rewrite <- Z.land_spec, H).
  rewrite Z.land_spec, Z.lor_spec.
  by destruct (Z.testbit ty n), (Z.testbit flag n), (Z.testbit g n).
Qed.

Lemma has_flag_lor_self ty flag : Z.land (Z.lor ty flag) flag = flag.
Proof.
  apply Z.bits_inj'. intros n Hn. rewrite Z.land_spec, Z.lor_spec.
  by destruct (Z.testbit ty n), (Z.testbit flag n).
Qed.

Lemma add_addr_flag_contained ndebug m a flag :
  AddressMap.contains m a = true →
  let m1 := if bool_decide (flag ≠ AddressMap.DISASM_REGION_UNMAPPED)
            then AddressMap.erase_unmapped m a else m in
  AddressMap.add_addr_flag ndebug m a flag =
    Some (AddressMap.mk
            (<[a := Z.lor (AddressMap.deref (AddressMap.addrmap m) a) flag]>
               (AddressMap.addrmap m))
            (AddressMap.unmapped m1) (AddressMap.unmapped_lookup m1)).
Proof.
  intros Hc m1. unfold AddressMap.add_addr_flag, assert.
  rewrite Hc, orb_true_r. cbn. fold m1.
  assert (AddressMap.addrmap m1 = AddressMap.addrmap m) as ->; [|done].
  unfold m1. case_bool_decide; [apply erase_unmapped_addrmap|done].
Qed.

(** One [add_addr_flag] on an address that the map contains: it succeeds,
    sets the flag, keeps every flag that was set and leaves the entries of
    the other addresses alone. *)
Lemma add_addr_flag_spec ndebug m a flag :
  AddressMap.contains m a = true →
  ∃ m', AddressMap.add_addr_flag ndebug m a flag = Some m' ∧
        AddressMap.has_flag m' a flag ∧
        (∀ b g, AddressMap.has_flag m b g → AddressMap.has_flag m' b g) ∧
        (∀ b, AddressMap.contains m b = true → AddressMap.contains m' b = true) ∧
        (∀ b, b ≠ a → AddressMap.addrmap m' !! b = AddressMap.addrmap m !! b).
Proof.
  intros Hc. pose proof (add_addr_flag_contained ndebug m a flag Hc) as H.
  cbv zeta in H. eexists. split; [exact H|].
  split; [|split; [|split; [intros b; by apply (add_addr_flag_contains ndebug m a flag)|]]].
  - unfold AddressMap.has_flag. cbn [AddressMap.addrmap].
    eexists. rewrite lookup_insert_eq. split; [done|]. apply has_flag_lor_self.
  - intros b g (ty & Hty & Hg). unfold AddressMap.has_flag. cbn [AddressMap.addrmap].
    destruct (decide (b = a)) as [->|Hne].
    + rewrite lookup_insert_eq. eexists. split; [done|].
      unfold AddressMap.deref. rewrite Hty. cbn. by apply has_flag_lor.
    + rewrite lookup_insert_ne by done. by exists ty.
  - intros b Hne. cbn [AddressMap.addrmap]. by rewrite lookup_insert_ne.
Qed.






(** A survivor whose range leaves the section: the block that the decoder
    makes of the one-byte section [d6] is [overlong_block] but for [alive];
    recording it aborts on the [assert] of [add_addr_flag], and without
    assertions the address past the section stays without flag. *)
Example survivor_outside_map :
  option_map (λ r, (r.1, set_alive r.2)) (toy_block (BIN_TYPE_other 0) [xd6] 4096)
    = Some (0, overlong_block) ∧
  accept_mutants false (toy_dis [xd6]) [] [overlong_block] 1 = Aborted ∧
  ∃ dis' Q',
    accept_mutants true (toy_dis [xd6]) [] [overlong_block] 1 = Returns (dis', Q') ∧
    AddressMap.addrmap (dis_addrmap dis') !! 4097 = None.
Proof.
  split; [vm_compute; reflexivity|]. split; [vm_compute; reflexivity|].
  eexists _, _. split; [vm_compute; reflexivity|]. reflexivity.
Qed.

(** ** The engine stays within the runs

    The address maps that the worklist goes through are those of
    [engine_run]: the engine changes the map by [add_addr_flag] alone, with
    the three flags of the accept path. *)

Lemma add_addr_flags_run ndebug sec flag addrs : ∀ m m',
  engine_run ndebug sec m →
  flag ∈ [AddressMap.DISASM_REGION_BB_START; AddressMap.DISASM_REGION_INS_START;
          AddressMap.DISASM_REGION_CODE] →
  add_addr_flags ndebug m addrs flag = Some m' →
  engine_run ndebug sec m'.
Proof.
  induction addrs as [|a addrs IH]; intros m m' Hrun Hflag H; cbn in H.
  - by simplify_eq.
  - destruct (AddressMap.add_addr_flag ndebug m a flag) as [m1|] eqn:H1; [|done].
    cbn in H. eapply IH; [|done|done]. by eapply run_flag.
Qed.

Lemma accept_bb_run ndebug sec dis Q bb dis' Q' :
  engine_run ndebug sec (dis_addrmap dis) →
  accept_bb ndebug dis Q bb = Some (dis', Q') →
  engine_run ndebug sec (dis_addrmap dis').
Proof.
  intros Hrun H. unfold accept_bb in H.
  destruct (AddressMap.add_addr_flag _ _ _ _) as [m1|] eqn:H1; [|done]. cbn in H.
  destruct (add_addr_flags _ m1 _ _) as [m2|] eqn:H2; [|done]. cbn in H.
  destruct (add_addr_flags _ m2 _ _) as [m3|] eqn:H3; [|done]. cbn in H.
  simplify_eq. cbn.
  eapply add_addr_flags_run; [|by repeat constructor|done].
  eapply add_addr_flags_run; [|by repeat constructor|done].
  eapply run_flag; [done|by repeat constructor|done].
Qed.

Lemma accept_mutants_run ndebug sec mutants : ∀ dis Q n dis' Q',
  engine_run ndebug sec (dis_addrmap dis) →
  accept_mutants ndebug dis Q mutants n = Returns (dis', Q') →
  engine_run ndebug sec (dis_addrmap dis').
Proof.
  induction mutants as [|m rest IH]; intros dis Q n dis' Q' Hrun H; cbn in H.
  - destruct (n <=? 0); by simplify_eq.
  - destruct (n <=? 0); [by simplify_eq|].
    destruct (bb_alive m); [|by eapply IH].
    destruct (accept_bb ndebug dis Q m) as [[dis1 Q1]|] eqn:H1; [|done].
    eapply IH; [|done]. by eapply accept_bb_run.
Qed.

Lemma disasm_worklist_run cs st ndebug bin sec fuel : ∀ dis Q ret dis',
  engine_run ndebug sec (dis_addrmap dis) →
  disasm_worklist cs st ndebug bin fuel dis Q = Returns (ret, dis') →
  engine_run ndebug sec (dis_addrmap dis').
Proof.
  induction fuel as [|fuel IH]; intros dis Q ret dis' Hrun H;
    destruct Q as [|parent Q1]; cbn [disasm_worklist] in H; try by simplify_eq.
  destruct (disasm_mutants _ _ _ _ _) as [[mutants1|]| | |]; try by simplify_eq.
  destruct (bb_select _ _ _ _) as [r mutants2].
  destruct (select_count r <? 0); [by simplify_eq|].
  destruct (accept_mutants _ _ _ _ _) as [[dis1 Q']| | |] eqn:Hacc; try done.
  eapply IH; [|done]. by eapply accept_mutants_run.
Qed.

(** Every section that [init_disasm] sets up starts a run, and the section
    as [nucleus_disasm_section] leaves it is at a point of that run. *)
Lemma nucleus_disasm_section_run cs st opts ndebug bin fuel dis ret dis' :
  dis ∈ init_disasm opts bin →
  nucleus_disasm_section cs st opts ndebug bin fuel dis = Returns (ret, dis') →
  engine_run ndebug (dis_section dis) (dis_addrmap dis').
Proof.
  intros Hin H. unfold init_disasm in Hin. rewrite map_fmap in Hin.
  apply list_elem_of_fmap in Hin as (sec & -> & _). cbn [dis_section].
  unfold nucleus_disasm_section in H.
  destruct (_ && _).
  - simplify_eq. cbn. apply run_init.
  - eapply disasm_worklist_run; [|done]. cbn. apply run_init.
Qed.

(** ** The states of the class *)

(** Vector and index agree in every state of the class. *)
Lemma built_unmapped_ok ndebug m : built ndebug m → AddressMap.unmapped_ok m.
Proof.
  induction 1 as [|m a _ IH|m a ty m' _ IH H|m a ty m' _ IH H|m a flag m' _ IH H
                  |m a _ IH|m a _ IH].
  - apply unmapped_ok_empty.
  - by apply insert_unmapped_ok.
  - unfold AddressMap.get_addr_type in H.
    destruct (assert _ _); [|done]. cbn in H.
    destruct (negb _); by simplify_eq.
  - unfold AddressMap.set_addr_type in H.
    destruct (assert _ _); [|done]. cbn in H.
    destruct (AddressMap.contains m a); [|by simplify_eq].
    simplify_eq. case_bool_decide; [|done].
    intros b i. cbn. by apply erase_unmapped_ok.
  - unfold AddressMap.add_addr_flag in H.
    destruct (assert _ _); [|done]. cbn in H.
    destruct (AddressMap.contains m a); [|by simplify_eq].
    simplify_eq. case_bool_decide; [|done].
    intros b i. cbn. by apply erase_unmapped_ok.
  - unfold AddressMap.erase. apply erase_unmapped_ok.
    by destruct (AddressMap.count _ _).
  - by apply erase_unmapped_ok.
Qed.

Lemma erase_unmapped_consistent_witness :
  let m := init_addrmap (toy_section [x90; xc3]) in
  let m' := AddressMap.erase_unmapped m 4096 in
  AddressMap.unmapped_lookup m' !! 4096 = None ∧
  (4096 ∉ AddressMap.unmapped m') ∧
  (∀ a, a ≠ 4096 →
        a ∈ AddressMap.unmapped m ∨ is_Some (AddressMap.unmapped_lookup m !! a) →
        ∃ i, AddressMap.unmapped_lookup m' !! a = Some i ∧
             AddressMap.get_unmapped m' i = Some a) ∧
  AddressMap.unmapped_ok m' ∧
  AddressMap.addrmap m' = AddressMap.addrmap m.
Proof.
  apply (erase_unmapped_consistent (init_addrmap (toy_section [x90; xc3])) 4096).
  apply (built_unmapped_ok false).
  change (init_addrmap (toy_section [x90; xc3]))
    with (AddressMap.insert (AddressMap.insert AddressMap.empty 4096) 4097).
  apply built_insert, built_insert, built_empty.
Defined.

(** * Further properties of AddressMap *)

Lemma insert_addrmap m a :
  AddressMap.addrmap (AddressMap.insert m a) = AddressMap.addrmap m.
Proof. unfold AddressMap.insert. by destruct (AddressMap.contains m a). Qed.

Lemma unmapped_ok_NoDup m : AddressMap.unmapped_ok m → NoDup (AddressMap.unmapped m).
Proof.
  intros Hok. apply NoDup_alt. intros i j x Hi Hj.
  apply Hok in Hi, Hj. congruence.
Qed.

(** X1. Idempotent insertion: a second [insert] of the same address changes
    nothing; after [insert] the address is contained, the vector holds no
    address twice, and an address without an entry in [addrmap] is in the
    vector. *)
Theorem insert_idempotent (m : AddressMap.t) (a : Z) :
  AddressMap.unmapped_ok m →
  AddressMap.insert (AddressMap.insert m a) a = AddressMap.insert m a ∧
  AddressMap.contains (AddressMap.insert m a) a = true ∧
  NoDup (AddressMap.unmapped (AddressMap.insert m a)) ∧
  (AddressMap.addrmap m !! a = None → a ∈ AddressMap.unmapped (AddressMap.insert m a)).
Proof.
  intros Hok.
  assert (AddressMap.contains (AddressMap.insert m a) a = true) as Hc
    by (apply insert_contains; by left).
  split. { unfold AddressMap.insert at 1. by rewrite Hc. }
  split; [done|].
  pose proof (insert_unmapped_ok m a Hok) as Hok'.
  split; [by apply unmapped_ok_NoDup|].
  intros Ham. apply (unmapped_ok_elem _ _ Hok').
  apply contains_true in Hc as [Hc|Hc]; [|done].
  rewrite insert_addrmap, Ham in Hc. by destruct Hc.
Qed.

Lemma insert_idempotent_witness :
  AddressMap.insert (AddressMap.insert AddressMap.empty 7) 7 = AddressMap.insert AddressMap.empty 7 ∧
  AddressMap.contains (AddressMap.insert AddressMap.empty 7) 7 = true ∧
  NoDup (AddressMap.unmapped (AddressMap.insert AddressMap.empty 7)) ∧
  (AddressMap.addrmap AddressMap.empty !! 7 = None →
   7 ∈ AddressMap.unmapped (AddressMap.insert AddressMap.empty 7)).
Proof. apply (insert_idempotent AddressMap.empty 7). apply unmapped_ok_empty. Defined.

(** X2. The size of the unmapped set: [insert] of an address that the map
    does not contain puts it at the end of the vector, which grows by one
    and keeps its other entries; [erase_unmapped] of a tracked address
    shrinks the vector by one; [erase_unmapped] of an address that is not
    tracked changes nothing. *)
Theorem unmapped_count_steps (m : AddressMap.t) (a : Z) :
  AddressMap.unmapped_ok m →
  (AddressMap.contains m a = false →
   AddressMap.unmapped_count (AddressMap.insert m a) = S (AddressMap.unmapped_count m) ∧
   AddressMap.get_unmapped (AddressMap.insert m a) (AddressMap.unmapped_count m) = Some a ∧
   ∀ i, (i < AddressMap.unmapped_count m)%nat →
        AddressMap.get_unmapped (AddressMap.insert m a) i = AddressMap.get_unmapped m i) ∧
  (is_Some (AddressMap.unmapped_lookup m !! a) →
   S (AddressMap.unmapped_count (AddressMap.erase_unmapped m a)) = AddressMap.unmapped_count m) ∧
  (AddressMap.unmapped_lookup m !! a = None → AddressMap.erase_unmapped m a = m).
Proof.
  intros Hok. split; [|split].
  - intros Hc. unfold AddressMap.insert, AddressMap.unmapped_count, AddressMap.get_unmapped.
    rewrite Hc. cbn. rewrite length_app. cbn. split; [lia|]. split.
    + by rewrite list_lookup_middle.
    + intros i Hi. by rewrite lookup_app_l.
  - intros [i Hl]. pose proof (proj1 (Hok _ _) Hl) as Hu.
    apply lookup_lt_Some in Hu.
    unfold AddressMap.erase_unmapped, AddressMap.unmapped_count. rewrite Hl.
    case_bool_decide; [destruct (last _)|]; cbn;
      rewrite length_take, ?length_insert; lia.
  - intros Hl. unfold AddressMap.erase_unmapped. by rewrite Hl.
Qed.

Lemma unmapped_count_steps_witness :
  let m := AddressMap.insert AddressMap.empty 7 in
  (AddressMap.contains m 9 = false →
   AddressMap.unmapped_count (AddressMap.insert m 9) = S (AddressMap.unmapped_count m) ∧
   AddressMap.get_unmapped (AddressMap.insert m 9) (AddressMap.unmapped_count m) = Some 9 ∧
   ∀ i, (i < AddressMap.unmapped_count m)%nat →
        AddressMap.get_unmapped (AddressMap.insert m 9) i = AddressMap.get_unmapped m i) ∧
  (is_Some (AddressMap.unmapped_lookup m !! 9) →
   S (AddressMap.unmapped_count (AddressMap.erase_unmapped m 9)) = AddressMap.unmapped_count m) ∧
  (AddressMap.unmapped_lookup m !! 9 = None → AddressMap.erase_unmapped m 9 = m).
Proof.
  apply (unmapped_count_steps (AddressMap.insert AddressMap.empty 7) 9).
  apply insert_unmapped_ok, unmapped_ok_empty.
Defined.

(** X3. [erase]: the address is no longer contained, in [addrmap] or in the
    unmapped set; whether any other address is contained does not change,
    and vector and index still agree. *)
Theorem erase_removes (m : AddressMap.t) (a : Z) :
  AddressMap.unmapped_ok m →
  AddressMap.contains (AddressMap.erase m a) a = false ∧
  (∀ b, b ≠ a → AddressMap.contains (AddressMap.erase m a) b = AddressMap.contains m b) ∧
  AddressMap.unmapped_ok (AddressMap.erase m a).
Proof.
  intros Hok. unfold AddressMap.erase.
  set (m1 := if AddressMap.count (AddressMap.addrmap m) a
             then AddressMap.mk (delete a (AddressMap.addrmap m)) (AddressMap.unmapped m)
                    (AddressMap.unmapped_lookup m)
             else m).
  assert (AddressMap.unmapped_ok m1) as Hok1
    by (unfold m1; by destruct (AddressMap.count _ _)).
  assert (AddressMap.unmapped_lookup m1 = AddressMap.unmapped_lookup m) as Hlk
    by (unfold m1; by destruct (AddressMap.count _ _)).
  assert (AddressMap.addrmap m1 = delete a (AddressMap.addrmap m)) as Ham.
  { unfold m1. destruct (AddressMap.count _ _) eqn:Hc; [done|].
    symmetry. apply delete_id. apply not_true_iff_false in Hc.
    rewrite count_true in Hc. by apply eq_None_not_Some. }
  split; [|split; [|by apply erase_unmapped_ok]].
  - apply not_true_iff_false. rewrite contains_true.
    rewrite erase_unmapped_addrmap, Ham, lookup_delete_eq, erase_unmapped_lookup_eq.
    intros [[? ?]|[? ?]]; done.
  - intros b Hne. apply Bool.eq_iff_eq_true. rewrite !contains_true.
    rewrite erase_unmapped_addrmap, Ham, lookup_delete_ne by done.
    split; (intros [Hb|Hb]; [by left|right]).
    + rewrite <- Hlk. by eapply erase_unmapped_lookup_sub.
    + apply erase_unmapped_lookup_ne; [done|]. by rewrite Hlk.
Qed.

Lemma erase_removes_witness :
  let m := AddressMap.insert (AddressMap.insert AddressMap.empty 7) 9 in
  AddressMap.contains (AddressMap.erase m 7) 7 = false ∧
  (∀ b, b ≠ 7 → AddressMap.contains (AddressMap.erase m 7) b = AddressMap.contains m b) ∧
  AddressMap.unmapped_ok (AddressMap.erase m 7).
Proof.
  apply (erase_removes (AddressMap.insert (AddressMap.insert AddressMap.empty 7) 9) 7).
  apply insert_unmapped_ok, insert_unmapped_ok, unmapped_ok_empty.
Defined.

Lemma assert_true ndebug : assert ndebug true = Some ().
Proof. unfold assert. by rewrite orb_true_r. Qed.

Lemma assert_false ndebug : assert ndebug false = if ndebug then Some () else None.
Proof. unfold assert. by destruct ndebug. Qed.

Lemma addressmap_eta m :
  AddressMap.mk (AddressMap.addrmap m) (AddressMap.unmapped m) (AddressMap.unmapped_lookup m) = m.
Proof. by destruct m. Qed.

(** X4. An address that the map does not contain: in a build with
    assertions [get_addr_type], [set_addr_type] and [add_addr_flag] abort;
    without them the first answers [DISASM_REGION_UNMAPPED] and all three
    leave the map as it is; [erase] leaves the map as it is in both. *)
Theorem uncontained_address (ndebug : bool) (m : AddressMap.t) (a ty : Z) :
  AddressMap.contains m a = false →
  AddressMap.get_addr_type ndebug m a
    = (if ndebug then Some (AddressMap.DISASM_REGION_UNMAPPED, m) else None) ∧
  AddressMap.set_addr_type ndebug m a ty = (if ndebug then Some m else None) ∧
  AddressMap.add_addr_flag ndebug m a ty = (if ndebug then Some m else None) ∧
  AddressMap.erase m a = m.
Proof.
  intros Hc.
  unfold AddressMap.get_addr_type, AddressMap.set_addr_type, AddressMap.add_addr_flag.
  rewrite Hc, assert_false. split_and!; try by destruct ndebug.
  apply not_true_iff_false in Hc. rewrite contains_true in Hc.
  unfold AddressMap.erase.
  assert (AddressMap.count (AddressMap.addrmap m) a = false) as ->.
  { apply not_true_iff_false. rewrite count_true. tauto. }
  unfold AddressMap.erase_unmapped.
  destruct (AddressMap.unmapped_lookup m !! a) eqn:Hl; [|done].
  exfalso. apply Hc. right. by eexists.
Qed.

Lemma uncontained_address_witness :
  AddressMap.get_addr_type false AddressMap.empty 7 = None ∧
  AddressMap.set_addr_type false AddressMap.empty 7 1 = None ∧
  AddressMap.add_addr_flag false AddressMap.empty 7 1 = None ∧
  AddressMap.erase AddressMap.empty 7 = AddressMap.empty.
Proof. apply (uncontained_address false AddressMap.empty 7 1). reflexivity. Defined.

(** X5. Reading the type of an address: a mapped address gives its mask and
    the map is unchanged; an address that is only tracked as unmapped gives
    [DISASM_REGION_UNMAPPED], and the read leaves an entry with the empty
    mask in [addrmap] while the address stays in the unmapped set. *)
Theorem get_addr_type_reads (ndebug : bool) (m : AddressMap.t) (a : Z) :
  (∀ ty, AddressMap.addrmap m !! a = Some ty →
         AddressMap.get_addr_type ndebug m a = Some (ty, m)) ∧
  (AddressMap.addrmap m !! a = None →
   is_Some (AddressMap.unmapped_lookup m !! a) →
   ∃ m', AddressMap.get_addr_type ndebug m a = Some (AddressMap.DISASM_REGION_UNMAPPED, m') ∧
         AddressMap.addrmap m' = <[a := AddressMap.DISASM_REGION_UNMAPPED]> (AddressMap.addrmap m) ∧
         AddressMap.unmapped m' = AddressMap.unmapped m ∧
         AddressMap.unmapped_lookup m' = AddressMap.unmapped_lookup m).
Proof.
  split.
  - intros ty Hty.
    assert (AddressMap.contains m a = true) as Hc
      by (apply contains_true; left; by eexists).
    unfold AddressMap.get_addr_type. rewrite Hc, assert_true. cbn.
    unfold AddressMap.deref. rewrite Hty. cbn.
    rewrite insert_id by done. by rewrite addressmap_eta.
  - intros Ham Hl.
    assert (AddressMap.contains m a = true) as Hc by (apply contains_true; by right).
    unfold AddressMap.get_addr_type. rewrite Hc, assert_true. cbn.
    unfold AddressMap.deref. rewrite Ham. cbn. by eexists.
Qed.

Lemma get_addr_type_reads_witness :
  ∃ m', AddressMap.get_addr_type false (AddressMap.insert AddressMap.empty 7) 7
          = Some (AddressMap.DISASM_REGION_UNMAPPED, m') ∧
        AddressMap.addrmap m'
          = <[7 := AddressMap.DISASM_REGION_UNMAPPED]>
              (AddressMap.addrmap (AddressMap.insert AddressMap.empty 7)) ∧
        AddressMap.unmapped m' = AddressMap.unmapped (AddressMap.insert AddressMap.empty 7) ∧
        AddressMap.unmapped_lookup m'
          = AddressMap.unmapped_lookup (AddressMap.insert AddressMap.empty 7).
Proof.
  apply (get_addr_type_reads false (AddressMap.insert AddressMap.empty 7) 7).
  - reflexivity.
  - by eexists.
Defined.

Lemma addressmap_eq m m' :
  AddressMap.addrmap m = AddressMap.addrmap m' →
  AddressMap.unmapped m = AddressMap.unmapped m' →
  AddressMap.unmapped_lookup m = AddressMap.unmapped_lookup m' →
  m = m'.
Proof. destruct m, m'. cbn. by intros -> -> ->. Qed.

(** [erase_unmapped] reads and writes the vector and the index only. *)
Lemma erase_unmapped_same_parts r m a :
  AddressMap.unmapped r = AddressMap.unmapped m →
  AddressMap.unmapped_lookup r = AddressMap.unmapped_lookup m →
  AddressMap.unmapped (AddressMap.erase_unmapped r a)
    = AddressMap.unmapped (AddressMap.erase_unmapped m a) ∧
  AddressMap.unmapped_lookup (AddressMap.erase_unmapped r a)
    = AddressMap.unmapped_lookup (AddressMap.erase_unmapped m a).
Proof.
  intros Hu Hl. unfold AddressMap.erase_unmapped, AddressMap.unmapped_count.
  rewrite Hu, Hl. destruct (AddressMap.unmapped_lookup m !! a); [|done].
  by destruct (if bool_decide _ then _ else _).
Qed.

Lemma erase_unmapped_twice m a :
  AddressMap.erase_unmapped (AddressMap.erase_unmapped m a) a = AddressMap.erase_unmapped m a.
Proof.
  unfold AddressMap.erase_unmapped at 1. by rewrite erase_unmapped_lookup_eq.
Qed.

Lemma set_addr_type_contained ndebug m a ty :
  AddressMap.contains m a = true →
  let m1 := if bool_decide (ty ≠ AddressMap.DISASM_REGION_UNMAPPED)
            then AddressMap.erase_unmapped m a else m in
  AddressMap.set_addr_type ndebug m a ty =
    Some (AddressMap.mk (<[a := ty]> (AddressMap.addrmap m))
            (AddressMap.unmapped m1) (AddressMap.unmapped_lookup m1)).
Proof.
  intros Hc m1. unfold AddressMap.set_addr_type.
  rewrite Hc, assert_true. cbn. fold m1.
  assert (AddressMap.addrmap m1 = AddressMap.addrmap m) as ->; [|done].
  unfold m1. case_bool_decide; [apply erase_unmapped_addrmap|done].
Qed.

Lemma get_addr_type_mapped ndebug m a ty :
  AddressMap.addrmap m !! a = Some ty →
  AddressMap.get_addr_type ndebug m a = Some (ty, m).
Proof.
  intros Hty.
  assert (AddressMap.contains m a = true) as Hc
    by (apply contains_true; left; by eexists).
  unfold AddressMap.get_addr_type. rewrite Hc, assert_true. cbn.
  unfold AddressMap.deref. rewrite Hty. cbn.
  rewrite insert_id by done. by rewrite addressmap_eta.
Qed.

(** X6. Writing and reading back: on an address that the map contains,
    [set_addr_type] succeeds and [get_addr_type] then gives the type that
    was set, without changing the map again; a type other than
    [DISASM_REGION_UNMAPPED] takes the address out of the unmapped set,
    [DISASM_REGION_UNMAPPED] leaves the unmapped set as it is; the entries
    of the other addresses are kept, and so is the agreement of vector and
    index. *)
Theorem set_get_addr_type (ndebug : bool) (m : AddressMap.t) (a ty : Z) :
  AddressMap.contains m a = true →
  ∃ m1, AddressMap.set_addr_type ndebug m a ty = Some m1 ∧
        AddressMap.get_addr_type ndebug m1 a = Some (ty, m1) ∧
        (ty ≠ AddressMap.DISASM_REGION_UNMAPPED →
         AddressMap.unmapped_lookup m1 !! a = None) ∧
        (ty = AddressMap.DISASM_REGION_UNMAPPED →
         AddressMap.unmapped m1 = AddressMap.unmapped m ∧
         AddressMap.unmapped_lookup m1 = AddressMap.unmapped_lookup m) ∧
        (∀ b, b ≠ a → AddressMap.addrmap m1 !! b = AddressMap.addrmap m !! b) ∧
        (AddressMap.unmapped_ok m → AddressMap.unmapped_ok m1).
Proof.
  intros Hc. eexists. split; [by apply set_addr_type_contained|].
  split; [apply get_addr_type_mapped; cbn; apply lookup_insert_eq|].
  split; [|split; [|split]]; cbn.
  - intros Hty. rewrite bool_decide_eq_true_2 by done. apply erase_unmapped_lookup_eq.
  - intros Hty. by rewrite bool_decide_eq_false_2 by (by intros ?).
  - intros b Hne. by rewrite lookup_insert_ne.
  - intros Hok. case_bool_decide; [|done].
    intros b i. cbn. by apply erase_unmapped_ok.
Qed.

Lemma set_get_addr_type_witness :
  ∃ m1, AddressMap.set_addr_type false (AddressMap.insert AddressMap.empty 7) 7 3 = Some m1 ∧
        AddressMap.get_addr_type false m1 7 = Some (3, m1) ∧
        (3 ≠ AddressMap.DISASM_REGION_UNMAPPED → AddressMap.unmapped_lookup m1 !! 7 = None) ∧
        (3 = AddressMap.DISASM_REGION_UNMAPPED →
         AddressMap.unmapped m1 = AddressMap.unmapped (AddressMap.insert AddressMap.empty 7) ∧
         AddressMap.unmapped_lookup m1
           = AddressMap.unmapped_lookup (AddressMap.insert AddressMap.empty 7)) ∧
        (∀ b, b ≠ 7 → AddressMap.addrmap m1 !! b
                      = AddressMap.addrmap (AddressMap.insert AddressMap.empty 7) !! b) ∧
        (AddressMap.unmapped_ok (AddressMap.insert AddressMap.empty 7) →
         AddressMap.unmapped_ok m1).
Proof.
  apply (set_get_addr_type false (AddressMap.insert AddressMap.empty 7) 7 3).
  reflexivity.
Defined.

(** The vector and the index after [add_addr_flag] with [f] and then with
    [g] on a contained address. *)
Lemma add_addr_flag_twice ndebug m a f g :
  AddressMap.contains m a = true →
  let m12 := if bool_decide (f ≠ AddressMap.DISASM_REGION_UNMAPPED) ||
                bool_decide (g ≠ AddressMap.DISASM_REGION_UNMAPPED)
             then AddressMap.erase_unmapped m a else m in
  ∃ m1, AddressMap.add_addr_flag ndebug m a f = Some m1 ∧
        AddressMap.add_addr_flag ndebug m1 a g =
          Some (AddressMap.mk
                  (<[a := Z.lor (Z.lor (AddressMap.deref (AddressMap.addrmap m) a) f) g]>
                     (AddressMap.addrmap m))
                  (AddressMap.unmapped m12) (AddressMap.unmapped_lookup m12)).
Proof.
  intros Hc m12. eexists. split; [by apply add_addr_flag_contained|].
  rewrite add_addr_flag_contained
    by (apply contains_true; left; cbn; rewrite lookup_insert_eq; by eexists).
  cbn [AddressMap.addrmap]. f_equal. apply addressmap_eq; cbn.
  - unfold AddressMap.deref at 1. rewrite lookup_insert_eq. cbn.
    by rewrite insert_insert_eq.
  - unfold m12. do 2 case_bool_decide; cbn; try done.
    + match goal with
      | |- AddressMap.unmapped (AddressMap.erase_unmapped ?r a) = _ =>
          destruct (erase_unmapped_same_parts r (AddressMap.erase_unmapped m a) a)
            as [-> _]; [done..|]
      end.
      by rewrite erase_unmapped_twice.
    + match goal with
      | |- AddressMap.unmapped (AddressMap.erase_unmapped ?r a) = _ =>
          by destruct (erase_unmapped_same_parts r m a) as [-> _]
      end.
  - unfold m12. do 2 case_bool_decide; cbn; try done.
    + match goal with
      | |- AddressMap.unmapped_lookup (AddressMap.erase_unmapped ?r a) = _ =>
          destruct (erase_unmapped_same_parts r (AddressMap.erase_unmapped m a) a)
            as [_ ->]; [done..|]
      end.
      by rewrite erase_unmapped_twice.
    + match goal with
      | |- AddressMap.unmapped_lookup (AddressMap.erase_unmapped ?r a) = _ =>
          by destruct (erase_unmapped_same_parts r m a) as [_ ->]
      end.
Qed.

(** X7. Flags accumulate: on a contained address, [add_addr_flag] with [f]
    and then with [g] leaves the mask [old | f | g]; the two calls in the
    other order end in the same map; and a second call with the same flag
    changes nothing. *)
Theorem add_addr_flag_compose (ndebug : bool) (m : AddressMap.t) (a f g : Z) :
  AddressMap.contains m a = true →
  ∃ m1 m2,
    AddressMap.add_addr_flag ndebug m a f = Some m1 ∧
    AddressMap.add_addr_flag ndebug m1 a g = Some m2 ∧
    AddressMap.addrmap m2 !! a
      = Some (Z.lor (Z.lor (AddressMap.deref (AddressMap.addrmap m) a) f) g) ∧
    (∃ m1', AddressMap.add_addr_flag ndebug m a g = Some m1' ∧
            AddressMap.add_addr_flag ndebug m1' a f = Some m2) ∧
    AddressMap.add_addr_flag ndebug m1 a f = Some m1.
Proof.
  intros Hc.
  destruct (add_addr_flag_twice ndebug m a f g Hc) as (m1 & H1 & H2).
  destruct (add_addr_flag_twice ndebug m a g f Hc) as (m1' & H1' & H2').
  destruct (add_addr_flag_twice ndebug m a f f Hc) as (m1'' & H1'' & H2'').
  exists m1. eexists. split; [done|]. split; [exact H2|].
  split; [cbn; apply lookup_insert_eq|]. split.
  - exists m1'. split; [done|]. rewrite H2'. f_equal.
    rewrite <- !Z.lor_assoc, (Z.lor_comm g f), (orb_comm (bool_decide (g ≠ _))). done.
  - assert (m1'' = m1) as -> by congruence. rewrite H2''.
    rewrite add_addr_flag_contained in H1 by done. simplify_eq. f_equal.
    rewrite <- Z.lor_assoc, Z.lor_diag. rewrite orb_diag. done.
Qed.

Lemma add_addr_flag_compose_witness :
  ∃ m1 m2,
    AddressMap.add_addr_flag false (AddressMap.insert AddressMap.empty 7) 7 1 = Some m1 ∧
    AddressMap.add_addr_flag false m1 7 256 = Some m2 ∧
    AddressMap.addrmap m2 !! 7
      = Some (Z.lor (Z.lor (AddressMap.deref
                              (AddressMap.addrmap (AddressMap.insert AddressMap.empty 7)) 7) 1) 256) ∧
    (∃ m1', AddressMap.add_addr_flag false (AddressMap.insert AddressMap.empty 7) 7 256 = Some m1' ∧
            AddressMap.add_addr_flag false m1' 7 1 = Some m2) ∧
    AddressMap.add_addr_flag false m1 7 1 = Some m1.
Proof.
  apply (add_addr_flag_compose false (AddressMap.insert AddressMap.empty 7) 7 1 256).
  reflexivity.
Defined.

Lemma insert_contains_other m a b :
  b ≠ a → AddressMap.contains (AddressMap.insert m a) b = AddressMap.contains m b.
Proof.
  intros Hne. unfold AddressMap.insert.
  destruct (AddressMap.contains m a); [done|].
  unfold AddressMap.contains, AddressMap.count. cbn. by rewrite lookup_insert_ne.
Qed.

Lemma foldl_insert_fresh l : ∀ m,
  NoDup l →
  (∀ a, a ∈ l → AddressMap.contains m a = false) →
  AddressMap.unmapped (foldl AddressMap.insert m l) = AddressMap.unmapped m ++ l ∧
  AddressMap.addrmap (foldl AddressMap.insert m l) = AddressMap.addrmap m.
Proof.
  induction l as [|x l IH]; intros m Hnd Hfresh; cbn [foldl].
  - by rewrite app_nil_r.
  - apply NoDup_cons in Hnd as [Hx Hnd].
    destruct (IH (AddressMap.insert m x) Hnd) as [Hu Ha].
    { intros a Ha. rewrite insert_contains_other by (intros ->; done).
      apply Hfresh. by right. }
    rewrite Hu, Ha, insert_addrmap. split; [|done].
    unfold AddressMap.insert. rewrite (Hfresh x) by by left. cbn.
    by rewrite <- app_assoc.
Qed.

(** X8. The map that [init_disasm] builds for a section within the 64-bit
    address space: [addrmap] is empty, the vector lists the addresses of the
    section in ascending order, the index sends the address [vma + i] to
    [i], the map contains exactly the addresses of the section, and
    [unmapped_count] is the size of the section. *)
Theorem init_addrmap_tracks (sec : Section) :
  0 ≤ sec_vma sec →
  0 ≤ sec_size sec →
  sec_vma sec + sec_size sec < 2 ^ 64 →
  let m := init_addrmap sec in
  AddressMap.addrmap m = ∅ ∧
  AddressMap.unmapped m = seqZ (sec_vma sec) (sec_size sec) ∧
  (∀ i, 0 ≤ i < sec_size sec →
        AddressMap.get_unmapped m (Z.to_nat i) = Some (sec_vma sec + i) ∧
        AddressMap.unmapped_lookup m !! (sec_vma sec + i) = Some (Z.to_nat i)) ∧
  (∀ a, AddressMap.contains m a = true ↔ in_section sec a) ∧
  Z.of_nat (AddressMap.unmapped_count m) = sec_size sec.
Proof.
  intros Hvma Hsize Hfit m.
  destruct (foldl_insert_inv (section_addresses sec) _ addrmap_inv_empty)
    as [(Hok & _ & _) Hc].
  destruct (foldl_insert_fresh (section_addresses sec) AddressMap.empty) as [Hu Ha].
  { apply NoDup_seqZ. }
  { intros a _. reflexivity. }
  fold (init_addrmap sec) in Hok, Hc, Hu, Ha. fold m in Hok, Hc, Hu, Ha.
  assert (section_addresses sec = seqZ (sec_vma sec) (sec_size sec)) as Hsa.
  { unfold section_addresses. rewrite wrap64_small by lia. f_equal. lia. }
  rewrite Hsa in *. cbn in Hu, Ha.
  assert (∀ i, 0 ≤ i < sec_size sec →
               AddressMap.unmapped m !! Z.to_nat i = Some (sec_vma sec + i)) as Hget.
  { intros i Hi. rewrite Hu, lookup_seqZ_lt by lia. f_equal. lia. }
  split; [done|]. split; [done|]. split; [|split].
  - intros i Hi. split; [by apply Hget|]. apply Hok. by apply Hget.
  - intros a. split.
    + intros Hca. apply contains_true in Hca as [[ty Hty]|Hl].
      * rewrite Ha in Hty. cbn in Hty. by rewrite lookup_empty in Hty.
      * apply (unmapped_ok_elem m a Hok) in Hl. rewrite Hu in Hl.
        apply elem_of_seqZ in Hl. unfold in_section. lia.
    + intros Hin. apply Hc. left. apply elem_of_seqZ. unfold in_section in Hin. lia.
  - unfold AddressMap.unmapped_count. rewrite Hu, length_seqZ. lia.
Qed.

Lemma init_addrmap_tracks_witness :
  let m := init_addrmap (toy_section [x90; xc3]) in
  AddressMap.addrmap m = ∅ ∧
  AddressMap.unmapped m = seqZ 4096 2 ∧
  (∀ i, 0 ≤ i < 2 →
        AddressMap.get_unmapped m (Z.to_nat i) = Some (4096 + i) ∧
        AddressMap.unmapped_lookup m !! (4096 + i) = Some (Z.to_nat i)) ∧
  (∀ a, AddressMap.contains m a = true ↔ in_section (toy_section [x90; xc3]) a) ∧
  Z.of_nat (AddressMap.unmapped_count m) = 2.
Proof.
  apply (init_addrmap_tracks (toy_section [x90; xc3])); cbn; lia.
Defined.

(** X9. A section that reaches the top of the address space: the bound
    [vma + size] of the loop in [init_disasm] wraps below [vma], the loop
    body never runs and the map stays empty, so that not even the first
    address of the section is contained. *)
Theorem init_addrmap_wraps (sec : Section) :
  uint64 (sec_vma sec) →
  uint64 (sec_size sec) →
  2 ^ 64 ≤ sec_vma sec + sec_size sec →
  init_addrmap sec = AddressMap.empty ∧
  AddressMap.contains (init_addrmap sec) (sec_vma sec) = false.
Proof.
  unfold uint64. intros Hvma Hsize Hwrap.
  assert (init_addrmap sec = AddressMap.empty) as ->; [|done].
  unfold init_addrmap, section_addresses.
  assert (wrap64 (sec_vma sec + sec_size sec) = sec_vma sec + sec_size sec - 2 ^ 64) as ->.
  { unfold wrap64. symmetry. apply (Z.mod_unique_pos _ _ 1); lia. }
  rewrite seqZ_nil by lia. done.
Qed.

Lemma init_addrmap_wraps_witness :
  init_addrmap (mk_Section ".top" SEC_TYPE_CODE (2 ^ 64 - 1) 1 [x90]) = AddressMap.empty ∧
  AddressMap.contains (init_addrmap (mk_Section ".top" SEC_TYPE_CODE (2 ^ 64 - 1) 1 [x90]))
    (2 ^ 64 - 1) = false.
Proof.
  apply (init_addrmap_wraps (mk_Section ".top" SEC_TYPE_CODE (2 ^ 64 - 1) 1 [x90]));
    unfold uint64; cbn; lia.
Defined.

(** * Further properties of the decoder *)

Lemma bb_finalize_fields (c : bool) st b :
  let r := (if c then bb_mark_invalid else id) (bb_finish st b) in
  bb_insns r = bb_insns b ∧ bb_start r = bb_start b ∧ bb_section r = bb_section b ∧
  bb_alive r = bb_alive b ∧ bb_padding r = bb_padding b ∧
  bb_privileged r = bb_privileged b ∧ bb_trap r = bb_trap b.
Proof. by destruct c, st. Qed.

Lemma foldl_bb_append_fields bin decoded : ∀ bb,
  let r := foldl (bb_append bin) bb decoded in
  bb_section r = bb_section bb ∧ bb_alive r = bb_alive bb ∧
  bb_invalid r = bb_invalid bb ∧
  bb_padding r = bb_padding bb || existsb (is_nop bin) decoded ∧
  bb_privileged r = bb_privileged bb || existsb is_cs_privileged_ins decoded ∧
  bb_trap r = bb_trap bb || existsb is_cs_trap_ins decoded.
Proof.
  induction decoded as [|i d IH]; intros bb; cbn.
  - by rewrite !orb_false_r.
  - destruct (IH (bb_append bin bb i)) as (-> & -> & -> & -> & -> & ->). cbn.
    by rewrite !orb_assoc.
Qed.

Lemma appended_insns_app bb bb' l :
  bb_insns bb' = bb_insns bb ++ l → appended_insns bb bb' = l.
Proof. intros H. unfold appended_insns. by rewrite H, drop_app_length. Qed.

Lemma existsb_map {A B} (f : B → bool) (g : A → B) l :
  existsb f (map g l) = existsb (λ x, f (g x)) l.
Proof. induction l as [|x l IH]; cbn; [done|]. by rewrite IH. Qed.

Lemma existsb_ext' {A} (f g : A → bool) l :
  (∀ x, f x = g x) → existsb f l = existsb g l.
Proof. intros H. induction l as [|x l IH]; cbn; [done|]. by rewrite H, IH. Qed.

(** X10. Hard errors of the block decoder: [nucleus_disasm_bb] returns, and
    it returns -1 exactly when the architecture is not x86, or the library
    cannot be set up (bit width other than 16, 32 and 64, [cs_open] or
    [cs_malloc] failing), or the start lies outside the section; it then
    leaves the block as it was. Otherwise the result is the number of
    instructions that the call appended, and start and [alive] are kept and
    the block refers to the section. *)
Theorem hard_error_iff (cs : Capstone) (bin : Binary) (dis : DisasmSection) (bb : BB) :
  let sec := dis_section dis in
  cs_decode_ok cs →
  uint64 (sec_vma sec) →
  uint64 (bb_start bb) →
  ∃ ret bb',
    nucleus_disasm_bb cs bin dis bb = Some (ret, bb') ∧
    (ret = -1 ∨ 0 ≤ ret) ∧
    (ret = -1 ↔ bin_arch bin ≠ ARCH_X86 ∨ cs_ready cs bin = false ∨
               ¬ in_section sec (bb_start bb)) ∧
    (ret = -1 → bb' = bb) ∧
    (0 ≤ ret →
     Z.of_nat (length (bb_insns bb')) = Z.of_nat (length (bb_insns bb)) + ret ∧
     bb_start bb' = bb_start bb ∧ bb_alive bb' = bb_alive bb ∧
     bb_section bb' = Some sec).
Proof.
  intros sec Hok Hvma Hstart. unfold uint64, in_section in *.
  unfold nucleus_disasm_bb.
  destruct (bin_arch bin) eqn:Harch.
  2:{ exists (-1), bb. split; [done|]. split; [by left|]. split; [|split; [done|lia]].
      split; [intros _; by left|done]. }
  unfold nucleus_disasm_bb_x86, cs_ready. fold sec.
  destruct (bits_mode (bin_bits bin)) as [mode|].
  2:{ exists (-1), bb. split; [done|]. split; [by left|]. split; [|split; [done|lia]].
      split; [intros _; right; by left|done]. }
  destruct (cs_open cs mode); cbn [negb andb].
  2:{ exists (-1), bb. split; [done|]. split; [by left|]. split; [|split; [done|lia]].
      split; [intros _; right; by left|done]. }
  destruct (cs_malloc cs mode); cbn [negb].
  2:{ exists (-1), bb. split; [done|]. split; [by left|]. split; [|split; [done|lia]].
      split; [intros _; right; by left|done]. }
  destruct (Z.ltb_spec (bb_start bb) (sec_vma sec)); cbn [orb].
  { exists (-1), bb. split; [done|]. split; [by left|]. split; [|split; [done|lia]].
    split; [intros _; right; right; lia|done]. }
  rewrite wrap64_small by lia.
  destruct (Z.leb_spec (sec_size sec) (bb_start bb - sec_vma sec)).
  { exists (-1), bb. split; [done|]. split; [by left|]. split; [|split; [done|lia]].
    split; [intros _; right; right; lia|done]. }
  match goal with
  | |- context [disasm_loop ?c ?b ?m (S (length ?pc)) ?pc ?a ?bb0 ?nd ?on] =>
      destruct (disasm_loop_total c b m (S (length pc)) Hok pc a bb0 nd on)
        as [[bb1 n1] Hloop]; [lia|]
  end.
  rewrite Hloop.
  apply disasm_loop_exit in Hloop as (decoded & st & pcf & af & Hrun & -> & ->).
  eexists _, _. split; [done|]. split; [right; lia|]. split; [|split; [lia|]].
  { split; [lia|]. intros [?|[?|?]]; [done|done|lia]. }
  intros _.
  destruct (bb_finalize_fields (0 + Z.of_nat (length decoded) =? 0) st
              (foldl (bb_append bin) (bb_enter sec bb) decoded))
    as (Hi & Hs & Hsec & Hal & _).
  destruct (Z.eqb_spec (0 + Z.of_nat (length decoded)) 0); cbn [id] in *;
    rewrite Hi, Hs, Hsec, Hal, foldl_bb_append_insns, foldl_bb_append_start;
    destruct (foldl_bb_append_fields bin decoded (bb_enter sec bb)) as (-> & -> & _);
    rewrite length_app, length_map; cbn; split_and!; try done; lia.
Qed.

Lemma hard_error_iff_witness :
  ∃ ret bb',
    nucleus_disasm_bb toy_cs (toy_bin (BIN_TYPE_other 0) [x90; xc3]) (toy_dis [x90; xc3])
      (new_bb 4097) = Some (ret, bb') ∧
    (ret = -1 ∨ 0 ≤ ret) ∧
    (ret = -1 ↔ bin_arch (toy_bin (BIN_TYPE_other 0) [x90; xc3]) ≠ ARCH_X86 ∨
               cs_ready toy_cs (toy_bin (BIN_TYPE_other 0) [x90; xc3]) = false ∨
               ¬ in_section (dis_section (toy_dis [x90; xc3])) (bb_start (new_bb 4097))) ∧
    (ret = -1 → bb' = new_bb 4097) ∧
    (0 ≤ ret →
     Z.of_nat (length (bb_insns bb')) = Z.of_nat (length (bb_insns (new_bb 4097))) + ret ∧
     bb_start bb' = bb_start (new_bb 4097) ∧ bb_alive bb' = bb_alive (new_bb 4097) ∧
     bb_section bb' = Some (dis_section (toy_dis [x90; xc3]))).
Proof.
  apply (hard_error_iff toy_cs (toy_bin (BIN_TYPE_other 0) [x90; xc3])
           (toy_dis [x90; xc3]) (new_bb 4097)).
  - apply toy_decode_ok.
  - unfold uint64. cbn. lia.
  - unfold uint64. cbn. lia.
Defined.

(** The fields of the block of a finished call, in terms of the decoded
    instructions. *)
Lemma nucleus_disasm_bb_x86_fields cs bin dis bb ret bb' :
  nucleus_disasm_bb_x86 cs bin dis bb = Some (ret, bb') →
  0 ≤ ret →
  ∃ decoded,
    appended_insns bb bb' = map (nucleus_instruction bin) decoded ∧
    ret = Z.of_nat (length decoded) ∧
    bb_padding bb' = bb_padding bb || existsb (is_nop bin) decoded ∧
    bb_privileged bb' = bb_privileged bb || existsb is_cs_privileged_ins decoded ∧
    bb_trap bb' = bb_trap bb || existsb is_cs_trap_ins decoded ∧
    (∃ b, Forall (λ ins, is_nop bin ins = b) decoded) ∧
    (bb_invalid bb = true ∨ ret = 0 → bb_invalid bb' = true).
Proof.
  intros H Hret.
  apply nucleus_disasm_bb_x86_run in H as
    (mode & decoded & st & pcf & af & _ & _ & _ & _ & _ & Hrun & Hlen & ->); [|lia].
  exists decoded.
  destruct (bb_finalize_fields (ret =? 0) st
              (foldl (bb_append bin) (bb_enter (dis_section dis) bb) decoded))
    as (Hi & _ & _ & _ & Hp & Hpr & Htr).
  cbv zeta in Hi, Hp, Hpr, Htr. rewrite Hp, Hpr, Htr.
  destruct (foldl_bb_append_fields bin decoded (bb_enter (dis_section dis) bb))
    as (_ & _ & Hinv & -> & -> & ->). cbn [bb_enter bb_padding bb_privileged bb_trap].
  split; [apply appended_insns_app; by rewrite Hi, foldl_bb_append_insns|].
  split; [done|]. split; [done|]. split; [done|]. split; [done|]. split.
  - destruct (loop_exit_nop _ _ _ _ _ _ _ _ _ _ _ Hrun) as (b & Hall & _); [lia|].
    by exists b.
  - intros [Hbi | ->].
    + destruct (ret =? 0), st; cbn; try done; by rewrite Hinv.
    + done.
Qed.

(** X11. Block flags accumulate: the call returns, and after a call without
    hard error [padding], [privileged] and [trap] of the block are what they
    were or-ed with the no-op flags, the [privileged] and the [trap] fields
    of the appended instructions; a block that was invalid stays invalid and
    a block that got no instruction is invalid. *)
Theorem block_flags_accumulate (cs : Capstone) (bin : Binary) (dis : DisasmSection) (bb : BB) :
  cs_decode_ok cs →
  ∃ ret bb',
    nucleus_disasm_bb_x86 cs bin dis bb = Some (ret, bb') ∧
    (0 ≤ ret →
     let appended := appended_insns bb bb' in
     Z.of_nat (length appended) = ret ∧
     bb_padding bb' = bb_padding bb || existsb (λ i, has_ins_flag i INS_FLAG_NOP) appended ∧
     bb_privileged bb' = bb_privileged bb || existsb ins_privileged appended ∧
     bb_trap bb' = bb_trap bb || existsb ins_trap appended ∧
     (bb_invalid bb = true ∨ ret = 0 → bb_invalid bb' = true)).
Proof.
  intros Hok.
  destruct (nucleus_disasm_bb_x86_total cs bin dis bb Hok) as [[ret bb'] H].
  exists ret, bb'. split; [done|]. intros Hret appended.
  destruct (nucleus_disasm_bb_x86_fields cs bin dis bb ret bb' H Hret)
    as (decoded & Happ & -> & -> & -> & -> & _ & Hinv).
  unfold appended. rewrite Happ, length_map, !existsb_map.
  split; [done|]. split; [|done].
  f_equal. apply existsb_ext'. intros x. by rewrite nucleus_instruction_nop.
Qed.

Lemma block_flags_accumulate_witness :
  ∃ ret bb',
    toy_block BIN_TYPE_PE [xcc; xcc; x55] 4096 = Some (ret, bb') ∧
    (0 ≤ ret →
     let appended := appended_insns (new_bb 4096) bb' in
     Z.of_nat (length appended) = ret ∧
     bb_padding bb' = bb_padding (new_bb 4096)
                      || existsb (λ i, has_ins_flag i INS_FLAG_NOP) appended ∧
     bb_privileged bb' = bb_privileged (new_bb 4096) || existsb ins_privileged appended ∧
     bb_trap bb' = bb_trap (new_bb 4096) || existsb ins_trap appended ∧
     (bb_invalid (new_bb 4096) = true ∨ ret = 0 → bb_invalid bb' = true)).
Proof.
  apply (block_flags_accumulate toy_cs (toy_bin BIN_TYPE_PE [xcc; xcc; x55])
           (toy_dis [xcc; xcc; x55]) (new_bb 4096)).
  apply toy_decode_ok.
Defined.

(** X12. The padding flag tells the runs of no-ops: for a block that comes
    in without [padding] and gets at least one instruction, [padding] is
    set exactly when every appended instruction is flagged as a no-op, and
    clear exactly when none is. *)
Theorem padding_iff_nop_run (cs : Capstone) (bin : Binary) (dis : DisasmSection) (bb : BB) :
  cs_decode_ok cs →
  bb_padding bb = false →
  ∃ ret bb',
    nucleus_disasm_bb_x86 cs bin dis bb = Some (ret, bb') ∧
    (0 < ret →
     (bb_padding bb' = true ↔
      Forall (λ i, has_ins_flag i INS_FLAG_NOP = true) (appended_insns bb bb')) ∧
     (bb_padding bb' = false ↔
      Forall (λ i, has_ins_flag i INS_FLAG_NOP = false) (appended_insns bb bb'))).
Proof.
  intros Hok Hpad.
  destruct (nucleus_disasm_bb_x86_total cs bin dis bb Hok) as [[ret bb'] H].
  exists ret, bb'. split; [done|]. intros Hret.
  destruct (nucleus_disasm_bb_x86_fields cs bin dis bb ret bb' H)
    as (decoded & -> & -> & -> & _ & _ & (b & Hall) & _); [lia|].
  rewrite Hpad. cbn [orb].
  destruct decoded as [|first d]; [cbn in Hret; lia|].
  assert (existsb (is_nop bin) (first :: d) = b) as ->.
  { apply Forall_cons in Hall as [<- Hd]. cbn.
    destruct (is_nop bin first) eqn:E; [done|]. cbn.
    apply not_true_iff_false. rewrite existsb_exists. intros (x & Hx & Hnx).
    rewrite Forall_forall in Hd. rewrite (Hd x) in Hnx by by apply list_elem_of_In.
    done. }
  assert (∀ c, Forall (λ i, has_ins_flag i INS_FLAG_NOP = c)
                 (map (nucleus_instruction bin) (first :: d)) ↔ b = c) as Hiff.
  { intros c. rewrite map_fmap, Forall_fmap. split.
    - intros Hc. apply Forall_cons in Hc as [Hc _]. apply Forall_cons in Hall as [Hb _].
      cbn in Hc. rewrite nucleus_instruction_nop in Hc. congruence.
    - intros <-. eapply Forall_impl; [exact Hall|]. intros x Hx. cbn.
      by rewrite nucleus_instruction_nop. }
  by rewrite !Hiff.
Qed.

Lemma padding_iff_nop_run_witness :
  ∃ ret bb',
    toy_block (BIN_TYPE_other 0) [x90; x90; xc3] 4096 = Some (ret, bb') ∧
    (0 < ret →
     (bb_padding bb' = true ↔
      Forall (λ i, has_ins_flag i INS_FLAG_NOP = true) (appended_insns (new_bb 4096) bb')) ∧
     (bb_padding bb' = false ↔
      Forall (λ i, has_ins_flag i INS_FLAG_NOP = false) (appended_insns (new_bb 4096) bb'))).
Proof.
  apply (padding_iff_nop_run toy_cs (toy_bin (BIN_TYPE_other 0) [x90; x90; xc3])
           (toy_dis [x90; x90; xc3]) (new_bb 4096)).
  - apply toy_decode_ok.
  - reflexivity.
Defined.






(** X13. A valid block lies within its section: on a section within the
    64-bit address space, a block that got at least one instruction and is
    not invalid ends at its start plus the sizes of the appended
    instructions, each of which is positive, and
    [vma <= start < end <= vma + size]. *)
Theorem valid_block_within_section (cs : Capstone) (bin : Binary) (dis : DisasmSection)
    (bb : BB) :
  let sec := dis_section dis in
  cs_decode_ok cs →
  0 ≤ sec_vma sec →
  sec_vma sec + sec_size sec < 2 ^ 64 →
  uint64 (bb_start bb) →
  ∃ ret bb',
    nucleus_disasm_bb_x86 cs bin dis bb = Some (ret, bb') ∧
    (0 < ret → bb_invalid bb' = false →
     bb_end bb' = bb_start bb + insns_bytes (appended_insns bb bb') ∧
     Forall (λ i, 0 < ins_size i) (appended_insns bb bb') ∧
     sec_vma sec ≤ bb_start bb ∧ bb_start bb < bb_end bb' ∧
     bb_end bb' ≤ sec_vma sec + sec_size sec).
Proof.
  intros sec Hok Hvma Hfit Hstart. unfold uint64 in Hstart.
  destruct (nucleus_disasm_bb_x86_total cs bin dis bb Hok) as [[ret bb'] H].
  exists ret, bb'. split; [done|]. intros Hret Hvalid.
  apply nucleus_disasm_bb_x86_run in H as
    (mode & decoded & st & pcf & af & _ & _ & _ & Hge & Hoff & Hrun & Hlen & ->); [|lia].
  fold sec in Hge, Hoff, Hrun, Hvalid |- *.
  rewrite wrap64_small in Hoff, Hrun by lia.
  pose proof (loop_exit_bytes _ _ _ _ _ _ _ _ _ _ _ Hok Hrun Hstart) as (Hpos & Hbytes & _ & _).
  pose proof (section_slice_length sec (bb_start bb - sec_vma sec)) as Hsl.
  replace (ret =? 0) with false in * by (symmetry; apply Z.eqb_neq; lia). cbn [id] in *.
  assert (decoded ≠ []) as Hne by (intros ->; cbn in Hlen; lia).
  pose proof (block_bytes_pos decoded Hpos Hne) as Hbp.
  set (bbf := foldl (bb_append bin) (bb_enter sec bb) decoded) in *.
  assert (bb_end bbf = bb_start bb + block_bytes decoded) as Hend.
  { unfold bbf. rewrite foldl_bb_append_end by (cbn; lia). cbn.
    apply wrap64_small. lia. }
  assert (st ≠ StopInvalid) as Hst by (intros ->; cbn in Hvalid; done).
  assert (bb_finish st bbf = bbf) as -> by by destruct st.
  rewrite (appended_insns_app bb bbf (map (nucleus_instruction bin) decoded))
    by (unfold bbf; by rewrite foldl_bb_append_insns).
  rewrite insns_bytes_map, Hend. split; [done|]. split; [|lia].
  rewrite map_fmap, Forall_fmap. eapply Forall_impl; [exact Hpos|]. by intros x Hx.
Qed.

Lemma valid_block_within_section_witness :
  ∃ ret bb',
    toy_block (BIN_TYPE_other 0) [x55; xc3] 4096 = Some (ret, bb') ∧
    (0 < ret → bb_invalid bb' = false →
     bb_end bb' = bb_start (new_bb 4096) + insns_bytes (appended_insns (new_bb 4096) bb') ∧
     Forall (λ i, 0 < ins_size i) (appended_insns (new_bb 4096) bb') ∧
     sec_vma (dis_section (toy_dis [x55; xc3])) ≤ bb_start (new_bb 4096) ∧
     bb_start (new_bb 4096) < bb_end bb' ∧
     bb_end bb' ≤ sec_vma (dis_section (toy_dis [x55; xc3]))
                  + sec_size (dis_section (toy_dis [x55; xc3]))).
Proof.
  apply (valid_block_within_section toy_cs (toy_bin (BIN_TYPE_other 0) [x55; xc3])
           (toy_dis [x55; xc3]) (new_bb 4096)).
  - apply toy_decode_ok.
  - cbn. lia.
  - cbn. lia.
  - unfold uint64. cbn. lia.
Defined.




(** * Further properties of the instruction record *)

Lemma operand_flags_indirect cflow ops : ∀ flags,
  Z.testbit (operand_flags cflow flags ops) 2
  = Z.testbit flags 2 || (cflow && existsb is_indirect_operand ops).
Proof.
  unfold operand_flags, is_indirect_operand.
  induction ops as [|o ops IH]; intros flags; cbn [foldl existsb].
  - by rewrite andb_false_r, orb_false_r.
  - rewrite IH.
    destruct (cs_op_type o), cflow; cbn [or_flag orb andb];
      rewrite ?Z.lor_spec; change (Z.testbit INS_FLAG_INDIRECT 2) with true;
      rewrite ?orb_true_r, ?andb_false_r, ?orb_false_r; done.
Qed.

Lemma nucleus_instruction_bits bin ins :
  let i := nucleus_instruction bin ins in
  has_ins_flag i INS_FLAG_NOP = is_nop bin ins ∧
  has_ins_flag i INS_FLAG_RET = is_cs_ret_ins ins ∧
  has_ins_flag i INS_FLAG_JMP
    = is_cs_unconditional_jmp_ins ins || is_cs_conditional_cflow_ins ins ∧
  has_ins_flag i INS_FLAG_COND = is_cs_conditional_cflow_ins ins ∧
  has_ins_flag i INS_FLAG_CFLOW = is_cs_cflow_ins ins ∧
  has_ins_flag i INS_FLAG_CALL = is_cs_call_ins ins ∧
  has_ins_flag i INS_FLAG_INDIRECT
    = is_cs_cflow_ins ins && existsb is_indirect_operand (cs_operands ins).
Proof.
  cbv zeta. unfold has_ins_flag, nucleus_instruction. cbn [ins_flags].
  change INS_FLAG_NOP with (2 ^ 6). change INS_FLAG_RET with (2 ^ 5).
  change INS_FLAG_JMP with (2 ^ 3). change INS_FLAG_COND with (2 ^ 1).
  change INS_FLAG_CFLOW with (2 ^ 0). change INS_FLAG_CALL with (2 ^ 4).
  change INS_FLAG_INDIRECT with (2 ^ 2).
  rewrite !land_pow2 by lia. rewrite !negb_involutive.
  rewrite operand_flags_indirect. rewrite !operand_flags_testbit by lia.
  destruct (is_cs_call_ins ins), (is_cs_cflow_ins ins),
    (is_cs_conditional_cflow_ins ins), (is_cs_unconditional_jmp_ins ins),
    (is_cs_ret_ins ins), (is_nop bin ins); cbn; split_and!; reflexivity.
Qed.

(** X15. The flags word of an instruction reads back as the predicates that
    wrote it: each of [NOP], [RET], [JMP], [COND], [CFLOW] and [CALL] is set
    exactly when its classifier holds ([JMP] for conditional jumps too),
    [INDIRECT] exactly when the instruction is control flow and has a
    register or memory operand; [privileged] and [trap] are the classifiers
    of the same name, and start, size and the number of operands are those
    of the decoded instruction. *)
Theorem instruction_flags_decode (bin : Binary) (ins : cs_insn) :
  let i := nucleus_instruction bin ins in
  has_ins_flag i INS_FLAG_NOP = is_nop bin ins ∧
  has_ins_flag i INS_FLAG_RET = is_cs_ret_ins ins ∧
  has_ins_flag i INS_FLAG_JMP
    = is_cs_unconditional_jmp_ins ins || is_cs_conditional_cflow_ins ins ∧
  has_ins_flag i INS_FLAG_COND = is_cs_conditional_cflow_ins ins ∧
  has_ins_flag i INS_FLAG_CFLOW = is_cs_cflow_ins ins ∧
  has_ins_flag i INS_FLAG_CALL = is_cs_call_ins ins ∧
  has_ins_flag i INS_FLAG_INDIRECT
    = is_cs_cflow_ins ins && existsb is_indirect_operand (cs_operands ins) ∧
  ins_privileged i = is_cs_privileged_ins ins ∧
  ins_trap i = is_cs_trap_ins ins ∧
  ins_start i = cs_address ins ∧ ins_size i = cs_size ins ∧
  length (ins_operands i) = length (cs_operands ins).
Proof.
  intros i.
  destruct (nucleus_instruction_bits bin ins) as (H1 & H2 & H3 & H4 & H5 & H6 & H7).
  unfold i. split_and!; try done. cbn. apply length_map.
Qed.

Lemma foldl_last_imm ops : ∀ t,
  foldl (λ t' o, match cs_op_val o with CS_OP_IMM imm => wrap64 imm | _ => t' end) t ops
  = default t (wrap64 <$> last_imm ops).
Proof.
  induction ops as [|o ops IH]; intros t; [done|].
  cbn [foldl]. rewrite IH. unfold last_imm.
  destruct (cs_op_val o) as [| |imm| |] eqn:E; cbn; rewrite E; try done.
  rewrite last_cons. by destruct (last _).
Qed.

(** X16. The branch target of an instruction: 0 for an instruction without
    a control-flow group; for a control-flow instruction the last immediate
    operand, taken as a 64-bit value without sign, and 0 when no operand is
    an immediate. *)
Theorem instruction_target (bin : Binary) (ins : cs_insn) :
  ins_target (nucleus_instruction bin ins)
  = if is_cs_cflow_ins ins
    then default 0 (wrap64 <$> last_imm (cs_operands ins))
    else 0.
Proof.
  cbn [nucleus_instruction ins_target]. unfold operand_target, is_cs_cflow_ins.
  assert (∀ t gs,
    foldl (λ t g,
             if is_cs_cflow_group g then
               foldl (λ t' o, match cs_op_val o with CS_OP_IMM imm => wrap64 imm | _ => t' end)
                     t (cs_operands ins)
             else t) t gs
    = if existsb is_cs_cflow_group gs
      then default t (wrap64 <$> last_imm (cs_operands ins)) else t) as Hfold.
  { intros t gs. revert t. induction gs as [|g gs IH]; intros t; [done|].
    cbn [foldl existsb]. rewrite IH, foldl_last_imm.
    destruct (is_cs_cflow_group g); cbn [orb]; [|done].
    destruct (existsb is_cs_cflow_group gs); [|done].
    by destruct (last_imm (cs_operands ins)). }
  apply Hfold.
Qed.

(** X17. The classifiers by identifier exclude each other: of architectural
    no-op, trap, call, return, unconditional jump, conditional jump and
    privileged at most one holds for an instruction, and none of them for a
    semantic no-op; hence no instruction is flagged with two of [CALL],
    [RET] and [JMP], and an instruction flagged [NOP] carries none of
    [CALL], [RET], [JMP] and [COND] and is not privileged. *)
Theorem classification_exclusive (bin : Binary) (ins : cs_insn) :
  let ps := [is_cs_nop_ins ins; is_cs_trap_ins ins; is_cs_call_ins ins; is_cs_ret_ins ins;
             is_cs_unconditional_jmp_ins ins; is_cs_conditional_cflow_ins ins;
             is_cs_privileged_ins ins] in
  let i := nucleus_instruction bin ins in
  (length (filter (λ b : bool, b = true) ps) ≤ 1)%nat ∧
  (is_cs_semantic_nop_ins ins = true → Forall (λ b : bool, b = false) ps) ∧
  has_ins_flag i INS_FLAG_CALL && has_ins_flag i INS_FLAG_RET = false ∧
  has_ins_flag i INS_FLAG_CALL && has_ins_flag i INS_FLAG_JMP = false ∧
  has_ins_flag i INS_FLAG_RET && has_ins_flag i INS_FLAG_JMP = false ∧
  has_ins_flag i INS_FLAG_NOP
  && (has_ins_flag i INS_FLAG_CALL || has_ins_flag i INS_FLAG_RET
      || has_ins_flag i INS_FLAG_JMP || has_ins_flag i INS_FLAG_COND
      || ins_privileged i) = false.
Proof.
  intros ps i.
  destruct (nucleus_instruction_bits bin ins) as (H1 & H2 & H3 & H4 & _ & H6 & _).
  fold i in H1, H2, H3, H4, H6. rewrite H1, H2, H3, H4, H6.
  assert (ins_privileged i = is_cs_privileged_ins ins) as -> by done.
  unfold ps, is_nop, is_cs_nop_ins, is_cs_trap_ins, is_cs_call_ins, is_cs_ret_ins,
    is_cs_unconditional_jmp_ins, is_cs_conditional_cflow_ins, is_cs_privileged_ins.
  split; [|split].
  - destruct (cs_id ins); vm_compute; lia.
  - unfold is_cs_semantic_nop_ins.
    destruct (cs_id ins); try (intros Hf; discriminate Hf); intros _; by repeat constructor.
  - unfold is_cs_semantic_nop_ins.
    destruct (cs_id ins); cbn [andb orb]; rewrite ?andb_false_r; done.
Qed.

(** * Further properties of the engine *)

Lemma add_addr_flag_mono ndebug m a flag m' b g :
  AddressMap.add_addr_flag ndebug m a flag = Some m' →
  AddressMap.has_flag m b g → AddressMap.has_flag m' b g.
Proof.
  intros H Hb. destruct (AddressMap.contains m a) eqn:Hc.
  - destruct (add_addr_flag_spec ndebug m a flag Hc) as (m'' & H' & _ & Hmono & _).
    rewrite H in H'. simplify_eq. by apply Hmono.
  - unfold AddressMap.add_addr_flag in H. rewrite Hc in H.
    destruct (assert ndebug false); [|done]. cbn in H. by simplify_eq.
Qed.

Lemma add_addr_flags_mono ndebug flag addrs : ∀ m m',
  add_addr_flags ndebug m addrs flag = Some m' →
  (∀ b g, AddressMap.has_flag m b g → AddressMap.has_flag m' b g) ∧
  (∀ b, AddressMap.contains m b = true → AddressMap.contains m' b = true).
Proof.
  induction addrs as [|a addrs IH]; intros m m' H; cbn in H.
  - by simplify_eq.
  - destruct (AddressMap.add_addr_flag ndebug m a flag) as [m1|] eqn:H1; [|done].
    cbn in H. destruct (IH m1 m' H) as [Hm Hc]. split.
    + intros b g Hb. apply Hm. by eapply add_addr_flag_mono.
    + intros b Hb. apply Hc. by eapply add_addr_flag_contains.
Qed.

Lemma accept_bb_keeps ndebug dis Q bb dis' Q' :
  accept_bb ndebug dis Q bb = Some (dis', Q') →
  dis_section dis' = dis_section dis ∧
  dis_BBs dis' = dis_BBs dis ++ [bb] ∧
  Q' = Q ++ [Some (length (dis_BBs dis))] ∧
  (∀ b g, AddressMap.has_flag (dis_addrmap dis) b g →
          AddressMap.has_flag (dis_addrmap dis') b g) ∧
  (∀ b, AddressMap.contains (dis_addrmap dis) b = true →
        AddressMap.contains (dis_addrmap dis') b = true).
Proof.
  intros H. unfold accept_bb in H.
  destruct (AddressMap.add_addr_flag _ _ _ _) as [m1|] eqn:H1; [|done]. cbn in H.
  destruct (add_addr_flags _ m1 _ _) as [m2|] eqn:H2; [|done]. cbn in H.
  destruct (add_addr_flags _ m2 _ _) as [m3|] eqn:H3; [|done]. cbn in H.
  simplify_eq. cbn.
  destruct (add_addr_flags_mono _ _ _ _ _ H2) as [Hm2 Hc2].
  destruct (add_addr_flags_mono _ _ _ _ _ H3) as [Hm3 Hc3].
  split_and!; try done.
  - intros b g Hb. apply Hm3, Hm2. by eapply add_addr_flag_mono.
  - intros b Hb. apply Hc3, Hc2. by eapply add_addr_flag_contains.
Qed.

Lemma accept_mutants_keeps ndebug mutants : ∀ dis Q n dis' Q',
  accept_mutants ndebug dis Q mutants n = Returns (dis', Q') →
  dis_section dis' = dis_section dis ∧
  (∃ added, dis_BBs dis' = dis_BBs dis ++ added ∧
            Forall (λ b, bb_alive b = true ∧ b ∈ mutants) added) ∧
  (∀ b g, AddressMap.has_flag (dis_addrmap dis) b g →
          AddressMap.has_flag (dis_addrmap dis') b g) ∧
  (∀ b, AddressMap.contains (dis_addrmap dis) b = true →
        AddressMap.contains (dis_addrmap dis') b = true).
Proof.
  induction mutants as [|m rest IH]; intros dis Q n dis' Q' H; cbn in H.
  - destruct (n <=? 0); [|done]. simplify_eq.
    split; [done|]. split; [exists []; by rewrite app_nil_r|done].
  - destruct (n <=? 0).
    { simplify_eq. split; [done|]. split; [exists []; by rewrite app_nil_r|done]. }
    destruct (bb_alive m) eqn:Halive.
    + destruct (accept_bb ndebug dis Q m) as [[dis1 Q1]|] eqn:H1; [|done].
      apply accept_bb_keeps in H1 as (Hs1 & HB1 & _ & Hm1 & Hc1).
      apply IH in H as (Hs & (added & HB & Hall) & Hm & Hc).
      split; [congruence|]. split; [|split].
      * exists (m :: added). split; [rewrite HB, HB1; by rewrite <- app_assoc|].
        constructor; [split; [done|by left]|].
        eapply Forall_impl; [exact Hall|]. intros x [? ?]. split; [done|by right].
      * intros b g Hb. by apply Hm, Hm1.
      * intros b Hb. by apply Hc, Hc1.
    + apply IH in H as (Hs & (added & HB & Hall) & Hm & Hc).
      split; [done|]. split; [|done].
      exists added. split; [done|].
      eapply Forall_impl; [exact Hall|]. intros x [? ?]. split; [done|by right].
Qed.

Lemma disasm_worklist_keeps cs st ndebug bin fuel : ∀ dis Q ret dis',
  disasm_worklist cs st ndebug bin fuel dis Q = Returns (ret, dis') →
  (ret = 0 ∨ ret = -1) ∧
  dis_section dis' = dis_section dis ∧
  (∃ added, dis_BBs dis' = dis_BBs dis ++ added ∧
            Forall (λ b, bb_alive b = true) added) ∧
  (∀ b g, AddressMap.has_flag (dis_addrmap dis) b g →
          AddressMap.has_flag (dis_addrmap dis') b g) ∧
  (∀ b, AddressMap.contains (dis_addrmap dis) b = true →
        AddressMap.contains (dis_addrmap dis') b = true).
Proof.
  assert (∀ dis : DisasmSection,
            ∃ added, dis_BBs dis = dis_BBs dis ++ added ∧
                     Forall (λ b, bb_alive b = true) added) as Hnil
    by (intros d; exists []; by rewrite app_nil_r).
  induction fuel as [|fuel IH]; intros dis Q ret dis' H;
    destruct Q as [|parent Q1]; cbn [disasm_worklist] in H; try done;
    try (simplify_eq; split_and!; by auto).
  destruct (disasm_mutants _ _ _ _ _) as [[mutants1|]| | |]; try done;
    try (simplify_eq; split_and!; by auto).
  destruct (bb_select _ _ _ _) as [r mutants2].
  destruct (select_count r <? 0); [simplify_eq; split_and!; by auto|].
  destruct (accept_mutants _ _ _ _ _) as [[dis1 Q']| | |] eqn:Hacc; try done.
  apply accept_mutants_keeps in Hacc as (Hs1 & (added1 & HB1 & Hall1) & Hm1 & Hc1).
  apply IH in H as (Hret & Hs & (added & HB & Hall) & Hm & Hc).
  split; [done|]. split; [congruence|]. split; [|split].
  - exists (added1 ++ added). split; [rewrite HB, HB1; by rewrite <- app_assoc|].
    apply Forall_app. split; [|done].
    eapply Forall_impl; [exact Hall1|]. by intros x [? _].
  - intros b g Hb. by apply Hm, Hm1.
  - intros b Hb. by apply Hc, Hc1.
Qed.

(** X18. What the disassembly of a section keeps: when
    [nucleus_disasm_section] returns, it returns 0 or -1; the section
    reference is the same, the list of blocks has only grown at its end and
    every added block is alive; every flag that was set in the address map
    is still set and every address that was contained still is. A section
    that is not code is returned untouched with 0 when only code sections
    are wanted. *)
Theorem section_disasm_keeps (cs : Capstone) (st : Strategy) (opts : Options)
    (ndebug : bool) (bin : Binary) (fuel : nat) (dis : DisasmSection)
    (ret : Z) (dis' : DisasmSection) :
  nucleus_disasm_section cs st opts ndebug bin fuel dis = Returns (ret, dis') →
  (ret = 0 ∨ ret = -1) ∧
  dis_section dis' = dis_section dis ∧
  dis_BBs dis' = dis_BBs dis ++ added_BBs dis dis' ∧
  Forall (λ b, bb_alive b = true) (added_BBs dis dis') ∧
  (∀ b g, AddressMap.has_flag (dis_addrmap dis) b g →
          AddressMap.has_flag (dis_addrmap dis') b g) ∧
  (∀ b, AddressMap.contains (dis_addrmap dis) b = true →
        AddressMap.contains (dis_addrmap dis') b = true) ∧
  (is_code (dis_section dis) = false → only_code_sections opts = true →
   ret = 0 ∧ dis' = dis).
Proof.
  intros H. unfold nucleus_disasm_section in H.
  destruct (negb (is_code (dis_section dis)) && only_code_sections opts) eqn:Hskip.
  - simplify_eq. unfold added_BBs. rewrite drop_all, app_nil_r.
    split_and!; try done; by auto.
  - apply disasm_worklist_keeps in H as (Hret & Hs & (added & HB & Hall) & Hm & Hc).
    unfold added_BBs. rewrite HB, drop_app_length.
    split_and!; try done.
    intros Hcode Honly. by rewrite Hcode, Honly in Hskip.
Qed.

Lemma section_disasm_keeps_witness :
  ∃ ret dis',
    nucleus_disasm_section toy_cs (toy_strategy None) (mk_Options true) false
      (toy_bin (BIN_TYPE_other 0) [x90; xc3]) 3 (toy_dis [x90; xc3]) = Returns (ret, dis') ∧
    (ret = 0 ∨ ret = -1) ∧
    dis_section dis' = dis_section (toy_dis [x90; xc3]) ∧
    dis_BBs dis' = dis_BBs (toy_dis [x90; xc3]) ++ added_BBs (toy_dis [x90; xc3]) dis' ∧
    Forall (λ b, bb_alive b = true) (added_BBs (toy_dis [x90; xc3]) dis') ∧
    length (dis_BBs dis') = 1%nat.
Proof.
  eexists _, _. split; [vm_compute; reflexivity|].
  match goal with
  | |- (?r = 0 ∨ _) ∧ dis_section ?d = _ ∧ _ =>
      destruct (section_disasm_keeps toy_cs (toy_strategy None) (mk_Options true) false
                  (toy_bin (BIN_TYPE_other 0) [x90; xc3]) 3 (toy_dis [x90; xc3]) r d)
        as (H1 & H2 & H3 & H4 & _)
  end.
  - vm_compute. reflexivity.
  - split; [exact H1|]. split; [exact H2|]. split; [exact H3|]. split; [exact H4|].
    reflexivity.
Defined.

Lemma section_disasm_ret_section cs st opts ndebug bin fuel dis ret dis' :
  nucleus_disasm_section cs st opts ndebug bin fuel dis = Returns (ret, dis') →
  (ret = 0 ∨ ret = -1) ∧
  dis_section dis' = dis_section dis ∧
  (engine_run ndebug (dis_section dis) (dis_addrmap dis) →
   engine_run ndebug (dis_section dis) (dis_addrmap dis')).
Proof.
  intros H. unfold nucleus_disasm_section in H.
  destruct (_ && _).
  - by simplify_eq; split_and!; auto.
  - pose proof (disasm_worklist_keeps _ _ _ _ _ _ _ _ _ H) as (Hret & Hs & _).
    split; [done|]. split; [done|]. intros Hrun. by eapply disasm_worklist_run.
Qed.

Lemma add_addr_flag_asserted m a flag m' :
  AddressMap.add_addr_flag false m a flag = Some m' →
  AddressMap.has_flag m' a flag.
Proof.
  intros H. destruct (AddressMap.contains m a) eqn:Hc.
  - destruct (add_addr_flag_spec false m a flag Hc) as (m'' & H' & Hset & _).
    rewrite H in H'. by simplify_eq.
  - unfold AddressMap.add_addr_flag in H. by rewrite Hc in H.
Qed.

Lemma add_addr_flags_asserted flag addrs : ∀ m m',
  add_addr_flags false m addrs flag = Some m' →
  ∀ a, a ∈ addrs → AddressMap.has_flag m' a flag.
Proof.
  induction addrs as [|x addrs IH]; intros m m' H a Ha; [by apply elem_of_nil in Ha|].
  cbn in H.
  destruct (AddressMap.add_addr_flag false m x flag) as [m1|] eqn:H1; [|done].
  cbn in H. apply elem_of_cons in Ha as [->|Ha].
  - destruct (add_addr_flags_mono _ _ _ _ _ H) as [Hm _]. apply Hm.
    by eapply add_addr_flag_asserted.
  - by eapply IH.
Qed.

Lemma accept_bb_asserted dis Q bb dis' Q' :
  accept_bb false dis Q bb = Some (dis', Q') → recorded (dis_addrmap dis') bb.
Proof.
  intros H. unfold accept_bb in H.
  destruct (AddressMap.add_addr_flag _ _ _ _) as [m1|] eqn:H1; [|done]. cbn in H.
  destruct (add_addr_flags _ m1 _ _) as [m2|] eqn:H2; [|done]. cbn in H.
  destruct (add_addr_flags _ m2 _ _) as [m3|] eqn:H3; [|done]. cbn in H.
  simplify_eq. cbn.
  destruct (add_addr_flags_mono _ _ _ _ _ H2) as [Hm2 _].
  destruct (add_addr_flags_mono _ _ _ _ _ H3) as [Hm3 _].
  split; [|split].
  - apply Hm3, Hm2. by eapply add_addr_flag_asserted.
  - intros ins Hins. apply Hm3. eapply add_addr_flags_asserted; [done|].
    rewrite map_fmap. by apply list_elem_of_fmap_2.
  - intros a Ha. eapply add_addr_flags_asserted; [done|].
    unfold bb_addresses. apply elem_of_seqZ. lia.
Qed.

Lemma recorded_mono m m' bb :
  (∀ b g, AddressMap.has_flag m b g → AddressMap.has_flag m' b g) →
  recorded m bb → recorded m' bb.
Proof.
  intros Hm (R1 & R2 & R3). split; [by apply Hm|]. split; intros; apply Hm; auto.
Qed.

Lemma accept_mutants_asserted mutants : ∀ dis Q n dis' Q',
  accept_mutants false dis Q mutants n = Returns (dis', Q') →
  Forall (recorded (dis_addrmap dis')) (added_BBs dis dis').
Proof.
  induction mutants as [|m rest IH]; intros dis Q n dis' Q' H; cbn in H.
  - destruct (n <=? 0); [|done]. simplify_eq. unfold added_BBs. by rewrite drop_all.
  - destruct (n <=? 0).
    { simplify_eq. unfold added_BBs. by rewrite drop_all. }
    destruct (bb_alive m); [|by eapply IH].
    destruct (accept_bb false dis Q m) as [[dis1 Q1]|] eqn:H1; [|done].
    pose proof (accept_bb_asserted _ _ _ _ _ H1) as Hrec.
    apply accept_bb_keeps in H1 as (_ & HB1 & _).
    pose proof (IH _ _ _ _ _ H) as Hall.
    apply accept_mutants_keeps in H as (_ & (added & HB & _) & Hm & _).
    unfold added_BBs in *. rewrite HB, HB1, <- app_assoc, drop_app_length.
    rewrite HB, drop_app_length in Hall.
    constructor; [by eapply recorded_mono|done].
Qed.

Lemma disasm_worklist_asserted cs st bin fuel : ∀ dis Q ret dis',
  disasm_worklist cs st false bin fuel dis Q = Returns (ret, dis') →
  Forall (recorded (dis_addrmap dis')) (added_BBs dis dis').
Proof.
  induction fuel as [|fuel IH]; intros dis Q ret dis' H;
    destruct Q as [|parent Q1]; cbn [disasm_worklist] in H; try done;
    try (simplify_eq; unfold added_BBs; by rewrite drop_all).
  destruct (disasm_mutants _ _ _ _ _) as [[mutants1|]| | |]; try done;
    try (simplify_eq; unfold added_BBs; by rewrite drop_all).
  destruct (bb_select _ _ _ _) as [r mutants2].
  destruct (select_count r <? 0);
    [simplify_eq; unfold added_BBs; by rewrite drop_all|].
  destruct (accept_mutants _ _ _ _ _) as [[dis1 Q']| | |] eqn:Hacc; try done.
  pose proof (accept_mutants_asserted _ _ _ _ _ _ Hacc) as Hall1.
  apply accept_mutants_keeps in Hacc as (_ & (added1 & HB1 & _) & _).
  pose proof (IH _ _ _ _ H) as Hall.
  apply disasm_worklist_keeps in H as (_ & _ & (added & HB & _) & Hm & _).
  unfold added_BBs in *. rewrite HB, HB1, <- app_assoc, drop_app_length.
  rewrite HB1, drop_app_length in Hall1. rewrite HB, drop_app_length in Hall.
  apply Forall_app. split; [|done].
  eapply Forall_impl; [exact Hall1|]. intros x Hx. by eapply recorded_mono.
Qed.

(** X19. In a build with assertions, a section whose disassembly returns has
    every block that was added recorded in its address map: the start is
    flagged as block start, every instruction start as instruction start and
    every address from start to end as code. *)
Theorem asserted_run_records (cs : Capstone) (st : Strategy) (opts : Options)
    (bin : Binary) (fuel : nat) (dis : DisasmSection) (ret : Z) (dis' : DisasmSection) :
  nucleus_disasm_section cs st opts false bin fuel dis = Returns (ret, dis') →
  Forall (recorded (dis_addrmap dis')) (added_BBs dis dis').
Proof.
  intros H. unfold nucleus_disasm_section in H.
  destruct (_ && _).
  - simplify_eq. unfold added_BBs. by rewrite drop_all.
  - by eapply disasm_worklist_asserted.
Qed.

Lemma asserted_run_records_witness :
  ∃ ret dis',
    nucleus_disasm_section toy_cs (toy_strategy None) (mk_Options true) false
      (toy_bin (BIN_TYPE_other 0) [x90; xc3]) 3 (toy_dis [x90; xc3]) = Returns (ret, dis') ∧
    Forall (recorded (dis_addrmap dis')) (added_BBs (toy_dis [x90; xc3]) dis') ∧
    length (added_BBs (toy_dis [x90; xc3]) dis') = 1%nat.
Proof.
  eexists _, _. split; [vm_compute; reflexivity|]. split; [|reflexivity].
  apply (asserted_run_records toy_cs (toy_strategy None) (mk_Options true)
           (toy_bin (BIN_TYPE_other 0) [x90; xc3]) 3 (toy_dis [x90; xc3]) 0).
  vm_compute. reflexivity.
Defined.

(** X20. A negative score is fatal: when the score of a mutant of the
    iteration, once decoded, is below 0, the iteration ends the section
    with -1 and leaves it as it was; no mutant of the iteration is
    recorded. *)
Theorem negative_score_fails (cs : Capstone) (st : Strategy) (ndebug : bool)
    (bin : Binary) (fuel : nat) (dis : DisasmSection)
    (parent : option nat) (Q1 : list (option nat)) (m : BB) :
  cs_decode_ok cs →
  m ∈ bb_mutate st dis parent →
  (∀ ret m1, nucleus_disasm_bb cs bin dis m = Some (ret, m1) →
             double_ltz (bb_score st dis m1).1 = true) →
  disasm_worklist cs st ndebug bin (S fuel) dis (parent :: Q1) = Returns (-1, dis).
Proof.
  intros Hok Hin Hneg. cbn [disasm_worklist].
  assert (disasm_mutants cs st bin dis (bb_mutate st dis parent) = Returns None) as ->; [|done].
  induction (bb_mutate st dis parent) as [|m0 rest IH]; [by apply elem_of_nil in Hin|].
  cbn [disasm_mutants].
  destruct (nucleus_disasm_bb_total cs bin dis m0 Hok) as [[ret m1] Hm0].
  rewrite Hm0. destruct (Z.ltb_spec ret 0); [done|].
  destruct (bb_score st dis m1) as [s m2] eqn:Hs.
  destruct (double_ltz s) eqn:Hd; [done|].
  apply elem_of_cons in Hin as [->|Hin].
  - specialize (Hneg ret m1 Hm0). rewrite Hs in Hneg. cbn in Hneg. congruence.
  - by rewrite IH.
Qed.

Lemma negative_score_fails_witness :
  disasm_worklist toy_cs negative_strategy false (toy_bin (BIN_TYPE_other 0) [x90; xc3])
    1 (toy_dis [x90; xc3]) [None] = Returns (-1, toy_dis [x90; xc3]).
Proof.
  apply (negative_score_fails toy_cs negative_strategy false
           (toy_bin (BIN_TYPE_other 0) [x90; xc3]) 0 (toy_dis [x90; xc3]) None []
           (new_bb 4096)).
  - apply toy_decode_ok.
  - cbn. apply list_elem_of_singleton. reflexivity.
  - intros ret m1 _. reflexivity.
Defined.

Lemma disasm_sections_spec cs st opts ndebug bin fuel : ∀ ds ret ds',
  disasm_sections cs st opts ndebug bin fuel ds = Returns (ret, ds') →
  (ret = 0 ∨ ret = -1) ∧
  Forall2 (λ d d', dis_section d' = dis_section d ∧
                   (engine_run ndebug (dis_section d) (dis_addrmap d) →
                    engine_run ndebug (dis_section d') (dis_addrmap d'))) ds ds' ∧
  (ret = 0 →
   Forall2 (λ d d', nucleus_disasm_section cs st opts ndebug bin fuel d = Returns (0, d'))
           ds ds') ∧
  (ret = -1 →
   ∃ k dis failed,
     ds !! k = Some dis ∧ ds' !! k = Some failed ∧
     nucleus_disasm_section cs st opts ndebug bin fuel dis = Returns (-1, failed) ∧
     Forall2 (λ d d', nucleus_disasm_section cs st opts ndebug bin fuel d = Returns (0, d'))
             (take k ds) (take k ds') ∧
     drop (S k) ds' = drop (S k) ds).
Proof.
  induction ds as [|dis rest IH]; intros ret ds' H; cbn [disasm_sections] in H.
  - simplify_eq. split; [by left|]. split; [constructor|].
    split; [intros _; constructor|intros ?; lia].
  - destruct (nucleus_disasm_section cs st opts ndebug bin fuel dis)
      as [[r dis1]| | |] eqn:Hsec; try done.
    pose proof (section_disasm_ret_section cs st opts ndebug bin fuel dis r dis1 Hsec)
      as (Hr & Hs1 & Hrun1).
    destruct (Z.ltb_spec r 0).
    + simplify_eq. assert (r = -1) as -> by lia.
      split; [by right|]. split; [|split].
      * constructor; [split; [done|by rewrite Hs1]|].
        apply Forall_Forall2_diag, Forall_forall. by intros d _.
      * intros ?; lia.
      * intros _. exists 0%nat, dis, dis1. cbn. split_and!; done || constructor.
    + destruct (disasm_sections cs st opts ndebug bin fuel rest)
        as [[r' rest']| | |] eqn:Hrest; try done.
      simplify_eq. assert (r = 0) as -> by lia.
      destruct (IH _ _ eq_refl) as (Hret & Hsecs & Hgood & Hfail).
      split; [done|]. split; [|split].
      * constructor; [split; [done|by rewrite Hs1]|done].
      * intros Hz. constructor; [done|by apply Hgood].
      * intros Hm1. destruct (Hfail Hm1) as (k & d & failed & Hk & Hk' & Hdf & Htk & Hdrop).
        exists (S k), d, failed. cbn. split_and!; done || by constructor.
Qed.

(** X21. The driver: when [nucleus_disasm] returns, it returns 0 or -1
    and leaves one entry for each code section of the binary (and each data
    section unless only code sections are asked for), in the order of the
    binary, each with an address map that the engine built from the initial
    one.  On 0 every section was disassembled with result 0.  On -1 the
    sections before the failing one were disassembled with result 0 and the
    ones after it are as [init_disasm] left them: all addresses unmapped
    and no block.  Whether the call returns is up to the policies: a run
    can also end on an [assert] or never leave the worklist. *)
Theorem nucleus_disasm_result (cs : Capstone) (st : Strategy) (opts : Options)
    (ndebug : bool) (bin : Binary) (fuel : nat) (ret : Z) (ds : list DisasmSection) :
  nucleus_disasm cs st opts ndebug bin fuel = Returns (ret, ds) →
  (ret = 0 ∨ ret = -1) ∧
  map dis_section ds =
    filter (λ sec, is_code sec || (negb (only_code_sections opts) && is_data sec) = true)
           (bin_sections bin) ∧
  Forall (λ d, engine_run ndebug (dis_section d) (dis_addrmap d)) ds ∧
  (ret = 0 →
   Forall2 (λ d d', nucleus_disasm_section cs st opts ndebug bin fuel d = Returns (0, d'))
           (init_disasm opts bin) ds) ∧
  (ret = -1 →
   ∃ k dis failed,
     init_disasm opts bin !! k = Some dis ∧ ds !! k = Some failed ∧
     nucleus_disasm_section cs st opts ndebug bin fuel dis = Returns (-1, failed) ∧
     Forall2 (λ d d', nucleus_disasm_section cs st opts ndebug bin fuel d = Returns (0, d'))
             (take k (init_disasm opts bin)) (take k ds) ∧
     Forall (λ d, dis_addrmap d = init_addrmap (dis_section d) ∧ dis_BBs d = [])
            (drop (S k) ds)).
Proof.
  intros H. unfold nucleus_disasm in H.
  destruct (disasm_sections_spec _ _ _ _ _ _ _ _ _ H) as (Hret & Hsecs & Hgood & Hfail).
  assert (Forall (λ d, dis_addrmap d = init_addrmap (dis_section d) ∧ dis_BBs d = [])
            (init_disasm opts bin)) as Hinit.
  { unfold init_disasm. rewrite map_fmap. apply Forall_fmap, Forall_forall.
    by intros sec _. }
  split; [done|]. split; [|split; [|split]].
  - transitivity (map dis_section (init_disasm opts bin)).
    + clear -Hsecs. induction Hsecs as [|d d' l l' [Hd _] _ IH]; [done|].
      cbn. by rewrite Hd, IH.
    + unfold init_disasm. rewrite map_map. cbn. apply map_id.
  - clear -Hsecs Hinit. induction Hsecs as [|d d' l l' [Hd Hrun] _ IH]; [constructor|].
    apply Forall_cons in Hinit as [[Hm _] Hinit].
    constructor; [|by apply IH]. apply Hrun. rewrite Hm. apply run_init.
  - done.
  - intros Hm1. destruct (Hfail Hm1) as (k & d & failed & Hk & Hk' & Hdf & Htk & Hdrop).
    exists k, d, failed. split_and!; try done. rewrite Hdrop. by apply Forall_drop.
Qed.

Lemma nucleus_disasm_result_witness :
  ∃ ds,
    nucleus_disasm toy_cs (toy_strategy None) (mk_Options true) false
      (toy_bin (BIN_TYPE_other 0) [x90; xc3]) 3 = Returns (0, ds) ∧
    map dis_section ds = [toy_section [x90; xc3]] ∧
    Forall (λ d, engine_run false (dis_section d) (dis_addrmap d)) ds.
Proof.
  eexists. split; [vm_compute; reflexivity|].
  destruct (nucleus_disasm_result toy_cs (toy_strategy None) (mk_Options true) false
              (toy_bin (BIN_TYPE_other 0) [x90; xc3]) 3 0 _ eq_refl)
    as (_ & Hsecs & Hrun & _).
  split; [exact Hsecs|exact Hrun].
Defined.


(** X22. The driver never skips a section: a section that [init_disasm] set
    up is a code section, or a data section with [only_code_sections] off,
    so the branch of [nucleus_disasm_section] that skips non-code sections
    is not taken for it and the worklist is run from the seed. *)
Theorem no_section_skipped (cs : Capstone) (st : Strategy) (opts : Options)
    (ndebug : bool) (bin : Binary) (fuel : nat) (dis : DisasmSection) :
  dis ∈ init_disasm opts bin →
  (sec_type (dis_section dis) = SEC_TYPE_CODE ∨
   sec_type (dis_section dis) = SEC_TYPE_DATA ∧ only_code_sections opts = false) ∧
  dis_section dis ∈ bin_sections bin ∧
  nucleus_disasm_section cs st opts ndebug bin fuel dis
  = disasm_worklist cs st ndebug bin fuel dis [None].
Proof.
  intros Hin. unfold init_disasm in Hin. rewrite map_fmap in Hin.
  apply list_elem_of_fmap in Hin as (sec & -> & Hsec).
  apply list_elem_of_filter in Hsec as [Hty Hsec]. cbn [dis_section].
  unfold nucleus_disasm_section, is_code, is_data in *. cbn [dis_section].
  destruct (sec_type sec), (only_code_sections opts); cbn in Hty |- *;
    try discriminate; split_and!; auto.
Qed.

Lemma no_section_skipped_witness :
  nucleus_disasm_section toy_cs (toy_strategy None) (mk_Options true) false
    (toy_bin (BIN_TYPE_other 0) [x90; xc3]) 3 (toy_dis [x90; xc3])
  = disasm_worklist toy_cs (toy_strategy None) false
      (toy_bin (BIN_TYPE_other 0) [x90; xc3]) 3 (toy_dis [x90; xc3]) [None].
Proof.
  apply (no_section_skipped toy_cs (toy_strategy None) (mk_Options true) false
           (toy_bin (BIN_TYPE_other 0) [x90; xc3]) 3 (toy_dis [x90; xc3])).
  vm_compute. apply list_elem_of_singleton. reflexivity.
Defined.
